(** * RenderScene: entity bookkeeping and raycasting

    A shallow embedding of the render-scene module (the class
    [RenderScene] and the module-level [narrowphase] helper) together
    with the properties of its specification.

    Conventions of the embedding:
    - a JavaScript [number] is an IEEE-754 binary64 value, modelled by
      [spec_float] with precision 53 and maximal exponent 1024;
    - objects are identified by a reference ([Ref]); [===] on objects
      compares references;
    - mutable fields of collaborating objects (the scene an entity is
      attached to, a node's [hasChangedFlags], the native pools) live in
      an explicit [World] that every method threads through. *)

From Stdlib Require Import ZArith List Bool Lia SpecFloat.
From stdpp Require Import gmap list strings.

(* ===================================================================== *)
(** ** JavaScript numbers *)
(* ===================================================================== *)

Module Num.

Definition number := spec_float.

Definition prec : Z := 53.
Definition emax : Z := 1024.

Definition Infinity : number := S754_infinity false.
Definition NaN : number := S754_nan.
Definition zero : number := S754_zero false.

(** [ofZ m e] is the double nearest to [m * 2^e]. *)
Definition ofZ (m e : Z) : number := binary_normalize prec emax m e false.

Definition mul (x y : number) : number := SFmul prec emax x y.
Definition add (x y : number) : number := SFadd prec emax x y.
Definition sqrt (x : number) : number := SFsqrt prec emax x.

(** The relational operators of the language; every comparison with
    [NaN] is false. *)
Definition lt (x y : number) : bool := SFltb x y.
Definition le (x y : number) : bool := SFleb x y.
Definition gt (x y : number) : bool := SFltb y x.
Definition ge (x y : number) : bool := SFleb y x.

Definition isNaN (x : number) : bool :=
  match x with S754_nan => true | _ => false end.

(** [Math.min] of two arguments: [NaN] if either is [NaN], and
    [-0] is smaller than [+0]. *)
Definition Math_min (x y : number) : number :=
  if isNaN x || isNaN y then NaN
  else if lt x y then x
  else if lt y x then y
  else match x, y with
       | S754_zero sx, S754_zero sy => S754_zero (sx || sy)
       | _, _ => x
       end.

End Num.
Export Num.

(** 32-bit integers, as the bitwise operators of the language see them. *)
Definition toInt32 (z : Z) : Z := ((z + 2 ^ 31) mod 2 ^ 32 - 2 ^ 31)%Z.
Definition bitand (a b : Z) : Z := Z.land (toInt32 a) (toInt32 b).
Definition bitor (a b : Z) : Z := Z.lor (toInt32 a) (toInt32 b).
Definition bitnot (a : Z) : Z := Z.lnot (toInt32 a).
(** Truthiness of an integer-valued number. *)
Definition truthy (z : Z) : bool := negb (z =? 0)%Z.

(* ===================================================================== *)
(** ** Handles and the native pools ([core/memory-pools]) *)
(* ===================================================================== *)

Definition Ref := positive.

(** A handle is an opaque index into a packed backing store; the null
    handle is the falsy value [0]. *)
Definition Handle := N.
Definition NULL_HANDLE : Handle := 0%N.

Definition isSet (h : Handle) : bool := negb (h =? NULL_HANDLE)%N.

(** Modelled from the spec: the packed handle-array pools
    [ModelArrayPool] and [LightArrayPool] of [core/memory-pools], which
    is not part of the sources at hand.  [alloc] gives a new array handle
    with zero logical length, [free] releases it, [push] appends one
    packed entry, [erase] removes the entry at an index and shifts the
    following entries down, [clear] resets the logical length to zero.
    Every operation on the null handle does nothing. *)
Module HandleArrayPool.

Abbreviation t := (gmap positive (list Handle)).

Definition alloc (p : t) : Handle * t :=
  let k := fresh (dom p) in (Npos k, <[k := []]> p).

Definition free (h : Handle) (p : t) : t :=
  match h with N0 => p | Npos k => delete k p end.

Definition push (h : Handle) (v : Handle) (p : t) : t :=
  match h with N0 => p | Npos k => alter (λ l, l ++ [v]) k p end.

Definition erase (h : Handle) (i : nat) (p : t) : t :=
  match h with N0 => p | Npos k => alter (λ l, delete i l) k p end.

Definition clear (h : Handle) (p : t) : t :=
  match h with N0 => p | Npos k => alter (λ _, []) k p end.

(** The packed entries behind a handle, up to its logical length. *)
Definition entries (h : Handle) (p : t) : option (list Handle) :=
  match h with N0 => None | Npos k => p !! k end.

End HandleArrayPool.

(** The fields of the packed scene record that [RenderScene] writes. *)
Inductive SceneView := MAIN_LIGHT | MODEL_ARRAY | SPOT_LIGHT_ARRAY | SPHERE_LIGHT_ARRAY.

Record SceneRecord := mkSceneRecord {
  rec_mainLight : Handle;
  rec_modelArray : Handle;
  rec_spotLightArray : Handle;
  rec_sphereLightArray : Handle
}.

(** Modelled from the spec: the packed scene-record pool [ScenePool] of
    [core/memory-pools]: [alloc], [free] and [set] of one field. *)
Module ScenePoolM.

Abbreviation t := (gmap positive SceneRecord).

Definition blank : SceneRecord :=
  mkSceneRecord NULL_HANDLE NULL_HANDLE NULL_HANDLE NULL_HANDLE.

Definition alloc (p : t) : Handle * t :=
  let k := fresh (dom p) in (Npos k, <[k := blank]> p).

Definition free (h : Handle) (p : t) : t :=
  match h with N0 => p | Npos k => delete k p end.

Definition setField (v : SceneView) (x : Handle) (r : SceneRecord) : SceneRecord :=
  match v with
  | MAIN_LIGHT => mkSceneRecord x (rec_modelArray r) (rec_spotLightArray r) (rec_sphereLightArray r)
  | MODEL_ARRAY => mkSceneRecord (rec_mainLight r) x (rec_spotLightArray r) (rec_sphereLightArray r)
  | SPOT_LIGHT_ARRAY => mkSceneRecord (rec_mainLight r) (rec_modelArray r) x (rec_sphereLightArray r)
  | SPHERE_LIGHT_ARRAY => mkSceneRecord (rec_mainLight r) (rec_modelArray r) (rec_spotLightArray r) x
  end.

Definition set (h : Handle) (v : SceneView) (x : Handle) (p : t) : t :=
  match h with N0 => p | Npos k => alter (setField v x) k p end.

End ScenePoolM.

(* ===================================================================== *)
(** ** Geometry and scene-graph data *)
(* ===================================================================== *)

Record Vec3 := mkVec3 { v_x : number; v_y : number; v_z : number }.
Record Ray := mkRay { ray_o : Vec3; ray_d : Vec3 }.
Record AABB := mkAABB { center : Vec3; halfExtents : Vec3 }.
(** The scratch triangle of the narrow phase is filled from the vertex
    buffer by computed indices; a read outside the buffer gives
    [undefined], modelled by [None]. *)
Record Vertex := mkVertex { vx : option number; vy : option number; vz : option number }.
Record Triangle := mkTriangle { tri_a : Vertex; tri_b : Vertex; tri_c : Vertex }.
Definition Mat4 := list number.

(** The UI-transform component: [getComputeAABB(out)] fills [out]. *)
Record UITransform := { getComputeAABB : AABB }.

(** A scene-graph node, as far as the render scene reads it.  The
    mutable [hasChangedFlags] is kept in the [World]. *)
#[local] Unset Elimination Schemes.
Inductive Node := mkNode {
  node_ref : Ref;
  layer : Z;
  active : bool;
  uiTransformComp : option UITransform;
  children : list Node;
  worldMatrix : Mat4;
  worldScale : Vec3
}.
#[local] Set Elimination Schemes.

Inductive PrimitiveMode := POINT_LIST | LINE_LIST | TRIANGLE_LIST | TRIANGLE_STRIP | TRIANGLE_FAN.
Inductive ModelType := DEFAULT | SKINNING | BAKED_SKINNING | UI_BATCH | PARTICLE_BATCH | LINE.

Definition PrimitiveMode_eqb (p q : PrimitiveMode) : bool :=
  match p, q with
  | POINT_LIST, POINT_LIST | LINE_LIST, LINE_LIST | TRIANGLE_LIST, TRIANGLE_LIST
  | TRIANGLE_STRIP, TRIANGLE_STRIP | TRIANGLE_FAN, TRIANGLE_FAN => true
  | _, _ => false
  end.

Definition ModelType_eqb (p q : ModelType) : bool :=
  match p, q with
  | DEFAULT, DEFAULT | SKINNING, SKINNING | BAKED_SKINNING, BAKED_SKINNING
  | UI_BATCH, UI_BATCH | PARTICLE_BATCH, PARTICLE_BATCH | LINE, LINE => true
  | _, _ => false
  end.

(** [subMesh.geometricInfo]: [indices] and [doubleSided] are optional in
    the interface and asserted present by the caller ([ib!], [sides!]). *)
Record GeometricInfo := {
  positions : list number;
  indices : list nat;
  doubleSided : bool
}.

Record SubMesh := { geometricInfo : option GeometricInfo; primitiveMode : PrimitiveMode }.
Record SubModel := { subMesh : option SubMesh }.

Record Camera := { cam_ref : Ref }.
Record DirectionalLight := { dl_ref : Ref; dl_handle : Handle; dl_node : option Node }.
Record SphereLight := { pl_ref : Ref; pl_handle : Handle }.
Record SpotLight := { sl_ref : Ref; sl_handle : Handle }.

Record Model := {
  m_ref : Ref;
  m_handle : Handle;
  transform : option Node;
  enabled : bool;
  node : Node;
  worldBounds : option AABB;
  type : ModelType;
  subModels : list SubModel
}.

(** Reference equality of entities. *)
Definition sameRef (r1 r2 : Ref) : bool := bool_decide (r1 = r2).

(* ===================================================================== *)
(** ** The world around a scene *)
(* ===================================================================== *)

(** Modelled from the spec: an entity is attached to a scene between
    [attachToScene] and [detachFromScene]; the entity classes ([Camera],
    the lights, [Model]) are not part of the sources at hand.  The world
    records, per entity kind, which entities are attached, which models
    were destroyed, and the [hasChangedFlags] of every node. *)
Record World := mkWorld {
  ModelArrayPool : gmap positive (list Handle);
  LightArrayPool : gmap positive (list Handle);
  ScenePool : gmap positive SceneRecord;
  attachedCameras : gset Ref;
  attachedDirectionalLights : gset Ref;
  attachedSphereLights : gset Ref;
  attachedSpotLights : gset Ref;
  attachedModels : gset Ref;
  destroyedModels : gset Ref;
  hasChangedFlags : gmap Ref Z
}.

Definition withModelArrayPool (f : gmap positive (list Handle) → gmap positive (list Handle)) (w : World) : World :=
  mkWorld (f (ModelArrayPool w)) (LightArrayPool w) (ScenePool w) (attachedCameras w)
    (attachedDirectionalLights w) (attachedSphereLights w) (attachedSpotLights w)
    (attachedModels w) (destroyedModels w) (hasChangedFlags w).

Definition withLightArrayPool (f : gmap positive (list Handle) → gmap positive (list Handle)) (w : World) : World :=
  mkWorld (ModelArrayPool w) (f (LightArrayPool w)) (ScenePool w) (attachedCameras w)
    (attachedDirectionalLights w) (attachedSphereLights w) (attachedSpotLights w)
    (attachedModels w) (destroyedModels w) (hasChangedFlags w).

Definition withScenePool (f : gmap positive SceneRecord → gmap positive SceneRecord) (w : World) : World :=
  mkWorld (ModelArrayPool w) (LightArrayPool w) (f (ScenePool w)) (attachedCameras w)
    (attachedDirectionalLights w) (attachedSphereLights w) (attachedSpotLights w)
    (attachedModels w) (destroyedModels w) (hasChangedFlags w).

Definition withAttachedCameras (f : gset Ref → gset Ref) (w : World) : World :=
  mkWorld (ModelArrayPool w) (LightArrayPool w) (ScenePool w) (f (attachedCameras w))
    (attachedDirectionalLights w) (attachedSphereLights w) (attachedSpotLights w)
    (attachedModels w) (destroyedModels w) (hasChangedFlags w).

Definition withAttachedDirectionalLights (f : gset Ref → gset Ref) (w : World) : World :=
  mkWorld (ModelArrayPool w) (LightArrayPool w) (ScenePool w) (attachedCameras w)
    (f (attachedDirectionalLights w)) (attachedSphereLights w) (attachedSpotLights w)
    (attachedModels w) (destroyedModels w) (hasChangedFlags w).

Definition withAttachedSphereLights (f : gset Ref → gset Ref) (w : World) : World :=
  mkWorld (ModelArrayPool w) (LightArrayPool w) (ScenePool w) (attachedCameras w)
    (attachedDirectionalLights w) (f (attachedSphereLights w)) (attachedSpotLights w)
    (attachedModels w) (destroyedModels w) (hasChangedFlags w).

Definition withAttachedSpotLights (f : gset Ref → gset Ref) (w : World) : World :=
  mkWorld (ModelArrayPool w) (LightArrayPool w) (ScenePool w) (attachedCameras w)
    (attachedDirectionalLights w) (attachedSphereLights w) (f (attachedSpotLights w))
    (attachedModels w) (destroyedModels w) (hasChangedFlags w).

Definition withAttachedModels (f : gset Ref → gset Ref) (w : World) : World :=
  mkWorld (ModelArrayPool w) (LightArrayPool w) (ScenePool w) (attachedCameras w)
    (attachedDirectionalLights w) (attachedSphereLights w) (attachedSpotLights w)
    (f (attachedModels w)) (destroyedModels w) (hasChangedFlags w).

Definition withDestroyedModels (f : gset Ref → gset Ref) (w : World) : World :=
  mkWorld (ModelArrayPool w) (LightArrayPool w) (ScenePool w) (attachedCameras w)
    (attachedDirectionalLights w) (attachedSphereLights w) (attachedSpotLights w)
    (attachedModels w) (f (destroyedModels w)) (hasChangedFlags w).

Definition withHasChangedFlags (f : gmap Ref Z → gmap Ref Z) (w : World) : World :=
  mkWorld (ModelArrayPool w) (LightArrayPool w) (ScenePool w) (attachedCameras w)
    (attachedDirectionalLights w) (attachedSphereLights w) (attachedSpotLights w)
    (attachedModels w) (destroyedModels w) (f (hasChangedFlags w)).

Definition emptyWorld : World := mkWorld ∅ ∅ ∅ ∅ ∅ ∅ ∅ ∅ ∅ ∅.

(** [TransformBit.ROTATION] of [scene-graph/node-enum]. *)
Definition TransformBit_ROTATION : Z := Z.shiftl 1 1.

(** [node.hasChangedFlags |= bit]; a node never written has flags [0]. *)
Definition orChangedFlags (n : Node) (bit : Z) (w : World) : World :=
  withHasChangedFlags
    (λ fl, <[node_ref n := bitor (default 0%Z (fl !! node_ref n)) bit]> fl) w.

(* ===================================================================== *)
(** ** The scene and its bookkeeping methods *)
(* ===================================================================== *)

Record RenderScene := mkRenderScene {
  _name : string;
  _cameras : list Camera;
  _models : list Model;
  _directionalLights : list DirectionalLight;
  _sphereLights : list SphereLight;
  _spotLights : list SpotLight;
  _mainLight : option DirectionalLight;
  _modelId : Z;
  _scenePoolHandle : Handle;
  _modelArrayHandle : Handle;
  _sphereLightsHandle : Handle;
  _spotLightsHandle : Handle
}.

Definition State := (RenderScene * World)%type.

Definition setCameras (l : list Camera) (s : RenderScene) : RenderScene :=
  mkRenderScene (_name s) l (_models s) (_directionalLights s) (_sphereLights s) (_spotLights s)
    (_mainLight s) (_modelId s) (_scenePoolHandle s) (_modelArrayHandle s)
    (_sphereLightsHandle s) (_spotLightsHandle s).

Definition setModels (l : list Model) (s : RenderScene) : RenderScene :=
  mkRenderScene (_name s) (_cameras s) l (_directionalLights s) (_sphereLights s) (_spotLights s)
    (_mainLight s) (_modelId s) (_scenePoolHandle s) (_modelArrayHandle s)
    (_sphereLightsHandle s) (_spotLightsHandle s).

Definition setDirectionalLights (l : list DirectionalLight) (s : RenderScene) : RenderScene :=
  mkRenderScene (_name s) (_cameras s) (_models s) l (_sphereLights s) (_spotLights s)
    (_mainLight s) (_modelId s) (_scenePoolHandle s) (_modelArrayHandle s)
    (_sphereLightsHandle s) (_spotLightsHandle s).

Definition setSphereLights (l : list SphereLight) (s : RenderScene) : RenderScene :=
  mkRenderScene (_name s) (_cameras s) (_models s) (_directionalLights s) l (_spotLights s)
    (_mainLight s) (_modelId s) (_scenePoolHandle s) (_modelArrayHandle s)
    (_sphereLightsHandle s) (_spotLightsHandle s).

Definition setSpotLights (l : list SpotLight) (s : RenderScene) : RenderScene :=
  mkRenderScene (_name s) (_cameras s) (_models s) (_directionalLights s) (_sphereLights s) l
    (_mainLight s) (_modelId s) (_scenePoolHandle s) (_modelArrayHandle s)
    (_sphereLightsHandle s) (_spotLightsHandle s).

Definition setMainLightField (m : option DirectionalLight) (s : RenderScene) : RenderScene :=
  mkRenderScene (_name s) (_cameras s) (_models s) (_directionalLights s) (_sphereLights s)
    (_spotLights s) m (_modelId s) (_scenePoolHandle s) (_modelArrayHandle s)
    (_sphereLightsHandle s) (_spotLightsHandle s).

Definition setName (n : string) (s : RenderScene) : RenderScene :=
  mkRenderScene n (_cameras s) (_models s) (_directionalLights s) (_sphereLights s)
    (_spotLights s) (_mainLight s) (_modelId s) (_scenePoolHandle s) (_modelArrayHandle s)
    (_sphereLightsHandle s) (_spotLightsHandle s).

Definition setModelId (i : Z) (s : RenderScene) : RenderScene :=
  mkRenderScene (_name s) (_cameras s) (_models s) (_directionalLights s) (_sphereLights s)
    (_spotLights s) (_mainLight s) i (_scenePoolHandle s) (_modelArrayHandle s)
    (_sphereLightsHandle s) (_spotLightsHandle s).

Definition setHandles (sc ma sp so : Handle) (s : RenderScene) : RenderScene :=
  mkRenderScene (_name s) (_cameras s) (_models s) (_directionalLights s) (_sphereLights s)
    (_spotLights s) (_mainLight s) (_modelId s) sc ma sp so.

(** The index of the first element of [l] that is the object [r]:
    the search loop shared by the [remove*] methods. *)
Fixpoint indexOfRef {A : Type} (ref : A → Ref) (r : Ref) (l : list A) (i : nat) : option nat :=
  match l with
  | [] => None
  | e :: l' => if sameRef (ref e) r then Some i else indexOfRef ref r l' (S i)
  end.

Definition _createHandles (st : State) : State :=
  let '(s, w) := st in
  if negb (isSet (_modelArrayHandle s)) then
    let '(hm, mp) := HandleArrayPool.alloc (ModelArrayPool w) in
    let w := withModelArrayPool (λ _, mp) w in
    let '(hs, sp) := ScenePoolM.alloc (ScenePool w) in
    let w := withScenePool (λ _, ScenePoolM.set hs MODEL_ARRAY hm sp) w in
    let '(hspot, lp) := HandleArrayPool.alloc (LightArrayPool w) in
    let w := withLightArrayPool (λ _, lp) w in
    let w := withScenePool (ScenePoolM.set hs SPOT_LIGHT_ARRAY hspot) w in
    let '(hsph, lp) := HandleArrayPool.alloc (LightArrayPool w) in
    let w := withLightArrayPool (λ _, lp) w in
    let w := withScenePool (ScenePoolM.set hs SPHERE_LIGHT_ARRAY hsph) w in
    (setHandles hs hm hsph hspot s, w)
  else st.

(** [new RenderScene(root)]: the field initialisers, then [_createHandles]. *)
Definition newRenderScene (w : World) : State :=
  _createHandles
    (mkRenderScene "" [] [] [] [] [] None 0 NULL_HANDLE NULL_HANDLE NULL_HANDLE NULL_HANDLE, w).

Definition initialize (name : string) (st : State) : State * bool :=
  let '(s, w) := st in
  (_createHandles (setName name s, w), true).

Definition addCamera (cam : Camera) (st : State) : State :=
  let '(s, w) := st in
  let w := withAttachedCameras (λ X, {[cam_ref cam]} ∪ X) w in
  (setCameras (_cameras s ++ [cam]) s, w).

Definition removeCamera (camera : Camera) (st : State) : State :=
  let '(s, w) := st in
  match indexOfRef cam_ref (cam_ref camera) (_cameras s) 0 with
  | Some i =>
      let s := setCameras (delete i (_cameras s)) s in
      (s, withAttachedCameras (λ X, X ∖ {[cam_ref camera]}) w)
  | None => st
  end.

Definition removeCameras (st : State) : State :=
  let '(s, w) := st in
  let w := foldl (λ w cam, withAttachedCameras (λ X, X ∖ {[cam_ref cam]}) w) w (_cameras s) in
  (setCameras [] s, w).

Definition setMainLight (dl : DirectionalLight) (st : State) : State :=
  let '(s, w) := st in
  (setMainLightField (Some dl) s,
   withScenePool (ScenePoolM.set (_scenePoolHandle s) MAIN_LIGHT (dl_handle dl)) w).

Definition sameLight (m : option DirectionalLight) (dl : DirectionalLight) : bool :=
  match m with
  | Some l => sameRef (dl_ref l) (dl_ref dl)
  | None => false
  end.

Definition unsetMainLight (dl : DirectionalLight) (st : State) : State :=
  let '(s, w) := st in
  if sameLight (_mainLight s) dl then
    let dlList := _directionalLights s in
    if negb (length dlList =? 0) then
      match dlList !! (length dlList - 1) with
      | Some l =>
          let s := setMainLightField (Some l) s in
          match dl_node l with
          | Some n => (s, orChangedFlags n TransformBit_ROTATION w)
          | None => (s, w)
          end
      | None => st
      end
    else (setMainLightField None s, w)
  else st.

Definition addDirectionalLight (dl : DirectionalLight) (st : State) : State :=
  let '(s, w) := st in
  let w := withAttachedDirectionalLights (λ X, {[dl_ref dl]} ∪ X) w in
  (setDirectionalLights (_directionalLights s ++ [dl]) s, w).

Definition removeDirectionalLight (dl : DirectionalLight) (st : State) : State :=
  let '(s, w) := st in
  match indexOfRef dl_ref (dl_ref dl) (_directionalLights s) 0 with
  | Some i =>
      let w := withAttachedDirectionalLights (λ X, X ∖ {[dl_ref dl]}) w in
      (setDirectionalLights (delete i (_directionalLights s)) s, w)
  | None => st
  end.

Definition addSphereLight (pl : SphereLight) (st : State) : State :=
  let '(s, w) := st in
  let w := withAttachedSphereLights (λ X, {[pl_ref pl]} ∪ X) w in
  let s' := setSphereLights (_sphereLights s ++ [pl]) s in
  (s', withLightArrayPool (HandleArrayPool.push (_sphereLightsHandle s') (pl_handle pl)) w).

Definition removeSphereLight (pl : SphereLight) (st : State) : State :=
  let '(s, w) := st in
  match indexOfRef pl_ref (pl_ref pl) (_sphereLights s) 0 with
  | Some i =>
      let w := withAttachedSphereLights (λ X, X ∖ {[pl_ref pl]}) w in
      let s' := setSphereLights (delete i (_sphereLights s)) s in
      (s', withLightArrayPool (HandleArrayPool.erase (_sphereLightsHandle s') i) w)
  | None => st
  end.

Definition addSpotLight (sl : SpotLight) (st : State) : State :=
  let '(s, w) := st in
  let w := withAttachedSpotLights (λ X, {[sl_ref sl]} ∪ X) w in
  let s' := setSpotLights (_spotLights s ++ [sl]) s in
  (s', withLightArrayPool (HandleArrayPool.push (_spotLightsHandle s') (sl_handle sl)) w).

Definition removeSpotLight (sl : SpotLight) (st : State) : State :=
  let '(s, w) := st in
  match indexOfRef sl_ref (sl_ref sl) (_spotLights s) 0 with
  | Some i =>
      let w := withAttachedSpotLights (λ X, X ∖ {[sl_ref sl]}) w in
      let s' := setSpotLights (delete i (_spotLights s)) s in
      (s', withLightArrayPool (HandleArrayPool.erase (_spotLightsHandle s') i) w)
  | None => st
  end.

Definition removeSphereLights (st : State) : State :=
  let '(s, w) := st in
  let w := foldl (λ w pl, withAttachedSphereLights (λ X, X ∖ {[pl_ref pl]}) w) w (_sphereLights s) in
  let s' := setSphereLights [] s in
  (s', withLightArrayPool (HandleArrayPool.clear (_sphereLightsHandle s')) w).

Definition removeSpotLights (st : State) : State :=
  let '(s, w) := st in
  let w := foldl (λ w sl, withAttachedSpotLights (λ X, X ∖ {[sl_ref sl]}) w) w (_spotLights s) in
  let s' := setSpotLights [] s in
  (s', withLightArrayPool (HandleArrayPool.clear (_spotLightsHandle s')) w).

Definition addModel (m : Model) (st : State) : State :=
  let '(s, w) := st in
  let w := withAttachedModels (λ X, {[m_ref m]} ∪ X) w in
  let s' := setModels (_models s ++ [m]) s in
  (s', withModelArrayPool (HandleArrayPool.push (_modelArrayHandle s') (m_handle m)) w).

Definition removeModel (model : Model) (st : State) : State :=
  let '(s, w) := st in
  match indexOfRef m_ref (m_ref model) (_models s) 0 with
  | Some i =>
      let w := withAttachedModels (λ X, X ∖ {[m_ref model]}) w in
      let s' := setModels (delete i (_models s)) s in
      (s', withModelArrayPool (HandleArrayPool.erase (_modelArrayHandle s') i) w)
  | None => st
  end.

Definition removeModels (st : State) : State :=
  let '(s, w) := st in
  let w := foldl (λ w m, withDestroyedModels (λ X, {[m_ref m]} ∪ X)
                           (withAttachedModels (λ X, X ∖ {[m_ref m]}) w)) w (_models s) in
  let s' := setModels [] s in
  (s', withModelArrayPool (HandleArrayPool.clear (_modelArrayHandle s')) w).

Definition generateModelId (st : State) : State * Z :=
  let '(s, w) := st in
  ((setModelId (_modelId s + 1) s, w), _modelId s).

Definition destroy (st : State) : State :=
  let st := removeCameras st in
  let st := removeSphereLights st in
  let st := removeSpotLights st in
  let '(s, w) := removeModels st in
  let '(s, w) :=
    if isSet (_modelArrayHandle s) then
      (setHandles (_scenePoolHandle s) NULL_HANDLE (_sphereLightsHandle s) (_spotLightsHandle s) s,
       withModelArrayPool (HandleArrayPool.free (_modelArrayHandle s)) w)
    else (s, w) in
  let '(s, w) :=
    if isSet (_scenePoolHandle s) then
      (setHandles NULL_HANDLE (_modelArrayHandle s) (_sphereLightsHandle s) (_spotLightsHandle s) s,
       withScenePool (ScenePoolM.free (_scenePoolHandle s)) w)
    else (s, w) in
  let '(s, w) :=
    if isSet (_sphereLightsHandle s) then
      (setHandles (_scenePoolHandle s) (_modelArrayHandle s) NULL_HANDLE (_spotLightsHandle s) s,
       withLightArrayPool (HandleArrayPool.free (_sphereLightsHandle s)) w)
    else (s, w) in
  if isSet (_spotLightsHandle s) then
    (setHandles (_scenePoolHandle s) (_modelArrayHandle s) (_sphereLightsHandle s) NULL_HANDLE s,
     withLightArrayPool (HandleArrayPool.free (_spotLightsHandle s)) w)
  else (s, w).

(* ===================================================================== *)
(** ** Collaborators of the raycast code *)
(* ===================================================================== *)

(** What the raycast code takes from other modules and never defines:
    the build flag of [internal:constants], the layer bits of
    [scene-graph/layers], the intersection routines of [geometry] and the
    vector and matrix routines of [math]. *)
Class Externals := {
  PREVIEW : bool;
  Layers_IGNORE_RAYCAST : Z;
  Layers_DEFAULT : Z;
  Layers_UI_2D : Z;
  intersect_rayAABB : Ray → AABB → number;
  intersect_rayTriangle : Ray → Triangle → bool → number;
  Mat4_invert : Mat4 → Mat4;
  Vec3_transformMat4 : Vec3 → Mat4 → Vec3;
  Vec3_transformMat4Normal : Vec3 → Mat4 → Vec3;
  Vec3_normalize : Vec3 → Vec3;
  Vec3_multiply : Vec3 → Vec3 → Vec3;
  Vec3_length : Vec3 → number
}.

Record IRaycastResult := mkResult { r_node : option Node; r_distance : number }.

(** Modelled from the spec: [RecyclePool] of [memop], which is not part
    of the sources at hand.  [reset] marks the pool logically empty and
    keeps the backing storage; [add] hands out the next slot, doubling
    the backing storage when it is exhausted, and increments the logical
    length.  A slot is referred to by its index in the backing storage,
    which is what makes the slots of one epoch distinct. *)
Module RecyclePool.

Record t := mk { _data : list IRaycastResult; _count : nat }.

Definition fresh_slot : IRaycastResult := mkResult None Infinity.

Definition create (size : nat) : t := mk (replicate size fresh_slot) 0.

Definition length (p : t) : nat := _count p.

Definition reset (p : t) : t := mk (_data p) 0.

Definition resize (size : nat) (p : t) : t :=
  mk (_data p ++ replicate (size - List.length (_data p)) fresh_slot) (_count p).

Definition add (p : t) : nat * t :=
  let p := if List.length (_data p) <=? _count p
           then resize (List.length (_data p) * 2) p else p in
  (_count p, mk (_data p) (S (_count p))).

(** Writing the two fields of the slot [i]. *)
Definition write (i : nat) (r : IRaycastResult) (p : t) : t :=
  mk (<[i := r]> (_data p)) (_count p).

Definition read (i : nat) (p : t) : option IRaycastResult := _data p !! i.

End RecyclePool.

(** A reference to a pooled result record. *)
Inductive ResultRef := InPool (i : nat) | InPoolUI (i : nat).

(** A result array: [None] is a hole. *)
Abbreviation ResultArray := (list (option ResultRef)).

(** [arr[i] = v], which extends the array when [i] is past its end. *)
Definition arraySet (i : nat) (v : ResultRef) (arr : ResultArray) : ResultArray :=
  if i <? length arr then <[i := Some v]> arr
  else arr ++ replicate (i - length arr) None ++ [Some v].

(** [arr.length = n]. *)
Definition setLength (n : nat) (arr : ResultArray) : ResultArray :=
  take n arr ++ replicate (n - length arr) None.

(** [arr[i]] for an index computed as a number. *)
Definition arrayGet {A : Type} (l : list A) (i : Z) : option A :=
  if (i <? 0)%Z then None else l !! Z.to_nat i.

(** The module-level variables of [render-scene.ts].  The scratch
    objects [v3], [m4], [tri] and [aabbUI] are written before every read
    and appear as local bindings.  [console] collects the messages of
    [console.error]; [tested] collects, in order, the triangles handed to
    [intersect.rayTriangle]. *)
Record Globals := mkGlobals {
  modelRay : Ray;
  narrowDis : number;
  pool : RecyclePool.t;
  resultModels : ResultArray;
  poolUI : RecyclePool.t;
  resultCanvas : ResultArray;
  resultAll : ResultArray;
  resultSingleModel : ResultArray;
  console : list string;
  tested : list Triangle
}.

Definition setModelRay (r : Ray) (g : Globals) : Globals :=
  mkGlobals r (narrowDis g) (pool g) (resultModels g) (poolUI g) (resultCanvas g)
    (resultAll g) (resultSingleModel g) (console g) (tested g).
Definition setNarrowDis (n : number) (g : Globals) : Globals :=
  mkGlobals (modelRay g) n (pool g) (resultModels g) (poolUI g) (resultCanvas g)
    (resultAll g) (resultSingleModel g) (console g) (tested g).
Definition setPool (p : RecyclePool.t) (g : Globals) : Globals :=
  mkGlobals (modelRay g) (narrowDis g) p (resultModels g) (poolUI g) (resultCanvas g)
    (resultAll g) (resultSingleModel g) (console g) (tested g).
Definition setResultModels (r : ResultArray) (g : Globals) : Globals :=
  mkGlobals (modelRay g) (narrowDis g) (pool g) r (poolUI g) (resultCanvas g)
    (resultAll g) (resultSingleModel g) (console g) (tested g).
Definition setPoolUI (p : RecyclePool.t) (g : Globals) : Globals :=
  mkGlobals (modelRay g) (narrowDis g) (pool g) (resultModels g) p (resultCanvas g)
    (resultAll g) (resultSingleModel g) (console g) (tested g).
Definition setResultCanvas (r : ResultArray) (g : Globals) : Globals :=
  mkGlobals (modelRay g) (narrowDis g) (pool g) (resultModels g) (poolUI g) r
    (resultAll g) (resultSingleModel g) (console g) (tested g).
Definition setResultAll (r : ResultArray) (g : Globals) : Globals :=
  mkGlobals (modelRay g) (narrowDis g) (pool g) (resultModels g) (poolUI g) (resultCanvas g)
    r (resultSingleModel g) (console g) (tested g).
Definition setResultSingleModel (r : ResultArray) (g : Globals) : Globals :=
  mkGlobals (modelRay g) (narrowDis g) (pool g) (resultModels g) (poolUI g) (resultCanvas g)
    (resultAll g) r (console g) (tested g).
Definition console_error (msg : string) (g : Globals) : Globals :=
  mkGlobals (modelRay g) (narrowDis g) (pool g) (resultModels g) (poolUI g) (resultCanvas g)
    (resultAll g) (resultSingleModel g) (console g ++ [msg]) (tested g).
Definition logTested (t : Triangle) (g : Globals) : Globals :=
  mkGlobals (modelRay g) (narrowDis g) (pool g) (resultModels g) (poolUI g) (resultCanvas g)
    (resultAll g) (resultSingleModel g) (console g) (tested g ++ [t]).

(** The module-level initialisers. *)
Definition initialGlobals : Globals :=
  let zero3 := mkVec3 zero zero zero in
  mkGlobals (mkRay zero3 (mkVec3 zero zero (ofZ (-1) 0))) Infinity
    (RecyclePool.create 8) [] (RecyclePool.create 8) [] [] [] [] [].

(** Reading a result array through its references. *)
Definition deref (g : Globals) (r : option ResultRef) : option IRaycastResult :=
  match r with
  | Some (InPool i) => RecyclePool.read i (pool g)
  | Some (InPoolUI i) => RecyclePool.read i (poolUI g)
  | None => None
  end.

Definition rayResultModels (g : Globals) : list (option IRaycastResult) :=
  deref g <$> resultModels g.
Definition rayResultCanvas (g : Globals) : list (option IRaycastResult) :=
  deref g <$> resultCanvas g.
Definition rayResultAll (g : Globals) : list (option IRaycastResult) :=
  deref g <$> resultAll g.
Definition rayResultSingleModel (g : Globals) : list (option IRaycastResult) :=
  deref g <$> resultSingleModel g.

(* ===================================================================== *)
(** ** Narrow phase *)
(* ===================================================================== *)

(** [for (let j = j0; j < cnt; j += step) body], for [step >= 1]; the
    fuel bounds the number of iterations. *)
Fixpoint forLoop {S : Type} (fuel : nat) (j cnt step : Z) (body : Z → S → S) (s : S) : S :=
  match fuel with
  | 0 => s
  | S fuel' =>
      if (j <? cnt)%Z then forLoop fuel' (j + step)%Z cnt step body (body j s) else s
  end.

(** [ib[j] * 3]; [undefined * 3] is [NaN], which indexes nothing. *)
Definition index3 (ib : list nat) (j : Z) : option Z :=
  (λ i, Z.of_nat i * 3)%Z <$> arrayGet ib j.

(** [Vec3.set(out, vb[i], vb[i + 1], vb[i + 2])]. *)
Definition vertexAt (vb : list number) (i : option Z) : Vertex :=
  match i with
  | Some i => mkVertex (arrayGet vb i) (arrayGet vb (i + 1)) (arrayGet vb (i + 2))
  | None => mkVertex None None None
  end.

Section Raycast.

Context `{E : Externals}.

(** The part of every loop body after the triangle is filled. *)
Definition testTriangle (t : Triangle) (sides : bool) (g : Globals) : Globals :=
  let dist := intersect_rayTriangle (modelRay g) t sides in
  let g := logTested t g in
  if le dist zero || ge dist (narrowDis g) then g
  else setNarrowDis dist g.

Definition narrowphase (vb : list number) (ib : list nat) (pm : PrimitiveMode)
    (sides : bool) (distance : number) (g : Globals) : Globals :=
  let g := setNarrowDis distance g in
  if PrimitiveMode_eqb pm TRIANGLE_LIST then
    let cnt := Z.of_nat (length ib) in
    forLoop (length ib) 0 cnt 3
      (λ j g,
         let i0 := index3 ib j in
         let i1 := index3 ib (j + 1) in
         let i2 := index3 ib (j + 2) in
         let t := mkTriangle (vertexAt vb i0) (vertexAt vb i1) (vertexAt vb i2) in
         testTriangle t sides g) g
  else if PrimitiveMode_eqb pm TRIANGLE_STRIP then
    let cnt := (Z.of_nat (length ib) - 2)%Z in
    snd (forLoop (length ib) 0 cnt 1
      (λ j '(rev, g),
         let i0 := index3 ib (j - rev) in
         let i1 := index3 ib (j + rev + 1) in
         let i2 := index3 ib (j + 2) in
         let t := mkTriangle (vertexAt vb i0) (vertexAt vb i1) (vertexAt vb i2) in
         let rev := bitnot rev in
         (rev, testTriangle t sides g)) (0%Z, g))
  else if PrimitiveMode_eqb pm TRIANGLE_FAN then
    let cnt := (Z.of_nat (length ib) - 1)%Z in
    let i0 := index3 ib 0 in
    let tri_a := vertexAt vb i0 in
    forLoop (length ib) 1 cnt 1
      (λ j g,
         let i1 := index3 ib j in
         let i2 := index3 ib (j + 1) in
         let t := mkTriangle tri_a (vertexAt vb i1) (vertexAt vb i2) in
         testTriangle t sides g) g
  else g.

(* =================================================================== *)
(** ** Raycasting against the models *)
(* =================================================================== *)

(** The default arguments of the four entry points. *)
Definition raycastAll_defaultMask : Z := bitor Layers_DEFAULT Layers_UI_2D.
Definition raycastAllModels_defaultMask : Z := Layers_DEFAULT.
Definition raycastSingleModel_defaultMask : Z := Layers_DEFAULT.
Definition raycastAllCanvas_defaultMask : Z := Layers_UI_2D.
Definition defaultDistance : number := Infinity.

(** [!(m.node.layer & (mask & ~Layers.Enum.IGNORE_RAYCAST))]. *)
Definition modelMaskRejects (m : Model) (mask : Z) : bool :=
  negb (truthy (bitand (layer (node m)) (bitand mask (bitnot Layers_IGNORE_RAYCAST)))).

(** The body of [if (m.type === ModelType.DEFAULT) { ... }]: the ray
    is taken back to model space, every sub-model with geometry goes
    through the narrow phase, and [d] is the least scaled distance. *)
Definition narrowModel (worldRay : Ray) (m : Model) (transform : Node)
    (distance : number) (g : Globals) : Globals * number :=
  let m4 := Mat4_invert (worldMatrix transform) in
  let ro := Vec3_transformMat4 (ray_o worldRay) m4 in
  let rd := Vec3_normalize (Vec3_transformMat4Normal (ray_d worldRay) m4) in
  let g := setModelRay (mkRay ro rd) g in
  foldl
    (λ '(g, d) sub,
       match subMesh sub with
       | Some sm =>
           match geometricInfo sm with
           | Some gi =>
               let g := narrowphase (positions gi) (indices gi) (primitiveMode sm)
                          (doubleSided gi) distance g in
               let v3 := Vec3_multiply (ray_d (modelRay g)) (worldScale transform) in
               (g, Math_min d (mul (narrowDis g) (Vec3_length v3)))
           | None => (g, d)
           end
       | None => (g, d)
       end)
    (g, Infinity) (subModels m).

(** The filter, the broad phase and the narrow phase of one model:
    [None] when the model is skipped, else its distance [d]. *)
Definition modelDistance (worldRay : Ray) (m : Model) (mask : Z) (distance : number)
    (g : Globals) : Globals * option number :=
  match transform m, worldBounds m with
  | Some transform, Some bounds =>
      if negb (enabled m) || modelMaskRejects m mask then (g, None)
      else
        let d := intersect_rayAABB worldRay bounds in
        if le d zero || ge d distance then (g, None)
        else if ModelType_eqb (type m) DEFAULT then
          let '(g, d) := narrowModel worldRay m transform distance g in (g, Some d)
        else (g, Some d)
  | _, _ => (g, None)
  end.

(** [const r = pool.add(); r.node = n; r.distance = d], giving the
    reference [r]. *)
Definition poolRecord (n : Node) (d : number) (g : Globals) : Globals * ResultRef :=
  let '(i, p) := RecyclePool.add (pool g) in
  (setPool (RecyclePool.write i (mkResult (Some n) d) p) g, InPool i).

Definition raycastModelBody (worldRay : Ray) (mask : Z) (distance : number)
    (g : Globals) (m : Model) : Globals :=
  match modelDistance worldRay m mask distance g with
  | (g, None) => g
  | (g, Some d) =>
      if lt d distance then
        let '(g, r) := poolRecord (node m) d g in
        setResultModels (arraySet (RecyclePool.length (pool g) - 1) r (resultModels g)) g
      else g
  end.

Definition raycastAllModels (s : RenderScene) (worldRay : Ray) (mask : Z)
    (distance : number) (g : Globals) : Globals * bool :=
  let g := setPool (RecyclePool.reset (pool g)) g in
  let g := foldl (raycastModelBody worldRay mask distance) g (_models s) in
  let g := setResultModels (setLength (RecyclePool.length (pool g)) (resultModels g)) g in
  (g, 0 <? length (resultModels g)).

(** The text of the development diagnostic of [raycastSingleModel]. *)
Definition nullModelMessage : string := " 检测前请保证 model 不为 null ".

(** The outcome of a call that may throw. *)
Inductive Completion (A : Type) := Normal (v : A) | ThrowTypeError.
Arguments Normal {A} v.
Arguments ThrowTypeError {A}.

(** [model] is [None] for a [null] argument; reading [m.transform]
    of [null] throws a [TypeError]. *)
Definition raycastSingleModel (worldRay : Ray) (model : option Model) (mask : Z)
    (distance : number) (g : Globals) : Globals * Completion bool :=
  let g := if PREVIEW then
             match model with
             | None => console_error nullModelMessage g
             | Some _ => g
             end
           else g in
  let g := setPool (RecyclePool.reset (pool g)) g in
  match model with
  | None => (g, ThrowTypeError)
  | Some m =>
      match modelDistance worldRay m mask distance g with
      | (g, None) => (g, Normal false)
      | (g, Some d) =>
          let g :=
            if lt d distance then
              let '(g, r) := poolRecord (node m) d g in
              setResultSingleModel
                (arraySet (RecyclePool.length (pool g) - 1) r (resultSingleModel g)) g
            else g in
          let g := setResultSingleModel
                     (setLength (RecyclePool.length (pool g)) (resultSingleModel g)) g in
          (g, Normal (0 <? length (resultSingleModel g)))
      end
  end.

(* =================================================================== *)
(** ** Raycasting against the UI nodes *)
(* =================================================================== *)

(** The callers pass a node that is not [null], so the development
    diagnostic of [_raycastUI2DNode] never fires.  The result is the
    pooled record, or [None] for [undefined]. *)
Definition _raycastUI2DNode (worldRay : Ray) (ui2dNode : Node) (mask : Z)
    (distance : number) (g : Globals) : Globals * option ResultRef :=
  match uiTransformComp ui2dNode with
  | None => (g, None)
  | Some uiTransform =>
      if truthy (bitand (layer ui2dNode) Layers_IGNORE_RAYCAST)
         || negb (truthy (bitand (layer ui2dNode) mask))
      then (g, None)
      else
        let aabbUI := getComputeAABB uiTransform in
        let d := intersect_rayAABB worldRay aabbUI in
        if le d zero then (g, None)
        else if lt d distance then
          let '(i, p) := RecyclePool.add (poolUI g) in
          (setPoolUI (RecyclePool.write i (mkResult (Some ui2dNode) d) p) g, Some (InPoolUI i))
        else (g, None)
  end.

Fixpoint _raycastUI2DNodeRecursiveChildren (worldRay : Ray) (parent : Node) (mask : Z)
    (distance : number) (g : Globals) {struct parent} : Globals :=
  let '(g, result) := _raycastUI2DNode worldRay parent mask distance g in
  let g := match result with
           | Some r => setResultCanvas
                         (arraySet (RecyclePool.length (poolUI g) - 1) r (resultCanvas g)) g
           | None => g
           end in
  fold_left
    (λ g node,
       if active node then _raycastUI2DNodeRecursiveChildren worldRay node mask distance g
       else g)
    (children parent) g.

(** [canvasComs] stands for the nodes of the canvas components that
    [getComponentsInChildren] finds in the running scene. *)
Definition raycastAllCanvas (canvasComs : list Node) (worldRay : Ray) (mask : Z)
    (distance : number) (g : Globals) : Globals * bool :=
  let g := setPoolUI (RecyclePool.reset (poolUI g)) g in
  let g := foldl
             (λ g canvasNode,
                if active canvasNode
                then _raycastUI2DNodeRecursiveChildren worldRay canvasNode mask distance g
                else g)
             g canvasComs in
  let g := setResultCanvas (setLength (RecyclePool.length (poolUI g)) (resultCanvas g)) g in
  (g, 0 <? length (resultCanvas g)).

Definition raycastAll (s : RenderScene) (canvasComs : list Node) (worldRay : Ray)
    (mask : Z) (distance : number) (g : Globals) : Globals * bool :=
  let '(g, r_3d) := raycastAllModels s worldRay mask distance g in
  let '(g, r_ui2d) := raycastAllCanvas canvasComs worldRay mask distance g in
  let isHit := r_3d || r_ui2d in
  let g := setResultAll [] g in
  let g := if isHit then setResultAll (resultAll g ++ resultModels g ++ resultCanvas g) g
           else g in
  (g, isHit).

End Raycast.

Arguments Normal {A} v.
Arguments ThrowTypeError {A}.

(* ===================================================================== *)
(** ** The per-frame calls of the scene *)
(* ===================================================================== *)

(** The calls [update] and [onGlobalPipelineStateChanged] make on the
    entities of the scene, by the reference of the entity. *)
Inductive EntityCall :=
  | LightUpdate (light : Ref)
  | ModelUpdateTransform (model : Ref) (stamp : number)
  | ModelUpdateUBOs (model : Ref) (stamp : number)
  | ModelPipelineStateChanged (model : Ref).


Definition onGlobalPipelineStateChanged (s : RenderScene) : list EntityCall :=
  foldl (λ calls m, calls ++ [ModelPipelineStateChanged (m_ref m)]) [] (_models s).

(* ===================================================================== *)
(** * SpriteFrame: a rectangle of a texture and its texture coordinates *)
(* ===================================================================== *)

Module Sprite.

Definition sub (x y : number) : number := SFsub prec emax x y.
Definition div (x y : number) : number := SFdiv prec emax x y.

(** [x === y] on numbers: [+0] and [-0] are equal, [NaN] equals nothing. *)
Definition strictEq (x y : number) : bool := SFeqb x y.

Definition INSET_LEFT : nat := 0.
Definition INSET_TOP : nat := 1.
Definition INSET_RIGHT : nat := 2.
Definition INSET_BOTTOM : nat := 3.

(** [cc.Rect], [cc.Size] and [cc.Vec2], as far as the frame reads them.
    The constructors [cc.rect], [cc.size] and [cc.v2] are not part of
    the sources at hand: [cc.rect(x, y, w, h)], [cc.size(w, h)] and
    [cc.v2(x, y)] are taken to build the object with these fields, and
    [cc.size(size)] and [cc.v2(v)] to copy their argument. *)
Record Rect := mkRect {
  rect_x : number; rect_y : number; rect_width : number; rect_height : number }.
Record Size := mkSize { size_width : number; size_height : number }.
Record Vec2 := mkVec2 { vec_x : number; vec_y : number }.

(** One entry of [uvSliced] and of the scratch array [temp_uvs]. *)
Record UV := mkUV { uv_u : number; uv_v : number }.

(** A [cc.Texture2D], as far as the frame reads it; a falsy [_uuid] is
    the empty string. *)
Record Texture2D := mkTexture {
  tex_width : number; tex_height : number; tex_loaded : bool;
  tex_url : string; tex_uuid : string }.

(** The polygon of a frame.  [nu] and [nv] are the arrays that
    [_deserialize] creates and [_calculateUV] fills. *)
Record Vertices := mkVertices {
  vt_triangles : list number; vt_x : list number; vt_y : list number;
  vt_u : list number; vt_v : list number;
  vt_nu : list number; vt_nv : list number }.

Record SpriteFrame := mkFrame {
  _name : string;
  _rect : option Rect;
  _offset : option Vec2;
  _originalSize : option Size;
  _rotated : bool;
  vertices : option Vertices;
  _capInsets : list number;
  uv : list (option number);
  uvSliced : list UV;
  _texture : option Ref;
  _textureFilename : string;
  _atlasUuid : option string
}.

Definition withName (v : string) (f : SpriteFrame) : SpriteFrame :=
  mkFrame v (_rect f) (_offset f) (_originalSize f) (_rotated f) (vertices f) (_capInsets f)
    (uv f) (uvSliced f) (_texture f) (_textureFilename f) (_atlasUuid f).
Definition withRect (v : option Rect) (f : SpriteFrame) : SpriteFrame :=
  mkFrame (_name f) v (_offset f) (_originalSize f) (_rotated f) (vertices f) (_capInsets f)
    (uv f) (uvSliced f) (_texture f) (_textureFilename f) (_atlasUuid f).
Definition withOffset (v : option Vec2) (f : SpriteFrame) : SpriteFrame :=
  mkFrame (_name f) (_rect f) v (_originalSize f) (_rotated f) (vertices f) (_capInsets f)
    (uv f) (uvSliced f) (_texture f) (_textureFilename f) (_atlasUuid f).
Definition withOriginalSize (v : option Size) (f : SpriteFrame) : SpriteFrame :=
  mkFrame (_name f) (_rect f) (_offset f) v (_rotated f) (vertices f) (_capInsets f)
    (uv f) (uvSliced f) (_texture f) (_textureFilename f) (_atlasUuid f).
Definition withRotated (v : bool) (f : SpriteFrame) : SpriteFrame :=
  mkFrame (_name f) (_rect f) (_offset f) (_originalSize f) v (vertices f) (_capInsets f)
    (uv f) (uvSliced f) (_texture f) (_textureFilename f) (_atlasUuid f).
Definition withVertices (v : option Vertices) (f : SpriteFrame) : SpriteFrame :=
  mkFrame (_name f) (_rect f) (_offset f) (_originalSize f) (_rotated f) v (_capInsets f)
    (uv f) (uvSliced f) (_texture f) (_textureFilename f) (_atlasUuid f).
Definition withCapInsets (v : list number) (f : SpriteFrame) : SpriteFrame :=
  mkFrame (_name f) (_rect f) (_offset f) (_originalSize f) (_rotated f) (vertices f) v
    (uv f) (uvSliced f) (_texture f) (_textureFilename f) (_atlasUuid f).
Definition withUv (v : list (option number)) (f : SpriteFrame) : SpriteFrame :=
  mkFrame (_name f) (_rect f) (_offset f) (_originalSize f) (_rotated f) (vertices f)
    (_capInsets f) v (uvSliced f) (_texture f) (_textureFilename f) (_atlasUuid f).
Definition withUvSliced (v : list UV) (f : SpriteFrame) : SpriteFrame :=
  mkFrame (_name f) (_rect f) (_offset f) (_originalSize f) (_rotated f) (vertices f)
    (_capInsets f) (uv f) v (_texture f) (_textureFilename f) (_atlasUuid f).
Definition withTexture (v : option Ref) (f : SpriteFrame) : SpriteFrame :=
  mkFrame (_name f) (_rect f) (_offset f) (_originalSize f) (_rotated f) (vertices f)
    (_capInsets f) (uv f) (uvSliced f) v (_textureFilename f) (_atlasUuid f).
Definition withTextureFilename (v : string) (f : SpriteFrame) : SpriteFrame :=
  mkFrame (_name f) (_rect f) (_offset f) (_originalSize f) (_rotated f) (vertices f)
    (_capInsets f) (uv f) (uvSliced f) (_texture f) v (_atlasUuid f).
Definition withAtlasUuid (v : option string) (f : SpriteFrame) : SpriteFrame :=
  mkFrame (_name f) (_rect f) (_offset f) (_originalSize f) (_rotated f) (vertices f)
    (_capInsets f) (uv f) (uvSliced f) (_texture f) (_textureFilename f) v.

(** What a method does to its collaborators, in order. *)
Inductive Effect :=
  | ErrorID (id : Z) (what : string) (value limit : number)
  | Emit (event : string)
  | Once (texture : Ref) (event : string)
  | LoadImage (url : string)
  | PostLoadTexture (texture : Ref)
  | PushResult (prop : string) (uuid : string).

(** The collaborators of the module: the build flags, the render type
    of the game, the textures behind their references and the
    functions of [textureUtil] and of the editor. *)
Class Env := {
  CC_EDITOR : bool;
  Editor_isBuilder : bool;
  RENDER_TYPE_CANVAS : bool;
  textureOf : Ref → Texture2D;
  loadImage : string → Ref;
  urlToUuid : string → string;
  compressUuid : string → string
}.

(** ** Methods: a state of the frame and of the effects so far, and a
    completion; the state at a [throw] is the state the caller sees. *)

Definition St : Type := SpriteFrame * list Effect.
Definition M (A : Type) : Type := St → St * Completion A.

#[global] Instance M_ret : MRet M := λ A a s, (s, Normal a).
#[global] Instance M_bind : MBind M := λ A B k m s,
  match m s with
  | (s', Normal a) => k a s'
  | (s', ThrowTypeError) => (s', ThrowTypeError)
  end.

Definition this : M SpriteFrame := λ s, (s, Normal s.1).
Definition modify (g : SpriteFrame → SpriteFrame) : M unit := λ s, ((g s.1, s.2), Normal tt).
Definition effect (e : Effect) : M unit := λ s, ((s.1, s.2 ++ [e]), Normal tt).
Definition throw {A : Type} : M A := λ s, (s, ThrowTypeError).
Definition when (b : bool) (m : M unit) : M unit := if b then m else mret tt.

(** Reading a property of [o], which throws when [o] is [null]. *)
Definition deref {A : Type} (o : option A) : M A :=
  match o with Some a => mret a | None => throw end.

(** [arr[i]] read as a number: [undefined] is [NaN] in arithmetic. *)
Definition numAt (arr : list number) (i : nat) : number := default NaN (arr !! i).

(** [arr[i] = v]: past the end the array is extended. *)
Definition writeAt (i : nat) (v : number) (arr : list (option number)) : list (option number) :=
  if i <? length arr then <[i := Some v]> arr
  else arr ++ replicate (i - length arr) None ++ [Some v].

Section Methods.

Context `{V : Env}.

Definition setRotated (bRotated : bool) : M unit := modify (withRotated bRotated).
Definition setRect (rect : Rect) : M unit := modify (withRect (Some rect)).
Definition setOffset (offsets : Vec2) : M unit :=
  modify (withOffset (Some (mkVec2 (vec_x offsets) (vec_y offsets)))).

(** Both branches leave a size with the two numbers of [size]. *)
Definition setOriginalSize (size : Size) : M unit :=
  f ← this;
  match _originalSize f with
  | None => modify (withOriginalSize (Some (mkSize (size_width size) (size_height size))))
  | Some _ => modify (withOriginalSize (Some (mkSize (size_width size) (size_height size))))
  end.

Definition textureLoaded (f : SpriteFrame) : bool :=
  match _texture f with Some t => tex_loaded (textureOf t) | None => false end.

Definition _checkRect (texture : Ref) : M unit :=
  f ← this;
  rect ← deref (_rect f);
  let maxX := rect_x rect in
  let maxY := rect_y rect in
  let '(maxX, maxY) :=
    if _rotated f then (add maxX (rect_height rect), add maxY (rect_width rect))
    else (add maxX (rect_width rect), add maxY (rect_height rect)) in
  when (gt maxX (tex_width (textureOf texture)))
    (effect (ErrorID 3300 (tex_url (textureOf texture) +:+ "/" +:+ _name f) maxX
               (tex_width (textureOf texture))));;
  when (gt maxY (tex_height (textureOf texture)))
    (effect (ErrorID 3400 (tex_url (textureOf texture) +:+ "/" +:+ _name f) maxY
               (tex_height (textureOf texture)))).

(** The two nested loops over [row] and [col] of [_calculateSlicedUV],
    pushing one entry per pair. *)
Definition pushGrid (entry : nat → nat → UV) (uvSliced : list UV) : list UV :=
  foldl (λ acc row, foldl (λ acc col, acc ++ [entry row col]) acc (seq 0 4)) uvSliced (seq 0 4).

Definition uvAt (temp_uvs : list UV) (i : nat) : UV := default (mkUV NaN NaN) (temp_uvs !! i).

Definition _calculateSlicedUV : M unit :=
  f ← this;
  let rect := _rect f in
  texture ← deref (_texture f);
  let atlasWidth := tex_width (textureOf texture) in
  let atlasHeight := tex_height (textureOf texture) in
  let leftWidth := numAt (_capInsets f) INSET_LEFT in
  let rightWidth := numAt (_capInsets f) INSET_RIGHT in
  rect ← deref rect;
  let centerWidth := sub (sub (rect_width rect) leftWidth) rightWidth in
  let topHeight := numAt (_capInsets f) INSET_TOP in
  let bottomHeight := numAt (_capInsets f) INSET_BOTTOM in
  let centerHeight := sub (sub (rect_height rect) topHeight) bottomHeight in
  modify (withUvSliced []);;
  if _rotated f then
    let temp_uvs :=
      [ mkUV (div (rect_x rect) atlasWidth)
             (div (add (rect_y rect) (rect_width rect)) atlasHeight);
        mkUV (div (add (rect_x rect) bottomHeight) atlasWidth)
             (div (add (add (rect_y rect) leftWidth) centerWidth) atlasHeight);
        mkUV (div (add (add (rect_x rect) bottomHeight) centerHeight) atlasWidth)
             (div (add (rect_y rect) leftWidth) atlasHeight);
        mkUV (div (add (rect_x rect) (rect_height rect)) atlasWidth)
             (div (rect_y rect) atlasHeight) ] in
    modify (λ f, withUvSliced
                   (pushGrid (λ row col, mkUV (uv_u (uvAt temp_uvs row))
                                              (uv_v (uvAt temp_uvs (3 - col))))
                      (uvSliced f)) f)
  else
    let temp_uvs :=
      [ mkUV (div (rect_x rect) atlasWidth)
             (div (add (rect_y rect) (rect_height rect)) atlasHeight);
        mkUV (div (add (rect_x rect) leftWidth) atlasWidth)
             (div (add (add (rect_y rect) topHeight) centerHeight) atlasHeight);
        mkUV (div (add (add (rect_x rect) leftWidth) centerWidth) atlasWidth)
             (div (add (rect_y rect) topHeight) atlasHeight);
        mkUV (div (add (rect_x rect) (rect_width rect)) atlasWidth)
             (div (rect_y rect) atlasHeight) ] in
    modify (λ f, withUvSliced
                   (pushGrid (λ row col, mkUV (uv_u (uvAt temp_uvs col))
                                              (uv_v (uvAt temp_uvs row)))
                      (uvSliced f)) f).

(** [texw === 0 ? 0 : e]: [e] reads [rect] only when it is evaluated. *)
Definition guarded (tex : number) (rect : option Rect) (e : Rect → number) : M number :=
  if strictEq tex zero then mret zero else (r ← deref rect; mret (e r)).

Definition writeUv (vals : list number) : M unit :=
  modify (λ f, withUv (foldl (λ arr iv, writeAt iv.1 iv.2 arr) (uv f)
                         (zip (seq 0 (length vals)) vals)) f).

Definition _calculateUV : M unit :=
  f ← this;
  let rect := _rect f in
  texture ← deref (_texture f);
  let texw := tex_width (textureOf texture) in
  let texh := tex_height (textureOf texture) in
  (if _rotated f then
     l ← guarded texw rect (λ rect, div (rect_x rect) texw);
     r ← guarded texw rect (λ rect, div (add (rect_x rect) (rect_height rect)) texw);
     b ← guarded texh rect (λ rect, div (add (rect_y rect) (rect_width rect)) texh);
     t ← guarded texh rect (λ rect, div (rect_y rect) texh);
     writeUv [l; t; l; b; r; t; r; b]
   else
     l ← guarded texw rect (λ rect, div (rect_x rect) texw);
     r ← guarded texw rect (λ rect, div (add (rect_x rect) (rect_width rect)) texw);
     b ← guarded texh rect (λ rect, div (add (rect_y rect) (rect_height rect)) texh);
     t ← guarded texh rect (λ rect, div (rect_y rect) texh);
     writeUv [l; b; r; b; l; t; r; t]);;
  match vertices f with
  | Some vt =>
      modify (withVertices (Some
        (mkVertices (vt_triangles vt) (vt_x vt) (vt_y vt) (vt_u vt) (vt_v vt)
           ((λ i, div (numAt (vt_u vt) i) texw) <$> seq 0 (length (vt_u vt)))
           ((λ i, div (numAt (vt_v vt) i) texh) <$> seq 0 (length (vt_u vt))))))
  | None => mret tt
  end;;
  _calculateSlicedUV.

Definition _textureLoadedCallback : M unit :=
  f ← this;
  match _texture f with
  | None => mret tt
  | Some texture =>
      let w := tex_width (textureOf texture) in
      let h := tex_height (textureOf texture) in
      when (_rotated f && RENDER_TYPE_CANVAS)
        (modify (withRotated false);;
         setRect (mkRect zero zero w h));;
      f ← this;
      match _rect f with
      | Some _ => _checkRect texture
      | None => setRect (mkRect zero zero w h)
      end;;
      f ← this;
      when (negb (bool_decide (is_Some (_originalSize f)))) (setOriginalSize (mkSize w h));;
      when (negb (bool_decide (is_Some (_offset f)))) (setOffset (mkVec2 zero zero));;
      _calculateUV;;
      effect (Emit "load")
  end.

Definition _refreshTexture (texture : Ref) : M unit :=
  modify (withTexture (Some texture));;
  if tex_loaded (textureOf texture) then _textureLoadedCallback
  else effect (Once texture "load").

Definition _loadTexture : M unit :=
  f ← this;
  if String.eqb (_textureFilename f) "" then mret tt
  else
    effect (LoadImage (_textureFilename f));;
    _refreshTexture (loadImage (_textureFilename f)).

(** The first argument of [setTexture]: a string, a [cc.Texture2D] or
    anything else ([null], say). *)
Inductive TextureArg := TexFile (url : string) | TexObject (texture : Ref) | TexOther.

Definition setTexture (textureOrTextureFile : TextureArg) (rect : option Rect) (rotated : bool)
    (offset : option Vec2) (originalSize : option Size) : M bool :=
  match rect with
  | Some rect => setRect rect
  | None => modify (withRect None)
  end;;
  match offset with
  | Some offset => setOffset offset
  | None => modify (withOffset None)
  end;;
  match originalSize with
  | Some originalSize => setOriginalSize originalSize
  | None => modify (withOriginalSize None)
  end;;
  modify (withRotated (rotated || false));;
  match textureOrTextureFile with
  | TexFile texture =>
      when (negb (String.eqb texture ""))
        (modify (withTextureFilename texture);; _loadTexture)
  | TexObject texture =>
      f ← this;
      when (negb (bool_decide (_texture f = Some texture))) (_refreshTexture texture)
  | TexOther => mret tt
  end;;
  mret true.

Definition ensureLoadTexture : M unit :=
  f ← this;
  match _texture f with
  | Some texture =>
      when (negb (tex_loaded (textureOf texture)))
        (_refreshTexture texture;; effect (PostLoadTexture texture))
  | None =>
      when (negb (String.eqb (_textureFilename f) "")) _loadTexture
  end.

Definition clearTexture : M unit := modify (withTexture None).

(** The frame the constructor starts from. *)
Definition newFrame : SpriteFrame :=
  mkFrame "" None None None false None [zero; zero; zero; zero] [] [] None ""
    (if CC_EDITOR then Some "" else None).

(** [filename] is [None] when the constructor is called without
    arguments. *)
Definition ctor (filename : option TextureArg) (rect : option Rect) (rotated : bool)
    (offset : option Vec2) (originalSize : option Size) : St * Completion unit :=
  match filename with
  | Some filename =>
      (setTexture filename rect rotated offset originalSize;; mret tt) (newFrame, [])
  | None => ((newFrame, []), Normal tt)
  end.

(** [this._texture || this._textureFilename] *)
Definition clone (f : SpriteFrame) : St * Completion unit :=
  ctor (Some (match _texture f with
              | Some texture => TexObject texture
              | None => TexFile (_textureFilename f)
              end))
    (_rect f) (_rotated f) (_offset f) (_originalSize f).

(** The setters of [insetLeft], [insetTop], [insetRight] and
    [insetBottom], by the index they write. *)
Definition setInset (INSET : nat) (value : number) : M unit :=
  modify (λ f, withCapInsets (<[INSET := value]> (_capInsets f)) f);;
  f ← this;
  when (bool_decide (is_Some (_texture f))) _calculateSlicedUV.

Definition getInset (INSET : nat) (f : SpriteFrame) : number := numAt (_capInsets f) INSET.

(** [texture] is [None] for a falsy argument. *)
Definition _textureSetter (texture : option Ref) : M unit :=
  match texture with
  | Some texture =>
      if CC_EDITOR && Editor_isBuilder then modify (withTexture (Some texture))
      else
        f ← this;
        when (negb (bool_decide (_texture f = Some texture))) (_refreshTexture texture);;
        modify (withTextureFilename (tex_url (textureOf texture)))
  | None => mret tt
  end.

(** ** Serialization *)

(** The polygon as it is written out. *)
Record VerticesData := mkVerticesData {
  vd_triangles : list number; vd_x : list number; vd_y : list number;
  vd_u : list number; vd_v : list number }.

(** The serialized frame; [None] is [undefined].  The arrays of
    [rect], [offset] and [originalSize] have the entries the serializer
    writes. *)
Record Data := mkData {
  d_name : string;
  d_texture : option string;
  d_atlas : option string;
  d_rect : option (number * number * number * number);
  d_offset : option (number * number);
  d_originalSize : option (number * number);
  d_rotated : option number;
  d_capInsets : option (list number);
  d_vertices : option VerticesData
}.

(** A falsy string is [undefined] after [uuid || undefined]. *)
Definition truthyString (s : string) : option string :=
  if String.eqb s "" then None else Some s.

(** [_serialize] is a function in editor builds only. *)
Definition _serialize (exporting : bool) (f : SpriteFrame) : option Data :=
  if CC_EDITOR then
    let uuid := match _texture f with
                | Some texture => tex_uuid (textureOf texture)
                | None => ""
                end in
    let uuid := if String.eqb uuid "" then
                  (if String.eqb (_textureFilename f) "" then uuid
                   else urlToUuid (_textureFilename f))
                else uuid in
    let uuid := if negb (String.eqb uuid "") && exporting then compressUuid uuid else uuid in
    Some {|
      d_name := _name f;
      d_texture := truthyString uuid;
      d_atlas := if exporting then None else _atlasUuid f;
      d_rect := (λ r, (rect_x r, rect_y r, rect_width r, rect_height r)) <$> _rect f;
      d_offset := (λ o, (vec_x o, vec_y o)) <$> _offset f;
      d_originalSize := (λ s, (size_width s, size_height s)) <$> _originalSize f;
      d_rotated := if _rotated f then Some (ofZ 1 0) else None;
      d_capInsets := Some (_capInsets f);
      d_vertices := (λ vt, mkVerticesData (vt_triangles vt) (vt_x vt) (vt_y vt) (vt_u vt)
                             (vt_v vt)) <$> vertices f
    |}
  else None.

Definition _deserialize (data : Data) : M unit :=
  match d_rect data with
  | Some (x, y, w, h) => setRect (mkRect x y w h)
  | None => mret tt
  end;;
  match d_offset data with
  | Some (x, y) => setOffset (mkVec2 x y)
  | None => mret tt
  end;;
  match d_originalSize data with
  | Some (w, h) => setOriginalSize (mkSize w h)
  | None => mret tt
  end;;
  modify (withRotated (match d_rotated data with
                       | Some r => strictEq r (ofZ 1 0)
                       | None => false
                       end));;
  modify (withName (d_name data));;
  match d_capInsets data with
  | Some capInsets =>
      modify (λ f, withCapInsets (<[INSET_LEFT := numAt capInsets INSET_LEFT]> (_capInsets f)) f);;
      modify (λ f, withCapInsets (<[INSET_TOP := numAt capInsets INSET_TOP]> (_capInsets f)) f);;
      modify (λ f, withCapInsets (<[INSET_RIGHT := numAt capInsets INSET_RIGHT]> (_capInsets f)) f);;
      modify (λ f, withCapInsets (<[INSET_BOTTOM := numAt capInsets INSET_BOTTOM]> (_capInsets f)) f)
  | None => mret tt
  end;;
  when CC_EDITOR (modify (withAtlasUuid (d_atlas data)));;
  modify (withVertices
            ((λ vd, mkVertices (vd_triangles vd) (vd_x vd) (vd_y vd) (vd_u vd) (vd_v vd) [] [])
               <$> d_vertices data));;
  match d_texture data with
  | Some textureUuid =>
      if String.eqb textureUuid "" then mret tt
      else effect (PushResult "_textureSetter" textureUuid)
  | None => mret tt
  end.

End Methods.

End Sprite.

(* ===================================================================== *)
(** * Specification vocabulary *)
(* ===================================================================== *)

(** ** Packed arrays against logical lists *)

Definition packedModels (st : State) : option (list Handle) :=
  HandleArrayPool.entries (_modelArrayHandle st.1) (ModelArrayPool st.2).
Definition packedSphereLights (st : State) : option (list Handle) :=
  HandleArrayPool.entries (_sphereLightsHandle st.1) (LightArrayPool st.2).
Definition packedSpotLights (st : State) : option (list Handle) :=
  HandleArrayPool.entries (_spotLightsHandle st.1) (LightArrayPool st.2).

(** The packed array exists, has the logical length of the list, and
    holds at every index the handle of the entity at that index. *)
Definition lockStep {A : Type} (handle : A → Handle) (l : list A)
    (packed : option (list Handle)) : Prop :=
  ∃ p, packed = Some p ∧ length p = length l ∧
       ∀ i e, l !! i = Some e → p !! i = Some (handle e).

Definition inLockStep (st : State) : Prop :=
  lockStep m_handle (_models st.1) (packedModels st) ∧
  lockStep pl_handle (_sphereLights st.1) (packedSphereLights st) ∧
  lockStep sl_handle (_spotLights st.1) (packedSpotLights st).

(** The calls that touch a packed array one entity at a time. *)
Inductive ArrayCall :=
| CallAddModel (m : Model)
| CallRemoveModel (m : Model)
| CallAddSphereLight (pl : SphereLight)
| CallRemoveSphereLight (pl : SphereLight)
| CallAddSpotLight (sl : SpotLight)
| CallRemoveSpotLight (sl : SpotLight).

Definition arrayCall (st : State) (c : ArrayCall) : State :=
  match c with
  | CallAddModel m => addModel m st
  | CallRemoveModel m => removeModel m st
  | CallAddSphereLight pl => addSphereLight pl st
  | CallRemoveSphereLight pl => removeSphereLight pl st
  | CallAddSpotLight sl => addSpotLight sl st
  | CallRemoveSpotLight sl => removeSpotLight sl st
  end.

Definition arrayCalls (cs : list ArrayCall) (st : State) : State := foldl arrayCall st cs.

(** The representation invariant behind [inLockStep]: the three handles
    are allocated, the two light arrays are different arrays, and each
    array is the list of handles of its logical list. *)
Definition arraysMirror (st : State) : Prop :=
  ∃ km ksph kspot,
    _modelArrayHandle st.1 = Npos km ∧
    _sphereLightsHandle st.1 = Npos ksph ∧
    _spotLightsHandle st.1 = Npos kspot ∧
    ksph ≠ kspot ∧
    ModelArrayPool st.2 !! km = Some (m_handle <$> _models st.1) ∧
    LightArrayPool st.2 !! ksph = Some (pl_handle <$> _sphereLights st.1) ∧
    LightArrayPool st.2 !! kspot = Some (sl_handle <$> _spotLights st.1).

(** ** The main light *)

(** [dl] is reference-identical to an element of [l]. *)
Definition isListed (dl : DirectionalLight) (l : list DirectionalLight) : bool :=
  existsb (λ l', sameRef (dl_ref l') (dl_ref dl)) l.

(** The main light is null or an element of the directional-light list. *)
Definition mainLightListed (s : RenderScene) : Prop :=
  match _mainLight s with
  | None => True
  | Some l => isListed l (_directionalLights s) = true
  end.

Inductive LightCall :=
| CallSetMainLight (dl : DirectionalLight)
| CallUnsetMainLight (dl : DirectionalLight)
| CallAddDirectionalLight (dl : DirectionalLight)
| CallRemoveDirectionalLight (dl : DirectionalLight).

Definition lightCall (st : State) (c : LightCall) : State :=
  match c with
  | CallSetMainLight dl => setMainLight dl st
  | CallUnsetMainLight dl => unsetMainLight dl st
  | CallAddDirectionalLight dl => addDirectionalLight dl st
  | CallRemoveDirectionalLight dl => removeDirectionalLight dl st
  end.

Definition lightCalls (cs : list LightCall) (st : State) : State := foldl lightCall st cs.

(** How the light components drive the scene: a light is made the main
    light only while it is in the list, and the removal of a light is
    followed at once by [unsetMainLight] of that light. *)
Inductive lightStep : State → State → Prop :=
| step_add dl st : lightStep st (addDirectionalLight dl st)
| step_set dl st :
    isListed dl (_directionalLights st.1) = true → lightStep st (setMainLight dl st)
| step_unset dl st : lightStep st (unsetMainLight dl st)
| step_remove dl st : lightStep st (unsetMainLight dl (removeDirectionalLight dl st)).

(** ** Destruction *)

(** Every entity of the five lists is out of its list and detached. *)
Definition allEntitiesReleased (before after : State) : Prop :=
  _cameras after.1 = [] ∧ _directionalLights after.1 = [] ∧ _sphereLights after.1 = [] ∧
  _spotLights after.1 = [] ∧ _models after.1 = [] ∧
  (∀ e, e ∈ _cameras before.1 → cam_ref e ∉ attachedCameras after.2) ∧
  (∀ e, e ∈ _directionalLights before.1 → dl_ref e ∉ attachedDirectionalLights after.2) ∧
  (∀ e, e ∈ _sphereLights before.1 → pl_ref e ∉ attachedSphereLights after.2) ∧
  (∀ e, e ∈ _spotLights before.1 → sl_ref e ∉ attachedSpotLights after.2) ∧
  (∀ e, e ∈ _models before.1 → m_ref e ∉ attachedModels after.2).

(** The four handles of the scene are null and nothing is stored behind
    the handles it held before. *)
Definition allHandlesReleased (before after : State) : Prop :=
  _modelArrayHandle after.1 = NULL_HANDLE ∧ _scenePoolHandle after.1 = NULL_HANDLE ∧
  _sphereLightsHandle after.1 = NULL_HANDLE ∧ _spotLightsHandle after.1 = NULL_HANDLE ∧
  HandleArrayPool.entries (_modelArrayHandle before.1) (ModelArrayPool after.2) = None ∧
  HandleArrayPool.entries (_sphereLightsHandle before.1) (LightArrayPool after.2) = None ∧
  HandleArrayPool.entries (_spotLightsHandle before.1) (LightArrayPool after.2) = None ∧
  match _scenePoolHandle before.1 with
  | N0 => True
  | Npos k => ScenePool after.2 !! k = None
  end.

(** ** Fixtures *)

Definition plainNode (r : Ref) (l : Z) : Node :=
  mkNode r l true None [] [] (mkVec3 (ofZ 1 0) (ofZ 1 0) (ofZ 1 0)).

Definition lightL1 : DirectionalLight :=
  {| dl_ref := 11%positive; dl_handle := 101%N; dl_node := Some (plainNode 21%positive 0) |}.
Definition lightL2 : DirectionalLight :=
  {| dl_ref := 12%positive; dl_handle := 102%N; dl_node := Some (plainNode 22%positive 0) |}.

(** [detachAll refs X] takes every reference of [refs] out of [X]. *)
Definition detachAll (refs : list Ref) (X : gset Ref) : gset Ref :=
  foldl (λ X r, X ∖ {[r]}) X refs.

Definition markAll (refs : list Ref) (X : gset Ref) : gset Ref :=
  foldl (λ X r, {[r]} ∪ X) X refs.

(** The state that [destroy] leaves, written out field by field. *)
Definition destroyed (st : State) : State :=
  let '(s, w) := st in
  (mkRenderScene (_name s) [] [] (_directionalLights s) [] [] (_mainLight s) (_modelId s)
     NULL_HANDLE NULL_HANDLE NULL_HANDLE NULL_HANDLE,
   mkWorld
     (HandleArrayPool.free (_modelArrayHandle s)
        (HandleArrayPool.clear (_modelArrayHandle s) (ModelArrayPool w)))
     (HandleArrayPool.free (_spotLightsHandle s)
        (HandleArrayPool.free (_sphereLightsHandle s)
           (HandleArrayPool.clear (_spotLightsHandle s)
              (HandleArrayPool.clear (_sphereLightsHandle s) (LightArrayPool w)))))
     (ScenePoolM.free (_scenePoolHandle s) (ScenePool w))
     (detachAll (cam_ref <$> _cameras s) (attachedCameras w))
     (attachedDirectionalLights w)
     (detachAll (pl_ref <$> _sphereLights s) (attachedSphereLights w))
     (detachAll (sl_ref <$> _spotLights s) (attachedSpotLights w))
     (detachAll (m_ref <$> _models s) (attachedModels w))
     (markAll (m_ref <$> _models s) (destroyedModels w))
     (hasChangedFlags w)).

Definition cameraC1 : Camera := {| cam_ref := 31%positive |}.

(** ** The narrow phase as a function of the triangles *)

(** The values [j] of the loop variable of [forLoop], in order. *)
Fixpoint loopIndices (fuel : nat) (j cnt step : Z) : list Z :=
  match fuel with
  | 0 => []
  | S fuel' => if (j <? cnt)%Z then j :: loopIndices fuel' (j + step)%Z cnt step else []
  end.

(** The triangle with the vertex indices [i0], [i1], [i2]. *)
Definition triangleOf (vb : list number) (i0 i1 i2 : nat) : Triangle :=
  mkTriangle (vertexAt vb (Some (Z.of_nat i0 * 3)%Z)) (vertexAt vb (Some (Z.of_nat i1 * 3)%Z))
    (vertexAt vb (Some (Z.of_nat i2 * 3)%Z)).

(** Window [j] of a strip: the indices [ib[j], ib[j+1], ib[j+2]], the
    first two swapped when [j] is odd. *)
Definition stripWindow (vb : list number) (ib : list nat) (j : nat) : Triangle :=
  if Nat.even j
  then triangleOf vb (nth j ib 0) (nth (j + 1) ib 0) (nth (j + 2) ib 0)
  else triangleOf vb (nth (j + 1) ib 0) (nth j ib 0) (nth (j + 2) ib 0).

Definition listTriangle (vb : list number) (ib : list nat) (j : Z) : Triangle :=
  mkTriangle (vertexAt vb (index3 ib j)) (vertexAt vb (index3 ib (j + 1)))
    (vertexAt vb (index3 ib (j + 2))).

Definition fanTriangle (vb : list number) (ib : list nat) (j : Z) : Triangle :=
  mkTriangle (vertexAt vb (index3 ib 0)) (vertexAt vb (index3 ib j))
    (vertexAt vb (index3 ib (j + 1))).

(** The triangles the narrow phase tests, in order. *)
Definition trianglesOf (vb : list number) (ib : list nat) (pm : PrimitiveMode) : list Triangle :=
  match pm with
  | TRIANGLE_LIST =>
      listTriangle vb ib <$> loopIndices (length ib) 0 (Z.of_nat (length ib)) 3
  | TRIANGLE_STRIP => stripWindow vb ib <$> seq 0 (length ib - 2)
  | TRIANGLE_FAN =>
      fanTriangle vb ib <$> loopIndices (length ib) 1 (Z.of_nat (length ib) - 1) 1
  | _ => []
  end.

Section RaycastSpec.

Context `{E : Externals}.

(** One step of the running best distance. *)
Definition nearestStep (ray : Ray) (sides : bool) (best : number) (t : Triangle) : number :=
  let dist := intersect_rayTriangle ray t sides in
  if le dist zero || ge dist best then best else dist.

(** The best distance of the narrow phase over a list of triangles,
    starting from the cap. *)
Definition nearest (ray : Ray) (sides : bool) (cap : number) (tris : list Triangle) : number :=
  foldl (nearestStep ray sides) cap tris.

(** The world ray taken to the space of a model. *)
Definition localRay (worldRay : Ray) (transform : Node) : Ray :=
  let m4 := Mat4_invert (worldMatrix transform) in
  mkRay (Vec3_transformMat4 (ray_o worldRay) m4)
    (Vec3_normalize (Vec3_transformMat4Normal (ray_d worldRay) m4)).

(** The length of the local ray direction scaled by the world scale. *)
Definition scaleLength (ray : Ray) (transform : Node) : number :=
  Vec3_length (Vec3_multiply (ray_d ray) (worldScale transform)).

(** The sub-models that have geometry. *)
Definition geometryOf (sub : SubModel) : option (GeometricInfo * PrimitiveMode) :=
  match subMesh sub with
  | Some sm => match geometricInfo sm with
               | Some gi => Some (gi, primitiveMode sm)
               | None => None
               end
  | None => None
  end.

Definition subTriangles (gp : GeometricInfo * PrimitiveMode) : list Triangle :=
  trianglesOf (positions gp.1) (indices gp.1) gp.2.

(** The scaled best distance of one sub-model. *)
Definition subDistance (ray : Ray) (transform : Node) (distance : number)
    (gp : GeometricInfo * PrimitiveMode) : number :=
  mul (nearest ray (doubleSided gp.1) distance (subTriangles gp)) (scaleLength ray transform).

(** The distance the narrow phase gives a model. *)
Definition narrowDistance (worldRay : Ray) (m : Model) (transform : Node)
    (distance : number) : number :=
  foldl Math_min Infinity
    (subDistance (localRay worldRay transform) transform distance
       <$> omap geometryOf (subModels m)).

(** The distance [d] of a model, had it passed the filters. *)
Definition hitDistance (worldRay : Ray) (m : Model) (mask : Z) (distance : number)
    : option number :=
  match transform m, worldBounds m with
  | Some transform, Some bounds =>
      if negb (enabled m) || modelMaskRejects m mask then None
      else
        let d := intersect_rayAABB worldRay bounds in
        if le d zero || ge d distance then None
        else if ModelType_eqb (type m) DEFAULT
             then Some (narrowDistance worldRay m transform distance)
             else Some d
  | _, _ => None
  end.

(** The result a model contributes to a query, if any. *)
Definition hitOf (worldRay : Ray) (mask : Z) (distance : number) (m : Model)
    : option IRaycastResult :=
  match hitDistance worldRay m mask distance with
  | Some d => if lt d distance then Some (mkResult (Some (node m)) d) else None
  | None => None
  end.

(** The fields of the globals that hold results. *)
Definition resultState (g : Globals) :=
  (pool g, resultModels g, poolUI g, resultCanvas g, resultAll g, resultSingleModel g,
   console g).

End RaycastSpec.

(** ** Results of a query *)

(** The result pools were constructed with room for at least one record
    (the module constructs them with room for eight). *)
Definition wfGlobals (g : Globals) : Prop :=
  0 < length (RecyclePool._data (pool g)) ∧ 0 < length (RecyclePool._data (poolUI g)).

(** The records [rs] are the live records of the model pool, in order,
    and the first entries of [resultModels] refer to them. *)
Definition recorded (arr : ResultArray) (p : RecyclePool.t) (rs : list IRaycastResult) : Prop :=
  RecyclePool._count p = length rs ∧
  0 < length (RecyclePool._data p) ∧
  take (length rs) (RecyclePool._data p) = rs ∧
  take (length rs) arr = (λ i, Some (InPool i)) <$> seq 0 (length rs).

(** ** A test scene *)

(** A stand-in for the geometry and math modules in the examples.  The
    test ray starts at the origin and runs along the first axis; boxes
    and triangles face it squarely, so that the distance to a box or to a
    triangle is the first coordinate of the box centre or of the
    triangle's first vertex; the model matrices are rotation free, so
    that the ray keeps its direction in model space.  The layer bits and
    the vector product and length are the engine's. *)
Definition sceneExternals : Externals := {|
  PREVIEW := true;
  Layers_IGNORE_RAYCAST := Z.shiftl 1 20;
  Layers_DEFAULT := Z.shiftl 1 30;
  Layers_UI_2D := Z.shiftl 1 25;
  intersect_rayAABB := λ _ box, v_x (center box);
  intersect_rayTriangle := λ _ t _, default zero (vx (tri_a t));
  Mat4_invert := λ m, m;
  Vec3_transformMat4 := λ v _, v;
  Vec3_transformMat4Normal := λ v _, v;
  Vec3_normalize := λ v, v;
  Vec3_multiply := λ u v, mkVec3 (mul (v_x u) (v_x v)) (mul (v_y u) (v_y v))
                            (mul (v_z u) (v_z v));
  Vec3_length := λ v, sqrt (add (add (mul (v_x v) (v_x v)) (mul (v_y v) (v_y v)))
                              (mul (v_z v) (v_z v)))
|}.

Definition one : number := ofZ 1 0.
Definition half : number := ofZ 1 (-1).

Definition testRay : Ray := mkRay (mkVec3 zero zero zero) (mkVec3 one zero zero).

(** A box the test ray enters at distance [dist]. *)
Definition boxAt (dist : number) : AABB := mkAABB (mkVec3 dist zero zero) (mkVec3 one one one).

(** A node with a uniform world scale. *)
Definition scaledNode (r : Ref) (l : Z) (s : number) : Node :=
  mkNode r l true None [] [] (mkVec3 s s s).

(** A mesh of triangles that the model-space ray meets at the given
    distances: triangle [k] has the vertices [3k], [3k+1], [3k+2]. *)
Definition meshAt (dists : list number) : SubModel :=
  {| subMesh := Some {|
       geometricInfo := Some {|
         positions := dists ≫= (λ dist, [dist; one; one; dist; zero; one; dist; one; zero]);
         indices := seq 0 (3 * length dists);
         doubleSided := true |};
       primitiveMode := TRIANGLE_LIST |} |}.

Definition testModel (r : Ref) (l : Z) (ty : ModelType) (scale boxDist : number)
    (subs : list SubModel) : Model :=
  {| m_ref := r; m_handle := Npos r; transform := Some (scaledNode r l scale);
     enabled := true; node := scaledNode r l scale; worldBounds := Some (boxAt boxDist);
     type := ty; subModels := subs |}.

Definition sceneOf (ms : list Model) : RenderScene :=
  mkRenderScene "" [] ms [] [] [] None 0 1%N 1%N 1%N 2%N.

Definition two : number := ofZ 2 0.
Definition three : number := ofZ 3 0.
Definition five : number := ofZ 5 0.
Definition ten : number := ofZ 10 0.
Definition twenty : number := ofZ 20 0.
Definition twoAndHalf : number := ofZ 5 (-1).
Definition four : number := ofZ 4 0.
Definition eight : number := ofZ 8 0.

(** The layer bits of the test scene. *)
Definition layerDefault : Z := Z.shiftl 1 30.
Definition layerIgnoreRaycast : Z := Z.shiftl 1 20.

(** A model of a non-default type in the default layer, its box hit at
    distance 3. *)
Definition skinnedModel : Model := testModel 51%positive layerDefault SKINNING one three [].

(** A default model at unit scale with two triangles, at the distances
    5 and 2 along the ray. *)
Definition twoTriangleModel : Model :=
  testModel 52%positive layerDefault DEFAULT one one [meshAt [five; two]].

(** A default model at unit scale with one triangle at distance 10. *)
Definition farTriangleModel : Model :=
  testModel 53%positive layerDefault DEFAULT one one [meshAt [ten]].

(** A default model scaled by one half whose only triangle is at the
    model-space distance 20, that is at the world-space distance 10. *)
Definition halfScaleFarModel : Model :=
  testModel 54%positive layerDefault DEFAULT half one [meshAt [twenty]].

(** A default model scaled by one half whose only triangle is at the
    model-space distance 8, that is at the world-space distance 4. *)
Definition halfScaleNearModel : Model :=
  testModel 58%positive layerDefault DEFAULT half one [meshAt [eight]].

(** A default model scaled by one half whose box the ray enters but none
    of whose triangles it meets: the ray-triangle test answers [0]. *)
Definition halfScaleMissedModel : Model :=
  testModel 55%positive layerDefault DEFAULT half one [meshAt [zero; zero]].

(** A model whose layer carries the default bit and the ignore-raycast
    bit. *)
Definition ignoredModel : Model :=
  testModel 56%positive (Z.lor layerDefault layerIgnoreRaycast) SKINNING one three [].

(** A UI node in the same layer as [ignoredModel], its box hit at
    distance 3. *)
Definition ignoredUINode : Node :=
  mkNode 57%positive (Z.lor layerDefault layerIgnoreRaycast) true
    (Some {| getComputeAABB := boxAt three |}) [] [] (mkVec3 one one one).

(** The triangles of a sub-model, as the narrow phase tests them. *)
Definition meshTriangles (sub : SubModel) : list Triangle :=
  match geometryOf sub with
  | Some gp => subTriangles gp
  | None => []
  end.


(* ===================================================================== *)
(** * Further vocabulary: the remaining methods *)
(* ===================================================================== *)

(** ** Every bookkeeping call but [destroy] *)

Inductive BookkeepingCall :=
| DoAddCamera (cam : Camera)
| DoRemoveCamera (cam : Camera)
| DoRemoveCameras
| DoSetMainLight (dl : DirectionalLight)
| DoUnsetMainLight (dl : DirectionalLight)
| DoAddDirectionalLight (dl : DirectionalLight)
| DoRemoveDirectionalLight (dl : DirectionalLight)
| DoAddSphereLight (pl : SphereLight)
| DoRemoveSphereLight (pl : SphereLight)
| DoRemoveSphereLights
| DoAddSpotLight (sl : SpotLight)
| DoRemoveSpotLight (sl : SpotLight)
| DoRemoveSpotLights
| DoAddModel (m : Model)
| DoRemoveModel (m : Model)
| DoRemoveModels
| DoInitialize (name : string)
| DoGenerateModelId.

Definition bookkeepingCall (st : State) (c : BookkeepingCall) : State :=
  match c with
  | DoAddCamera cam => addCamera cam st
  | DoRemoveCamera cam => removeCamera cam st
  | DoRemoveCameras => removeCameras st
  | DoSetMainLight dl => setMainLight dl st
  | DoUnsetMainLight dl => unsetMainLight dl st
  | DoAddDirectionalLight dl => addDirectionalLight dl st
  | DoRemoveDirectionalLight dl => removeDirectionalLight dl st
  | DoAddSphereLight pl => addSphereLight pl st
  | DoRemoveSphereLight pl => removeSphereLight pl st
  | DoRemoveSphereLights => removeSphereLights st
  | DoAddSpotLight sl => addSpotLight sl st
  | DoRemoveSpotLight sl => removeSpotLight sl st
  | DoRemoveSpotLights => removeSpotLights st
  | DoAddModel m => addModel m st
  | DoRemoveModel m => removeModel m st
  | DoRemoveModels => removeModels st
  | DoInitialize name => (initialize name st).1
  | DoGenerateModelId => (generateModelId st).1
  end.

Definition bookkeepingCalls (cs : list BookkeepingCall) (st : State) : State :=
  foldl bookkeepingCall st cs.

(** No element of [l] is the object [r]. *)
Definition absent {A : Type} (ref : A → Ref) (r : Ref) (l : list A) : Prop :=
  ∀ e, e ∈ l → ref e ≠ r.

(** The record of the scene in the packed scene pool. *)
Definition sceneRecord (st : State) : option SceneRecord :=
  match _scenePoolHandle st.1 with
  | N0 => None
  | Npos k => ScenePool st.2 !! k
  end.

(** Every reference of [X] is that of an element of [l]. *)
Definition listedIn {A : Type} (ref : A → Ref) (X : gset Ref) (l : list A) : Prop :=
  ∀ r, r ∈ X → ∃ e, e ∈ l ∧ ref e = r.

(** Every attached entity of a kind is in the list of that kind. *)
Definition attachedAreListed (st : State) : Prop :=
  listedIn cam_ref (attachedCameras st.2) (_cameras st.1) ∧
  listedIn dl_ref (attachedDirectionalLights st.2) (_directionalLights st.1) ∧
  listedIn pl_ref (attachedSphereLights st.2) (_sphereLights st.1) ∧
  listedIn sl_ref (attachedSpotLights st.2) (_spotLights st.1) ∧
  listedIn m_ref (attachedModels st.2) (_models st.1).

(** The record of the scene names the three packed arrays of the scene. *)
Definition recordNamesArrays (st : State) : Prop :=
  ∃ r, sceneRecord st = Some r ∧
       rec_modelArray r = _modelArrayHandle st.1 ∧
       rec_sphereLightArray r = _sphereLightsHandle st.1 ∧
       rec_spotLightArray r = _spotLightsHandle st.1.

Section QueryVocabulary.

Context `{E : Externals}.

(** The model leaves [raycastSingleModel] at one of its two early
    returns: it has no transform, is disabled, fails the mask, has no
    world bounds, or its box distance is not strictly between [0] and the
    cap. *)
Definition returnsEarly (worldRay : Ray) (m : Model) (mask : Z) (distance : number) : Prop :=
  transform m = None ∨ enabled m = false ∨ modelMaskRejects m mask = true ∨
  worldBounds m = None ∨
  ∃ bounds, worldBounds m = Some bounds ∧
            le (intersect_rayAABB worldRay bounds) zero
            || ge (intersect_rayAABB worldRay bounds) distance = true.

End QueryVocabulary.

(** ** The UI nodes a query reports *)

(** One more than the number of descendants of a node. *)
Fixpoint node_size (n : Node) : nat :=
  S (fold_right (λ c acc, node_size c + acc) 0 (children n)).

(** The live records of the UI pool, with the first entries of
    [resultCanvas] referring to them. *)
Definition recordedUI (arr : ResultArray) (p : RecyclePool.t) (rs : list IRaycastResult) : Prop :=
  RecyclePool._count p = length rs ∧
  0 < length (RecyclePool._data p) ∧
  take (length rs) (RecyclePool._data p) = rs ∧
  take (length rs) arr = (λ i, Some (InPoolUI i)) <$> seq 0 (length rs).

Section CanvasVocabulary.

Context `{E : Externals}.

(** The result one UI node contributes, if any: the node has a UI
    transform, its layer does not carry the ignore-raycast bit and
    shares a bit with the mask, and the distance to its box is positive
    and below the cap. *)
Definition uiHitOf (worldRay : Ray) (mask : Z) (distance : number) (n : Node)
    : option IRaycastResult :=
  match uiTransformComp n with
  | None => None
  | Some uiTransform =>
      if truthy (bitand (layer n) Layers_IGNORE_RAYCAST)
         || negb (truthy (bitand (layer n) mask))
      then None
      else
        let d := intersect_rayAABB worldRay (getComputeAABB uiTransform) in
        if le d zero then None
        else if lt d distance then Some (mkResult (Some n) d) else None
  end.

(** The results of a node and of its descendants, depth first, parents
    before children; the subtree of an inactive child is left out. *)
Fixpoint uiHits (worldRay : Ray) (mask : Z) (distance : number) (n : Node) {struct n}
    : list IRaycastResult :=
  option_list (uiHitOf worldRay mask distance n) ++
  flat_map (λ c, if active c then uiHits worldRay mask distance c else []) (children n).

Definition canvasHits (worldRay : Ray) (mask : Z) (distance : number) (canvasComs : list Node)
    : list IRaycastResult :=
  flat_map (λ c, if active c then uiHits worldRay mask distance c else []) canvasComs.

End CanvasVocabulary.

(** A UI node with a box that the ray of [sceneExternals] enters at
    [dist]. *)
Definition uiNode (r : Ref) (l : Z) (act : bool) (dist : number) (kids : list Node) : Node :=
  mkNode r l act (Some {| getComputeAABB := boxAt dist |}) kids [] (mkVec3 one one one).

(** A canvas: an inactive child with a child of its own, then a child
    in an ignored layer with a child in the default layer. *)
Definition testCanvas : Node :=
  uiNode 60%positive layerDefault true four
    [ uiNode 61%positive layerDefault false two [uiNode 62%positive layerDefault true one []];
      uiNode 63%positive (Z.lor layerDefault layerIgnoreRaycast) true three
        [uiNode 64%positive layerDefault true two []] ].

(** ** Vocabulary of the narrow phase *)

(** The vertex [Vec3.set] leaves when the index is [undefined]. *)
Definition undefinedVertex : Vertex := mkVertex None None None.

(** Triple [i] of a triangle list: the indices [ib[3i], ib[3i+1], ib[3i+2]]. *)
Definition listTriple (vb : list number) (ib : list nat) (i : nat) : Triangle :=
  triangleOf vb (nth (3 * i) ib 0) (nth (3 * i + 1) ib 0) (nth (3 * i + 2) ib 0).

(** What the loop of a triangle list tests after the last full triple,
    when [r] indices are left over. *)
Definition partialTriple (vb : list number) (ib : list nat) (k r : nat) : list Triangle :=
  let v0 := vertexAt vb (Some (Z.of_nat (nth (3 * k) ib 0)%nat * 3)%Z) in
  let v1 := vertexAt vb (Some (Z.of_nat (nth (3 * k + 1) ib 0)%nat * 3)%Z) in
  match r with
  | 0 => []
  | 1 => [mkTriangle v0 undefinedVertex undefinedVertex]
  | _ => [mkTriangle v0 v1 undefinedVertex]
  end.

(** Triangle [k] of a fan: the indices [ib[0], ib[k+1], ib[k+2]]. *)
Definition fanWindow (vb : list number) (ib : list nat) (k : nat) : Triangle :=
  triangleOf vb (nth 0 ib 0) (nth (k + 1) ib 0) (nth (k + 2) ib 0).

(** The number of calls of the ray-triangle test for [n] indices. *)
Definition testCount (pm : PrimitiveMode) (n : nat) : nat :=
  match pm with
  | TRIANGLE_LIST => (n + 2) / 3
  | TRIANGLE_STRIP | TRIANGLE_FAN => n - 2
  | _ => 0
  end.

(** The place of a number other than [NaN] in the order of the
    comparison operators: class, then exponent, then mantissa. *)
Definition orderKey (x : number) : Z * Z * Z :=
  match x with
  | S754_infinity true => (-2, 0, 0)
  | S754_finite true m e => (-1, - e, Zneg m)
  | S754_zero _ | S754_nan => (0, 0, 0)
  | S754_finite false m e => (1, e, Zpos m)
  | S754_infinity false => (2, 0, 0)
  end%Z.

Definition keyCompare (k1 k2 : Z * Z * Z) : comparison :=
  match (k1.1.1 ?= k2.1.1)%Z with
  | Eq => match (k1.1.2 ?= k2.1.2)%Z with
          | Eq => (k1.2 ?= k2.2)%Z
          | c => c
          end
  | c => c
  end.

Definition keyLe (k1 k2 : Z * Z * Z) : Prop :=
  (k1.1.1 < k2.1.1 ∨
   (k1.1.1 = k2.1.1 ∧ (k1.1.2 < k2.1.2 ∨ (k1.1.2 = k2.1.2 ∧ k1.2 ≤ k2.2))))%Z.

Definition keyLt (k1 k2 : Z * Z * Z) : Prop :=
  (k1.1.1 < k2.1.1 ∨
   (k1.1.1 = k2.1.1 ∧ (k1.1.2 < k2.1.2 ∨ (k1.1.2 = k2.1.2 ∧ k1.2 < k2.2))))%Z.

(** ** Vocabulary of the per-frame calls and of the model ids *)

(** The number of [generateModelId] calls in a sequence of calls. *)
Fixpoint generated (cs : list BookkeepingCall) : nat :=
  match cs with
  | [] => 0
  | DoGenerateModelId :: cs => S (generated cs)
  | _ :: cs => generated cs
  end.

(** The entity a call is made on. *)
Definition calledOn (c : EntityCall) : Ref :=
  match c with
  | LightUpdate r | ModelUpdateTransform r _ | ModelUpdateUBOs r _
  | ModelPipelineStateChanged r => r
  end.

(* ===================================================================== *)
(** * Vocabulary of the sprite-frame properties *)
(* ===================================================================== *)

Module SpriteSpec.

Import Sprite.

(** Neither [NaN] nor an infinity. *)
Definition isFinite (x : number) : bool :=
  match x with S754_zero _ | S754_finite _ _ _ => true | _ => false end.

(** The four grid lines of the sliced frame in [u] and in [v], as
    [_calculateSlicedUV] leaves them in [temp_uvs]. *)
Definition gridLines (f : SpriteFrame) (rect : Rect) (tex : Texture2D) : list UV :=
  let atlasWidth := tex_width tex in
  let atlasHeight := tex_height tex in
  let leftWidth := numAt (_capInsets f) INSET_LEFT in
  let rightWidth := numAt (_capInsets f) INSET_RIGHT in
  let centerWidth := sub (sub (rect_width rect) leftWidth) rightWidth in
  let topHeight := numAt (_capInsets f) INSET_TOP in
  let bottomHeight := numAt (_capInsets f) INSET_BOTTOM in
  let centerHeight := sub (sub (rect_height rect) topHeight) bottomHeight in
  if _rotated f then
    [ mkUV (div (rect_x rect) atlasWidth)
           (div (add (rect_y rect) (rect_width rect)) atlasHeight);
      mkUV (div (add (rect_x rect) bottomHeight) atlasWidth)
           (div (add (add (rect_y rect) leftWidth) centerWidth) atlasHeight);
      mkUV (div (add (add (rect_x rect) bottomHeight) centerHeight) atlasWidth)
           (div (add (rect_y rect) leftWidth) atlasHeight);
      mkUV (div (add (rect_x rect) (rect_height rect)) atlasWidth)
           (div (rect_y rect) atlasHeight) ]
  else
    [ mkUV (div (rect_x rect) atlasWidth)
           (div (add (rect_y rect) (rect_height rect)) atlasHeight);
      mkUV (div (add (rect_x rect) leftWidth) atlasWidth)
           (div (add (add (rect_y rect) topHeight) centerHeight) atlasHeight);
      mkUV (div (add (add (rect_x rect) leftWidth) centerWidth) atlasWidth)
           (div (add (rect_y rect) topHeight) atlasHeight);
      mkUV (div (add (rect_x rect) (rect_width rect)) atlasWidth)
           (div (rect_y rect) atlasHeight) ].

(** The sixteen entries of the sliced frame, row by row. *)
Definition slicedGrid (f : SpriteFrame) (rect : Rect) (tex : Texture2D) : list UV :=
  let lines := gridLines f rect tex in
  row ← seq 0 4; col ← seq 0 4;
  [if _rotated f then mkUV (uv_u (uvAt lines row)) (uv_v (uvAt lines (3 - col)))
   else mkUV (uv_u (uvAt lines col)) (uv_v (uvAt lines row))].

(** [texw === 0 ? 0 : e] *)
Definition unlessZero (tex e : number) : number := if strictEq tex zero then zero else e.

(** The eight numbers [_calculateUV] writes into [uv]. *)
Definition uvValues (f : SpriteFrame) (rect : Rect) (tex : Texture2D) : list number :=
  let texw := tex_width tex in
  let texh := tex_height tex in
  let l := unlessZero texw (div (rect_x rect) texw) in
  let t := unlessZero texh (div (rect_y rect) texh) in
  if _rotated f then
    let r := unlessZero texw (div (add (rect_x rect) (rect_height rect)) texw) in
    let b := unlessZero texh (div (add (rect_y rect) (rect_width rect)) texh) in
    [l; t; l; b; r; t; r; b]
  else
    let r := unlessZero texw (div (add (rect_x rect) (rect_width rect)) texw) in
    let b := unlessZero texh (div (add (rect_y rect) (rect_height rect)) texh) in
    [l; b; r; b; l; t; r; t].

(** Writing [vals] into an array from index [0] on. *)
Definition written (vals : list number) (arr : list (option number)) : list (option number) :=
  (Some <$> vals) ++ drop (length vals) arr.

(** The polygon with its normalised coordinates. *)
Definition normalized (tex : Texture2D) (vt : Vertices) : Vertices :=
  mkVertices (vt_triangles vt) (vt_x vt) (vt_y vt) (vt_u vt) (vt_v vt)
    ((λ i, div (numAt (vt_u vt) i) (tex_width tex)) <$> seq 0 (length (vt_u vt)))
    ((λ i, div (numAt (vt_v vt) i) (tex_height tex)) <$> seq 0 (length (vt_u vt))).

(** The frame with the coordinates computed from [rect] and [tex]. *)
Definition computed (f : SpriteFrame) (rect : Rect) (tex : Texture2D) : SpriteFrame :=
  mkFrame (_name f) (_rect f) (_offset f) (_originalSize f) (_rotated f)
    (normalized tex <$> vertices f) (_capInsets f) (written (uvValues f rect tex) (uv f))
    (slicedGrid f rect tex) (_texture f) (_textureFilename f) (_atlasUuid f).

(** The rectangle of the whole texture. *)
Definition fullRect (tex : Texture2D) : Rect := mkRect zero zero (tex_width tex) (tex_height tex).

Definition isErrorID (e : Effect) : Prop := ∃ id what value limit, e = ErrorID id what value limit.

(** What [_checkRect] reports for a rectangle that leaves the texture. *)
Definition checkErrors (f : SpriteFrame) (rect : Rect) (tex : Texture2D) : list Effect :=
  let maxX := add (rect_x rect) (if _rotated f then rect_height rect else rect_width rect) in
  let maxY := add (rect_y rect) (if _rotated f then rect_width rect else rect_height rect) in
  (if gt maxX (tex_width tex)
   then [ErrorID 3300 (tex_url tex +:+ "/" +:+ _name f) maxX (tex_width tex)] else []) ++
  (if gt maxY (tex_height tex)
   then [ErrorID 3400 (tex_url tex +:+ "/" +:+ _name f) maxY (tex_height tex)] else []).

Section Loaded.

Context `{V : Env}.

(** The rectangle of a frame once its texture [tex] is loaded: the
    given one, or the whole texture when none was given or when a
    rotated frame is turned back for the canvas renderer. *)
Definition loadedRect (f : SpriteFrame) (tex : Texture2D) : Rect :=
  if _rotated f && RENDER_TYPE_CANVAS then fullRect tex else default (fullRect tex) (_rect f).

(** The frame once its texture [tex] is loaded. *)
Definition loaded (f : SpriteFrame) (tex : Texture2D) : SpriteFrame :=
  computed
    (mkFrame (_name f) (Some (loadedRect f tex))
       (Some (default (mkVec2 zero zero) (_offset f)))
       (Some (default (mkSize (tex_width tex) (tex_height tex)) (_originalSize f)))
       (if _rotated f && RENDER_TYPE_CANVAS then false else _rotated f)
       (vertices f) (_capInsets f) (uv f) (uvSliced f) (_texture f) (_textureFilename f)
       (_atlasUuid f))
    (loadedRect f tex) tex.

(** What the load of the texture reports: the given rectangle is
    checked, unless the frame is turned back for the canvas renderer. *)
Definition loadErrors (f : SpriteFrame) (tex : Texture2D) : list Effect :=
  if _rotated f && RENDER_TYPE_CANVAS then []
  else match _rect f with Some rect => checkErrors f rect tex | None => [] end.

End Loaded.

(** The frame after the assignments at the head of [setTexture]. *)
Definition assigned (f : SpriteFrame) (rect : option Rect) (rotated : bool)
    (offset : option Vec2) (originalSize : option Size) : SpriteFrame :=
  mkFrame (_name f) rect offset originalSize rotated (vertices f) (_capInsets f) (uv f)
    (uvSliced f) (_texture f) (_textureFilename f) (_atlasUuid f).

Section Refreshed.

Context `{V : Env}.

(** The state after [_refreshTexture]: the coordinates are computed
    at once when the texture is loaded; otherwise the frame waits for
    the texture. *)
Definition refreshed (t : Ref) (s : St) : St :=
  let f := withTexture (Some t) s.1 in
  if tex_loaded (textureOf t)
  then (loaded f (textureOf t), s.2 ++ loadErrors f (textureOf t) ++ [Emit "load"])
  else (f, s.2 ++ [Once t "load"]).

End Refreshed.

(** The corner [k] of the sliced grid is the point of the quad at the
    indices [i] and [i + 1]. *)
Definition cornerAgrees (f : SpriteFrame) (i k : nat) : Prop :=
  ∃ a b, uv f !! i = Some (Some a) ∧ uv f !! (i + 1) = Some (Some b) ∧
         uvSliced f !! k = Some (mkUV a b).

(** ** Fixtures *)

(** An editor build that is not a builder, on the WebGL renderer; the
    texture [1] is loaded and 8 by 4, the texture [2] is not loaded yet,
    the texture [3] is loaded and of size zero; images load as the
    texture [2]. *)
Definition testEnv : Env := {|
  CC_EDITOR := true;
  Editor_isBuilder := false;
  RENDER_TYPE_CANVAS := false;
  textureOf := λ r,
    if (r =? 1)%positive then mkTexture (ofZ 8 0) (ofZ 4 0) true "a.png" "uuid-a"
    else if (r =? 3)%positive then mkTexture zero zero true "c.png" "uuid-c"
    else mkTexture (ofZ 8 0) (ofZ 4 0) false "b.png" "uuid-b";
  loadImage := λ _, 2%positive;
  urlToUuid := λ url, "uuid-of-" +:+ url;
  compressUuid := λ uuid, "c-" +:+ uuid
|}.

(** A frame of the rectangle (2, 1, 4, 2) whose texture is [t]. *)
Definition testFrame (t : Ref) : SpriteFrame :=
  mkFrame "frame" (Some (mkRect (ofZ 2 0) (ofZ 1 0) (ofZ 4 0) (ofZ 2 0))) None None false None
    [ofZ 1 0; ofZ 1 0; ofZ 1 0; ofZ 1 0] [] [] (Some t) "" (Some "").

End SpriteSpec.

(* ===================================================================== *)
(** * Properties *)
(* ===================================================================== *)

(** ** Packed arrays stay in lock-step *)

Lemma lockStep_fmap {A : Type} (handle : A → Handle) (l : list A) :
  lockStep handle l (Some (handle <$> l)).
Proof.
  exists (handle <$> l). split; [done|]. split; [by rewrite length_fmap|].
  intros i e Hi. by rewrite list_lookup_fmap, Hi.
Qed.

Lemma indexOfRef_lt {A : Type} (ref : A → Ref) r (l : list A) i0 i :
  indexOfRef ref r l i0 = Some i → i0 ≤ i < i0 + length l.
Proof.
  revert i0. induction l as [|e l IH]; intros i0; simpl; [done|].
  destruct (sameRef (ref e) r).
  - intros [= <-]. lia.
  - intros H. apply IH in H. lia.
Qed.

(** The search finds an element that is the object looked for. *)
Lemma indexOfRef_Some {A : Type} (ref : A → Ref) r (l : list A) i0 i :
  indexOfRef ref r l i0 = Some i →
  ∃ e, l !! (i - i0) = Some e ∧ ref e = r.
Proof.
  revert i0. induction l as [|e l IH]; intros i0; simpl; [done|].
  unfold sameRef. case_bool_decide as Heq.
  - intros [= <-]. exists e. by rewrite Nat.sub_diag.
  - intros H. pose proof (indexOfRef_lt _ _ _ _ _ H) as Hlt.
    destruct (IH _ H) as (e' & He' & Hr). exists e'. split; [|done].
    replace (i - i0) with (S (i - S i0)) by lia. done.
Qed.

Lemma indexOfRef_None {A : Type} (ref : A → Ref) r (l : list A) i0 :
  indexOfRef ref r l i0 = None → ∀ e, e ∈ l → ref e ≠ r.
Proof.
  revert i0. induction l as [|e l IH]; intros i0; simpl.
  - intros _ e He. by apply elem_of_nil in He.
  - unfold sameRef. case_bool_decide as Heq; [done|].
    intros H e' [->|He']%elem_of_cons; [done|]. by eapply IH.
Qed.

Lemma newRenderScene_mirror w : arraysMirror (newRenderScene w).
Proof.
  unfold newRenderScene, _createHandles, arraysMirror. simpl.
  exists (fresh (dom (ModelArrayPool w))),
         (fresh (dom (<[fresh (dom (LightArrayPool w)) := []]> (LightArrayPool w)))),
         (fresh (dom (LightArrayPool w))).
  simpl. repeat split.
  - intros Heq.
    pose proof (is_fresh (dom (<[fresh (dom (LightArrayPool w)) := []]> (LightArrayPool w)))) as Hf.
    rewrite Heq in Hf at 1. apply Hf. rewrite dom_insert_L. set_solver.
  - apply lookup_insert_eq.
  - apply lookup_insert_eq.
  - rewrite lookup_insert_ne; [apply lookup_insert_eq|].
    intros Heq.
    pose proof (is_fresh (dom (<[fresh (dom (LightArrayPool w)) := []]> (LightArrayPool w)))) as Hf.
    rewrite Heq in Hf at 1. apply Hf. rewrite dom_insert_L. set_solver.
Qed.

Lemma arrayCall_mirror st c : arraysMirror st → arraysMirror (arrayCall st c).
Proof.
  destruct st as [s w].
  intros (km & ksph & kspot & Hm & Hsph & Hspot & Hne & Pm & Psph & Pspot).
  simpl in *.
  destruct c as [m|m|pl|pl|sl|sl]; simpl.
  - exists km, ksph, kspot. simpl. rewrite Hm. simpl.
    repeat split; try done.
    rewrite lookup_alter_eq, Pm. simpl. by rewrite fmap_app.
  - unfold removeModel.
    destruct (indexOfRef m_ref (m_ref m) (_models s) 0) as [i|];
      [|exists km, ksph, kspot; done].
    exists km, ksph, kspot. simpl. rewrite Hm. simpl.
    repeat split; try done.
    rewrite lookup_alter_eq, Pm. simpl. by rewrite list_fmap_delete.
  - exists km, ksph, kspot. simpl. rewrite Hsph. simpl.
    repeat split; try done.
    + rewrite lookup_alter_eq, Psph. simpl. by rewrite fmap_app.
    + by rewrite lookup_alter_ne.
  - unfold removeSphereLight.
    destruct (indexOfRef pl_ref (pl_ref pl) (_sphereLights s) 0) as [i|];
      [|exists km, ksph, kspot; done].
    exists km, ksph, kspot. simpl. rewrite Hsph. simpl.
    repeat split; try done.
    + rewrite lookup_alter_eq, Psph. simpl. by rewrite list_fmap_delete.
    + by rewrite lookup_alter_ne.
  - exists km, ksph, kspot. simpl. rewrite Hspot. simpl.
    repeat split; try done.
    + by rewrite lookup_alter_ne.
    + rewrite lookup_alter_eq, Pspot. simpl. by rewrite fmap_app.
  - unfold removeSpotLight.
    destruct (indexOfRef sl_ref (sl_ref sl) (_spotLights s) 0) as [i|];
      [|exists km, ksph, kspot; done].
    exists km, ksph, kspot. simpl. rewrite Hspot. simpl.
    repeat split; try done.
    + by rewrite lookup_alter_ne.
    + rewrite lookup_alter_eq, Pspot. simpl. by rewrite list_fmap_delete.
Qed.

Lemma arrayCalls_mirror cs st : arraysMirror st → arraysMirror (arrayCalls cs st).
Proof.
  revert st. induction cs as [|c cs IH]; intros st H; simpl; [done|].
  apply IH. by apply arrayCall_mirror.
Qed.

Lemma mirror_inLockStep st : arraysMirror st → inLockStep st.
Proof.
  intros (km & ksph & kspot & Hm & Hsph & Hspot & Hne & Pm & Psph & Pspot).
  unfold inLockStep, packedModels, packedSphereLights, packedSpotLights.
  rewrite Hm, Hsph, Hspot. simpl. rewrite Pm, Psph, Pspot.
  repeat split; apply lockStep_fmap.
Qed.

(** C1. Starting from a newly constructed scene, after any sequence of
    [addModel], [removeModel], [addSphereLight], [removeSphereLight],
    [addSpotLight] and [removeSpotLight] calls each packed array has the
    logical length of its list and holds at every index the handle of the
    entity at that index of the list.  In particular, after
    [addModel(A); addModel(B); removeModel(A)] the packed model array has
    length 1 and its only entry is the handle of [B]. *)
Theorem C1_packed_arrays_in_lock_step :
  (∀ (w : World) (cs : list ArrayCall), inLockStep (arrayCalls cs (newRenderScene w))) ∧
  (∀ (w : World) (A B : Model),
     let st := removeModel A (addModel B (addModel A (newRenderScene w))) in
     _models st.1 = [B] ∧
     ∃ p, packedModels st = Some p ∧ length p = 1 ∧ p = [m_handle B]).
Proof.
  split.
  - intros w cs. apply mirror_inLockStep, arrayCalls_mirror, newRenderScene_mirror.
  - intros w A B st.
    assert (Hmir : arraysMirror st).
    { apply (arrayCalls_mirror [CallAddModel A; CallAddModel B; CallRemoveModel A]
               _ (newRenderScene_mirror w)). }
    assert (Hl : _models st.1 = [B]).
    { subst st. unfold newRenderScene, _createHandles. simpl.
      unfold removeModel. simpl. unfold sameRef. rewrite bool_decide_eq_true_2; done. }
    split; [done|].
    destruct Hmir as (km & ksph & kspot & Hm & _ & _ & _ & Pm & _).
    exists [m_handle B]. unfold packedModels. rewrite Hm. simpl.
    rewrite Pm, Hl. done.
Qed.

(** ** The main light *)

Lemma isListed_app dl l1 l2 : isListed dl (l1 ++ l2) = isListed dl l1 || isListed dl l2.
Proof. unfold isListed. apply existsb_app. Qed.

Lemma isListed_last (l : list DirectionalLight) l' :
  last l = Some l' → isListed l' l = true.
Proof.
  intros H. apply last_Some in H as [l0 ->].
  rewrite isListed_app. simpl. unfold sameRef.
  rewrite bool_decide_eq_true_2 by done. by rewrite orb_true_r.
Qed.

(** Removing the first occurrence of one object keeps every other
    object in the list. *)
Lemma isListed_delete dl l r i :
  indexOfRef dl_ref r l 0 = Some i → dl_ref dl ≠ r →
  isListed dl (delete i l) = isListed dl l.
Proof.
  intros Hi Hne.
  destruct (indexOfRef_Some _ _ _ _ _ Hi) as (e & He & Hr).
  rewrite Nat.sub_0_r in He.
  rewrite <- (take_drop_middle l i e He) at 2.
  rewrite delete_take_drop, !isListed_app. simpl.
  unfold sameRef at 1. rewrite bool_decide_eq_false_2; [done|]. congruence.
Qed.

Lemma lookup_last_length {A : Type} (l : list A) : l !! (length l - 1) = last l.
Proof.
  destruct l as [|e l] using rev_ind; [done|].
  rewrite last_snoc, length_app. simpl.
  rewrite lookup_app_r by lia. by replace (length l + 1 - 1 - length l) with 0 by lia.
Qed.

Lemma sameLight_true m dl :
  sameLight m dl = true ↔ ∃ l, m = Some l ∧ dl_ref l = dl_ref dl.
Proof.
  unfold sameLight, sameRef. destruct m as [l|].
  - rewrite bool_decide_eq_true. split.
    + intros H. by exists l.
    + by intros (l' & [= <-] & H).
  - split; [done|]. by intros (l' & ? & _).
Qed.

(** What [unsetMainLight] leaves in the [mainLight] field. *)
Lemma unsetMainLight_mainLight dl st :
  _mainLight (unsetMainLight dl st).1 =
    if sameLight (_mainLight st.1) dl then last (_directionalLights st.1)
    else _mainLight st.1.
Proof.
  destruct st as [s w]. unfold unsetMainLight. simpl.
  destruct (sameLight (_mainLight s) dl); [|done].
  rewrite lookup_last_length.
  destruct (_directionalLights s) as [|e l] using rev_ind; [done|].
  rewrite length_app, last_snoc. simpl.
  replace (length l + 1 =? 0) with false by (symmetry; apply Nat.eqb_neq; lia).
  simpl. by destruct (dl_node e).
Qed.

Lemma unsetMainLight_directionalLights dl st :
  _directionalLights (unsetMainLight dl st).1 = _directionalLights st.1.
Proof.
  destruct st as [s w]. unfold unsetMainLight. simpl.
  destruct (sameLight (_mainLight s) dl); [|done].
  destruct (negb (length (_directionalLights s) =? 0)); [|done].
  destruct (_directionalLights s !! (length (_directionalLights s) - 1)) as [l|]; [|done].
  by destruct (dl_node l).
Qed.

Lemma unsetMainLight_listed dl st :
  (sameLight (_mainLight st.1) dl = false → mainLightListed st.1) →
  mainLightListed (unsetMainLight dl st).1.
Proof.
  intros H. unfold mainLightListed.
  rewrite unsetMainLight_mainLight, unsetMainLight_directionalLights.
  destruct (sameLight (_mainLight st.1) dl) eqn:Hs.
  - destruct (last (_directionalLights st.1)) as [l|] eqn:Hl; [|done].
    by eapply isListed_last.
  - by apply H.
Qed.

Lemma lightStep_listed st st' :
  lightStep st st' → mainLightListed st.1 → mainLightListed st'.1.
Proof.
  intros Hstep Hinv. destruct Hstep as [dl [s w]|dl [s w] Hin|dl st|dl [s w]].
  - unfold mainLightListed in *. simpl in *.
    destruct (_mainLight s) as [l|]; [|done].
    by rewrite isListed_app, Hinv.
  - done.
  - by apply unsetMainLight_listed.
  - apply unsetMainLight_listed. intros Hs.
    unfold removeDirectionalLight in *. simpl in *.
    destruct (indexOfRef dl_ref (dl_ref dl) (_directionalLights s) 0) as [i|] eqn:Hi;
      [|done].
    unfold mainLightListed in *. simpl in *.
    destruct (_mainLight s) as [l|]; [|done].
    rewrite (isListed_delete l _ _ _ Hi); [done|].
    unfold sameRef in Hs. by apply bool_decide_eq_false in Hs.
Qed.

(** C6 fails as stated: [setMainLight] stores any light, listed or not,
    and [removeDirectionalLight] leaves the main light alone. *)
Lemma C6_counterexample :
  ¬ mainLightListed (lightCalls [CallSetMainLight lightL1] (newRenderScene emptyWorld)).1 ∧
  ¬ mainLightListed
      (lightCalls [CallAddDirectionalLight lightL1; CallSetMainLight lightL1;
                   CallRemoveDirectionalLight lightL1] (newRenderScene emptyWorld)).1.
Proof. split; vm_compute; discriminate. Qed.

(** C6, amended.  When a light is made the main light only while it is
    in the directional-light list and every [removeDirectionalLight(dl)]
    is followed at once by [unsetMainLight(dl)], then after any sequence
    of such calls, of [addDirectionalLight] and of [unsetMainLight] the
    main light is null or reference-identical to an element of the
    directional-light list. *)
Theorem C6_mainLight_listed_under_protocol (w : World) (st : State) :
  rtc lightStep (newRenderScene w) st → mainLightListed st.1.
Proof.
  intros H.
  assert (Hinit : mainLightListed (newRenderScene w).1) by done.
  revert Hinit. induction H as [|st1 st2 st3 Hstep _ IH]; [done|].
  intros Hinv. apply IH. by eapply lightStep_listed.
Qed.

Lemma C6_witness :
  mainLightListed
    (unsetMainLight lightL2 (removeDirectionalLight lightL2
       (setMainLight lightL2 (addDirectionalLight lightL2
          (addDirectionalLight lightL1 (newRenderScene emptyWorld)))))).1.
Proof.
  apply (C6_mainLight_listed_under_protocol emptyWorld).
  eapply rtc_l; [apply (step_add lightL1)|].
  eapply rtc_l; [apply (step_add lightL2)|].
  eapply rtc_l; [apply (step_set lightL2); vm_compute; reflexivity|].
  eapply rtc_l; [apply (step_remove lightL2)|].
  apply rtc_refl.
Defined.

Lemma bitor_ROTATION_set (fl : Z) : Z.testbit (bitor fl TransformBit_ROTATION) 1 = true.
Proof.
  unfold bitor. rewrite Z.lor_spec.
  replace (Z.testbit (toInt32 TransformBit_ROTATION) 1) with true by (by vm_compute).
  apply orb_true_r.
Qed.

(** What [unsetMainLight] does to the world: the rotation bit of the
    node of the light it falls back to. *)
Lemma unsetMainLight_world dl st :
  (unsetMainLight dl st).2 =
    if sameLight (_mainLight st.1) dl then
      match last (_directionalLights st.1) with
      | Some l => match dl_node l with
                  | Some n => orChangedFlags n TransformBit_ROTATION st.2
                  | None => st.2
                  end
      | None => st.2
      end
    else st.2.
Proof.
  destruct st as [s w]. unfold unsetMainLight. simpl.
  destruct (sameLight (_mainLight s) dl); [|done].
  rewrite lookup_last_length.
  destruct (_directionalLights s) as [|e l] using rev_ind; [done|].
  rewrite length_app, last_snoc. simpl.
  replace (length l + 1 =? 0) with false by (symmetry; apply Nat.eqb_neq; lia).
  simpl. by destruct (dl_node e).
Qed.

(** C7 fails as stated: with the lights [L1, L2] in the list and [L2]
    the main light, [unsetMainLight(L2)] falls back to the last element
    of the list, which is [L2] itself, not [L1]. *)
Lemma C7_counterexample :
  let st := setMainLight lightL2 (addDirectionalLight lightL2
              (addDirectionalLight lightL1 (newRenderScene emptyWorld))) in
  _directionalLights st.1 = [lightL1; lightL2] ∧
  _mainLight st.1 = Some lightL2 ∧
  _mainLight (unsetMainLight lightL2 st).1 = Some lightL2 ∧
  _mainLight (unsetMainLight lightL2 st).1 ≠ Some lightL1.
Proof. vm_compute. repeat split; discriminate. Qed.

(** C7, amended.  [unsetMainLight(dl)] leaves the scene and the world
    unchanged when [dl] is not the current main light.  When it is, the
    main light becomes the last element of the directional-light list as
    it is at the call, and the rotation bit of that light's node, if it
    has one, is set in [hasChangedFlags]; it becomes null when the list
    is empty.  In particular, with the lights [L1, L2] in the list and
    [L2] the main light, after [removeDirectionalLight(L2)] and then
    [unsetMainLight(L2)] the main light is [L1], whereas
    [unsetMainLight(L2)] alone leaves [L2], the last element, as the main
    light; with an empty list the main light becomes null. *)
Theorem C7_unsetMainLight_fallback :
  (∀ (st : State) (dl : DirectionalLight),
     sameLight (_mainLight st.1) dl = false → unsetMainLight dl st = st) ∧
  (∀ (st : State) (dl : DirectionalLight),
     sameLight (_mainLight st.1) dl = true →
     match last (_directionalLights st.1) with
     | Some l =>
         _mainLight (unsetMainLight dl st).1 = Some l ∧
         match dl_node l with
         | Some n => ∃ fl, hasChangedFlags (unsetMainLight dl st).2 !! node_ref n = Some fl ∧
                           Z.testbit fl 1 = true
         | None => (unsetMainLight dl st).2 = st.2
         end
     | None => _mainLight (unsetMainLight dl st).1 = None ∧ (unsetMainLight dl st).2 = st.2
     end) ∧
  (∀ (st : State) (L1 L2 : DirectionalLight),
     dl_ref L1 ≠ dl_ref L2 →
     _directionalLights st.1 = [L1; L2] → _mainLight st.1 = Some L2 →
     _mainLight (unsetMainLight L2 (removeDirectionalLight L2 st)).1 = Some L1 ∧
     _mainLight (unsetMainLight L2 st).1 = Some L2) ∧
  (∀ (st : State) (L : DirectionalLight),
     _directionalLights st.1 = [] → _mainLight st.1 = Some L →
     _mainLight (unsetMainLight L st).1 = None).
Proof.
  split; [|split; [|split]].
  - intros [s w] dl H. unfold unsetMainLight. simpl in H. by rewrite H.
  - intros st dl H.
    rewrite unsetMainLight_mainLight, unsetMainLight_world, H.
    destruct (last (_directionalLights st.1)) as [l|]; [|done].
    split; [done|].
    destruct (dl_node l) as [n|]; [|done].
    eexists. split.
    + unfold orChangedFlags. simpl. apply lookup_insert_eq.
    + apply bitor_ROTATION_set.
  - intros st L1 L2 Hne Hlist Hmain. split.
    + rewrite unsetMainLight_mainLight.
      destruct st as [s w]. simpl in *. unfold removeDirectionalLight.
      rewrite Hlist. simpl. unfold sameRef.
      rewrite (bool_decide_eq_false_2 (dl_ref L1 = dl_ref L2)) by done.
      rewrite (bool_decide_eq_true_2 (dl_ref L2 = dl_ref L2)) by done.
      simpl. rewrite Hmain. simpl. unfold sameRef.
      by rewrite bool_decide_eq_true_2.
    + rewrite unsetMainLight_mainLight, Hlist, Hmain. simpl. unfold sameRef.
      by rewrite bool_decide_eq_true_2.
  - intros st L Hlist Hmain.
    rewrite unsetMainLight_mainLight, Hlist, Hmain. simpl. unfold sameRef.
    by rewrite bool_decide_eq_true_2.
Qed.

Lemma C7_witness :
  let st := setMainLight lightL2 (addDirectionalLight lightL2
              (addDirectionalLight lightL1 (newRenderScene emptyWorld))) in
  _mainLight (unsetMainLight lightL2 (removeDirectionalLight lightL2 st)).1 = Some lightL1 ∧
  _mainLight (unsetMainLight lightL2 st).1 = Some lightL2.
Proof.
  intros st.
  apply (proj1 (proj2 (proj2 C7_unsetMainLight_fallback)) st lightL1 lightL2).
  - vm_compute. discriminate.
  - reflexivity.
  - reflexivity.
Defined.

(** ** Destruction *)

Lemma elem_of_detachAll refs X r : r ∈ detachAll refs X ↔ r ∈ X ∧ r ∉ refs.
Proof.
  unfold detachAll. revert X. induction refs as [|r' refs IH]; intros X; simpl.
  - rewrite elem_of_nil. tauto.
  - rewrite IH, elem_of_difference, elem_of_singleton, not_elem_of_cons. tauto.
Qed.

Lemma detachAll_notin refs X r : r ∈ refs → r ∉ detachAll refs X.
Proof. rewrite elem_of_detachAll. tauto. Qed.

Lemma elem_of_markAll refs X r : r ∈ markAll refs X ↔ r ∈ X ∨ r ∈ refs.
Proof.
  unfold markAll. revert X. induction refs as [|r' refs IH]; intros X; simpl.
  - rewrite elem_of_nil. tauto.
  - rewrite IH, elem_of_union, elem_of_singleton, elem_of_cons. tauto.
Qed.

Lemma markAll_in refs X r : r ∈ refs → r ∈ markAll refs X.
Proof. rewrite elem_of_markAll. tauto. Qed.

Lemma foldl_detach_cameras l w :
  foldl (λ w cam, withAttachedCameras (λ X, X ∖ {[cam_ref cam]}) w) w l
  = withAttachedCameras (detachAll (cam_ref <$> l)) w.
Proof.
  revert w. induction l as [|e l IH]; intros w; [by destruct w|].
  simpl. rewrite IH. by destruct w.
Qed.

Lemma foldl_detach_sphereLights l w :
  foldl (λ w pl, withAttachedSphereLights (λ X, X ∖ {[pl_ref pl]}) w) w l
  = withAttachedSphereLights (detachAll (pl_ref <$> l)) w.
Proof.
  revert w. induction l as [|e l IH]; intros w; [by destruct w|].
  simpl. rewrite IH. by destruct w.
Qed.

Lemma foldl_detach_spotLights l w :
  foldl (λ w sl, withAttachedSpotLights (λ X, X ∖ {[sl_ref sl]}) w) w l
  = withAttachedSpotLights (detachAll (sl_ref <$> l)) w.
Proof.
  revert w. induction l as [|e l IH]; intros w; [by destruct w|].
  simpl. rewrite IH. by destruct w.
Qed.

Lemma foldl_destroy_models l w :
  foldl (λ w m, withDestroyedModels (λ X, {[m_ref m]} ∪ X)
                  (withAttachedModels (λ X, X ∖ {[m_ref m]}) w)) w l
  = withDestroyedModels (markAll (m_ref <$> l))
      (withAttachedModels (detachAll (m_ref <$> l)) w).
Proof.
  revert w. induction l as [|e l IH]; intros w; [by destruct w|].
  simpl. rewrite IH. by destruct w.
Qed.

Lemma destroy_destroyed st : destroy st = destroyed st.
Proof.
  destruct st as [[nm cams ms dls pls sls ml mid hs hm hsph hspot] w].
  unfold destroy, destroyed.
  unfold removeCameras, removeSphereLights, removeSpotLights, removeModels.
  rewrite foldl_detach_cameras. simpl.
  rewrite foldl_detach_sphereLights. simpl.
  rewrite foldl_detach_spotLights. simpl.
  rewrite foldl_destroy_models. simpl.
  destruct w, hm, hs, hsph, hspot; reflexivity.
Qed.

Lemma destroyed_idempotent st : destroyed (destroyed st) = destroyed st.
Proof. destruct st as [s w]. reflexivity. Qed.

(** C8 fails as stated: [destroy] never touches the directional lights;
    a directional light stays in the list and attached to the scene. *)
Lemma C8_counterexample :
  let st := addDirectionalLight lightL1 (newRenderScene emptyWorld) in
  ¬ allEntitiesReleased st (destroy st) ∧
  _directionalLights (destroy st).1 = [lightL1] ∧
  dl_ref lightL1 ∈ attachedDirectionalLights (destroy st).2.
Proof.
  intros st. split; [|split].
  - intros (_ & H & _). vm_compute in H. discriminate.
  - reflexivity.
  - rewrite destroy_destroyed. simpl. apply elem_of_union_l, elem_of_singleton. reflexivity.
Qed.

(** C8, amended.  [destroy()] takes every camera, sphere light, spot
    light and model out of its list and detaches it, destroys every
    model, releases the four handles the scene allocated and nulls
    them; and [destroy()] is idempotent: a second call changes nothing,
    neither in the scene nor in the world. *)
Theorem C8_destroy_releases_and_is_idempotent (st : State) :
  (_cameras (destroy st).1 = [] ∧ _sphereLights (destroy st).1 = [] ∧
   _spotLights (destroy st).1 = [] ∧ _models (destroy st).1 = []) ∧
  ((∀ e, e ∈ _cameras st.1 → cam_ref e ∉ attachedCameras (destroy st).2) ∧
   (∀ e, e ∈ _sphereLights st.1 → pl_ref e ∉ attachedSphereLights (destroy st).2) ∧
   (∀ e, e ∈ _spotLights st.1 → sl_ref e ∉ attachedSpotLights (destroy st).2) ∧
   (∀ e, e ∈ _models st.1 →
      (m_ref e ∉ attachedModels (destroy st).2) ∧
      (m_ref e ∈ destroyedModels (destroy st).2))) ∧
  allHandlesReleased st (destroy st) ∧
  destroy (destroy st) = destroy st.
Proof.
  rewrite !destroy_destroyed, destroyed_idempotent.
  destruct st as [s w]. simpl.
  split; [done|]. split; [|split; [|done]].
  - split; [|split; [|split]]; intros e He; [| | |split].
    + apply detachAll_notin, list_elem_of_fmap. by exists e.
    + apply detachAll_notin, list_elem_of_fmap. by exists e.
    + apply detachAll_notin, list_elem_of_fmap. by exists e.
    + apply detachAll_notin, list_elem_of_fmap. by exists e.
    + apply markAll_in, list_elem_of_fmap. by exists e.
  - unfold allHandlesReleased. simpl.
    split; [done|]. split; [done|]. split; [done|]. split; [done|].
    split; [|split; [|split]].
    + destruct (_modelArrayHandle s) as [|k]; [done|]. simpl. apply lookup_delete_eq.
    + destruct (_sphereLightsHandle s) as [|k]; [done|]. simpl.
      destruct (_spotLightsHandle s) as [|k']; simpl.
      * apply lookup_delete_eq.
      * destruct (decide (k' = k)) as [->|Hne]; [apply lookup_delete_eq|].
        rewrite lookup_delete_ne by done. apply lookup_delete_eq.
    + destruct (_spotLightsHandle s) as [|k]; [done|]. simpl. apply lookup_delete_eq.
    + destruct (_scenePoolHandle s) as [|k]; [done|]. simpl. apply lookup_delete_eq.
Qed.

Lemma C8_witness :
  let st := addModel {| m_ref := 41%positive; m_handle := 141%N; transform := None;
                        enabled := true; node := plainNode 42%positive 0;
                        worldBounds := None; type := DEFAULT; subModels := [] |}
              (addCamera cameraC1 (newRenderScene emptyWorld)) in
  cam_ref cameraC1 ∉ attachedCameras (destroy st).2.
Proof.
  intros st.
  apply (proj1 (proj1 (proj2 (C8_destroy_releases_and_is_idempotent st))) cameraC1).
  apply list_elem_of_In. simpl. left. reflexivity.
Defined.

(** ** Comparisons of numbers *)

Lemma SFcompare_antisym (x y : number) :
  SFcompare y x = CompOpp <$> SFcompare x y.
Proof.
  destruct x as [sx|sx| |sx mx ex], y as [sy|sy| |sy my ey]; simpl;
    try (destruct sx; try destruct sy; reflexivity);
    try (destruct sy; reflexivity); try reflexivity.
  f_equal. destruct sx, sy; simpl; try reflexivity.
  - rewrite (Z.compare_antisym ey ex).
    destruct (ey ?= ex)%Z; simpl; try reflexivity.
    rewrite (Pos.compare_cont_antisym mx my Eq). simpl.
    destruct (Pos.compare_cont Eq mx my); reflexivity.
  - rewrite (Z.compare_antisym ey ex).
    destruct (ey ?= ex)%Z; simpl; try reflexivity.
    rewrite (Pos.compare_cont_antisym mx my Eq). simpl.
    destruct (Pos.compare_cont Eq mx my); reflexivity.
Qed.

(** [x < y] excludes [y <= x]. *)
Lemma lt_not_ge (x y : number) : lt x y = true → ge x y = false.
Proof.
  unfold lt, ge, SFltb, SFleb. rewrite (SFcompare_antisym x y).
  destruct (SFcompare x y) as [[]|]; simpl; congruence.
Qed.

Lemma lt_not_le (x y : number) : lt x y = true → le y x = false.
Proof. apply lt_not_ge. Qed.

(** ** The narrow phase, triangle by triangle *)

Lemma forLoop_loopIndices {S : Type} fuel j cnt step (body : Z → S → S) s :
  forLoop fuel j cnt step body s = foldl (λ s j, body j s) s (loopIndices fuel j cnt step).
Proof.
  revert j s. induction fuel as [|fuel IH]; intros j s; simpl; [done|].
  destruct (j <? cnt)%Z; [|done]. simpl. apply IH.
Qed.

(** With a step of one and enough fuel the loop variable takes the
    values [j, j + 1, ..., cnt - 1]. *)
Lemma loopIndices_step1 fuel (j cnt : Z) :
  Z.to_nat (cnt - j) ≤ fuel →
  loopIndices fuel j cnt 1 = (λ k, j + Z.of_nat k)%Z <$> seq 0 (Z.to_nat (cnt - j)).
Proof.
  revert j. induction fuel as [|fuel IH]; intros j Hf; simpl.
  - by replace (Z.to_nat (cnt - j)) with 0 by lia.
  - destruct (Z.ltb_spec j cnt) as [Hlt|Hge].
    + rewrite IH by lia.
      replace (Z.to_nat (cnt - j)) with (S (Z.to_nat (cnt - (j + 1)))) by lia.
      simpl. rewrite Z.add_0_r. f_equal.
      rewrite <- fmap_S_seq, <- list_fmap_compose. apply list_fmap_ext.
      intros _ k _. simpl. lia.
    + by replace (Z.to_nat (cnt - j)) with 0 by lia.
Qed.

(** The fuel never ends a loop whose step is at least one: with
    [cnt - j] units of fuel or more the loop variable takes the same
    values.  The narrow phase gives each of its loops as much fuel as the
    index buffer is long. *)
Lemma loopIndices_enough_fuel fuel fuel' (j cnt step : Z) :
  (1 ≤ step)%Z → Z.to_nat (cnt - j) ≤ fuel → fuel ≤ fuel' →
  loopIndices fuel' j cnt step = loopIndices fuel j cnt step.
Proof.
  intros Hstep. revert fuel' j. induction fuel as [|fuel IH]; intros fuel' j Hf Hle.
  - destruct fuel' as [|fuel']; [done|]. simpl.
    destruct (Z.ltb_spec j cnt); [lia|done].
  - destruct fuel' as [|fuel']; [lia|]. simpl.
    destruct (Z.ltb_spec j cnt); [|done]. f_equal. apply IH; lia.
Qed.

Section RaycastFacts.

Context `{E : Externals}.

Lemma testTriangle_eq t sides g :
  testTriangle t sides g =
    mkGlobals (modelRay g) (nearestStep (modelRay g) sides (narrowDis g) t) (pool g)
      (resultModels g) (poolUI g) (resultCanvas g) (resultAll g) (resultSingleModel g)
      (console g) (tested g ++ [t]).
Proof.
  unfold testTriangle, nearestStep. simpl.
  by destruct (le (intersect_rayTriangle (modelRay g) t sides) zero
               || ge (intersect_rayTriangle (modelRay g) t sides) (narrowDis g)).
Qed.

Lemma foldl_testTriangle sides tris g :
  foldl (λ g t, testTriangle t sides g) g tris =
    mkGlobals (modelRay g) (nearest (modelRay g) sides (narrowDis g) tris) (pool g)
      (resultModels g) (poolUI g) (resultCanvas g) (resultAll g) (resultSingleModel g)
      (console g) (tested g ++ tris).
Proof.
  revert g. induction tris as [|t tris IH]; intros g; simpl.
  - rewrite app_nil_r. by destruct g.
  - rewrite IH, testTriangle_eq. simpl. unfold nearest. simpl.
    by rewrite <- app_assoc.
Qed.

Lemma nth_lookup_index3 (ib : list nat) (j : nat) :
  j < length ib → index3 ib (Z.of_nat j) = Some (Z.of_nat (nth j ib 0%nat) * 3)%Z.
Proof.
  intros Hj. unfold index3, arrayGet.
  destruct (Z.ltb_spec (Z.of_nat j) 0) as [?|_]; [lia|].
  rewrite Nat2Z.id. destruct (nth_lookup_or_length ib j 0) as [->|?]; [done|lia].
Qed.

(** The strip loop, from window [k] on: [rev] is [0] before an even
    window and [-1] before an odd one. *)
Lemma strip_loop_windows vb ib sides (n k : nat) g :
  k + n + 2 ≤ length ib →
  foldl
    (λ (s : Z * Globals) (j : Z),
       let '(rev, g) := s in
       (bitnot rev,
        testTriangle
          (mkTriangle (vertexAt vb (index3 ib (j - rev))) (vertexAt vb (index3 ib (j + rev + 1)))
             (vertexAt vb (index3 ib (j + 2)))) sides g))
    ((if Nat.even k then 0 else -1)%Z, g) (Z.of_nat <$> seq k n)
  = ((if Nat.even (k + n) then 0 else -1)%Z,
     foldl (λ g t, testTriangle t sides g) g (stripWindow vb ib <$> seq k n)).
Proof.
  revert k g. induction n as [|n IH]; intros k g Hlen.
  - simpl. by rewrite Nat.add_0_r.
  - simpl.
    replace (bitnot (if Nat.even k then 0 else -1))%Z
      with (if Nat.even (S k) then 0 else -1)%Z
      by (rewrite Nat.even_succ, <- Nat.negb_even; by destruct (Nat.even k)).
    rewrite IH by lia. replace (S k + n) with (k + S n) by lia. f_equal. f_equal.
    unfold stripWindow, triangleOf.
    destruct (Nat.even k).
    + replace (Z.of_nat k - 0)%Z with (Z.of_nat k) by lia.
      replace (Z.of_nat k + 0 + 1)%Z with (Z.of_nat (k + 1)) by lia.
      replace (Z.of_nat k + 2)%Z with (Z.of_nat (k + 2)) by lia.
      by rewrite !nth_lookup_index3 by lia.
    + replace (Z.of_nat k - -1)%Z with (Z.of_nat (k + 1)) by lia.
      replace (Z.of_nat k + -1 + 1)%Z with (Z.of_nat k) by lia.
      replace (Z.of_nat k + 2)%Z with (Z.of_nat (k + 2)) by lia.
      by rewrite !nth_lookup_index3 by lia.
Qed.

(** The narrow phase tests the triangles of [trianglesOf], one after
    the other, against the model-space ray. *)
Lemma narrowphase_triangles vb ib pm sides distance g :
  narrowphase vb ib pm sides distance g =
    foldl (λ g t, testTriangle t sides g) (setNarrowDis distance g) (trianglesOf vb ib pm).
Proof.
  unfold narrowphase, trianglesOf. destruct pm; simpl; try reflexivity.
  - rewrite forLoop_loopIndices. by rewrite foldl_fmap.
  - rewrite forLoop_loopIndices.
    rewrite loopIndices_step1 by lia.
    replace ((λ k : nat, (0 + Z.of_nat k)%Z)) with Z.of_nat by done.
    replace (Z.to_nat (Z.of_nat (length ib) - 2 - 0)) with (length ib - 2) by lia.
    pose proof (strip_loop_windows vb ib sides (length ib - 2) 0 (setNarrowDis distance g)) as H.
    simpl in H. destruct (decide (2 ≤ length ib)) as [Hl|Hl].
    + rewrite H by lia. done.
    + by replace (length ib - 2) with 0 by lia.
  - rewrite forLoop_loopIndices. by rewrite foldl_fmap.
Qed.

Lemma narrowphase_eq vb ib pm sides distance g :
  narrowphase vb ib pm sides distance g =
    mkGlobals (modelRay g) (nearest (modelRay g) sides distance (trianglesOf vb ib pm))
      (pool g) (resultModels g) (poolUI g) (resultCanvas g) (resultAll g)
      (resultSingleModel g) (console g) (tested g ++ trianglesOf vb ib pm).
Proof. by rewrite narrowphase_triangles, foldl_testTriangle. Qed.

End RaycastFacts.

Lemma app_omap_cons {A B : Type} (f : A → option B) (rs : list B) (e : A) (l : list A) :
  rs ++ omap f (e :: l) = (rs ++ option_list (f e)) ++ omap f l.
Proof. rewrite <- app_assoc. simpl. by destruct (f e). Qed.

Section RaycastResults.

Context `{E : Externals}.

(** C5. For the topology [TRIANGLE_STRIP] and an index buffer of
    length [n], the narrow phase hands to the ray-triangle test exactly
    the windows [j = 0 .. n - 3] in order, each once: window [j] is
    [(ib[j], ib[j+1], ib[j+2])] for even [j] and
    [(ib[j+1], ib[j], ib[j+2])] for odd [j]; each is tested against the
    model-space ray, the best distance being the running minimum over
    them. *)
Theorem C5_strip_sliding_windows
    (vb : list number) (ib : list nat) (sides : bool) (distance : number) (g : Globals) :
  tested (narrowphase vb ib TRIANGLE_STRIP sides distance g)
    = tested g ++ (stripWindow vb ib <$> seq 0 (length ib - 2)) ∧
  narrowDis (narrowphase vb ib TRIANGLE_STRIP sides distance g)
    = nearest (modelRay g) sides distance (stripWindow vb ib <$> seq 0 (length ib - 2)).
Proof. rewrite narrowphase_eq. simpl. done. Qed.

(** *** The narrow phase of a model *)

Lemma narrowModel_fold ray transform distance subs g d :
  modelRay g = ray →
  ∃ g',
    foldl
      (λ '(g, d) sub,
         match subMesh sub with
         | Some sm =>
             match geometricInfo sm with
             | Some gi =>
                 let g := narrowphase (positions gi) (indices gi) (primitiveMode sm)
                            (doubleSided gi) distance g in
                 let v3 := Vec3_multiply (ray_d (modelRay g)) (worldScale transform) in
                 (g, Math_min d (mul (narrowDis g) (Vec3_length v3)))
             | None => (g, d)
             end
         | None => (g, d)
         end)
      (g, d) subs
    = (g', foldl Math_min d (subDistance ray transform distance <$> omap geometryOf subs)) ∧
    modelRay g' = ray ∧ resultState g' = resultState g ∧
    tested g' = tested g ++ (omap geometryOf subs ≫= subTriangles).
Proof.
  intros Hray. revert g d Hray. induction subs as [|sub subs IH]; intros g d Hray.
  - exists g. simpl. by rewrite app_nil_r.
  - change (omap geometryOf (sub :: subs))
      with (match geometryOf sub with
            | Some y => y :: omap geometryOf subs
            | None => omap geometryOf subs
            end).
    cbn [foldl].
    destruct (subMesh sub) as [sm|] eqn:Hsm;
      [destruct (geometricInfo sm) as [gi|] eqn:Hgi|].
    + assert (Hgeo : geometryOf sub = Some (gi, primitiveMode sm))
        by (unfold geometryOf; by rewrite Hsm, Hgi).
      rewrite Hgeo, narrowphase_eq. cbn [modelRay narrowDis].
      edestruct IH as (g' & Heq & Hr & Hres & Ht); [|rewrite Heq]; [simpl; exact Hray|].
      exists g'. split; [|split; [done|split; [done|]]].
      * unfold subDistance, scaleLength, subTriangles. simpl. by rewrite Hray.
      * rewrite Ht. simpl. by rewrite <- app_assoc.
    + assert (Hgeo : geometryOf sub = None) by (unfold geometryOf; by rewrite Hsm, Hgi).
      rewrite Hgeo. by apply IH.
    + assert (Hgeo : geometryOf sub = None) by (unfold geometryOf; by rewrite Hsm).
      rewrite Hgeo. by apply IH.
Qed.

Lemma narrowModel_eq worldRay m transform distance g :
  ∃ g', narrowModel worldRay m transform distance g
        = (g', narrowDistance worldRay m transform distance) ∧
        resultState g' = resultState g ∧
        tested g' = tested g ++ (omap geometryOf (subModels m) ≫= subTriangles).
Proof.
  unfold narrowModel, narrowDistance.
  edestruct (narrowModel_fold (localRay worldRay transform) transform distance (subModels m))
    as (g' & Heq & _ & Hres & Ht); [|exists g'; rewrite Heq; split; [done|split; [exact Hres|exact Ht]]].
  done.
Qed.

Lemma modelDistance_eq worldRay m mask distance g :
  ∃ g', modelDistance worldRay m mask distance g = (g', hitDistance worldRay m mask distance) ∧
        resultState g' = resultState g.
Proof.
  unfold modelDistance, hitDistance.
  destruct (transform m) as [tr|]; [|by exists g].
  destruct (worldBounds m) as [bounds|]; [|by exists g].
  destruct (negb (enabled m) || modelMaskRejects m mask); [by exists g|].
  destruct (le (intersect_rayAABB worldRay bounds) zero
            || ge (intersect_rayAABB worldRay bounds) distance); [by exists g|].
  destruct (ModelType_eqb (type m) DEFAULT); [|by exists g].
  destruct (narrowModel_eq worldRay m tr distance g) as (g' & -> & Hres & _).
  by exists g'.
Qed.

(** A model whose type is not [DEFAULT] never reaches the narrow phase. *)
Lemma modelDistance_not_DEFAULT worldRay m mask distance g :
  ModelType_eqb (type m) DEFAULT = false →
  (modelDistance worldRay m mask distance g).1 = g.
Proof.
  intros Hty. unfold modelDistance.
  destruct (transform m) as [tr|]; [|done].
  destruct (worldBounds m) as [bounds|]; [|done].
  destruct (negb (enabled m) || modelMaskRejects m mask); [done|].
  destruct (le (intersect_rayAABB worldRay bounds) zero
            || ge (intersect_rayAABB worldRay bounds) distance); [done|].
  by rewrite Hty.
Qed.

(** *** Recording into the pool *)

Lemma recorded_add arr p rs r :
  recorded arr p rs →
  let '(i, p') := RecyclePool.add p in
  let p'' := RecyclePool.write i r p' in
  recorded (arraySet (RecyclePool.length p'' - 1) (InPool i) arr) p'' (rs ++ [r]).
Proof.
  intros (Hc & Hpos & Hd & Ha). destruct p as [data k]. simpl in *. subst k.
  assert (Hle : length rs ≤ length data).
  { rewrite <- Hd at 1. rewrite length_take. lia. }
  assert (Hla : length rs ≤ length arr).
  { apply (f_equal length) in Ha. rewrite length_take, length_fmap, length_seq in Ha. lia. }
  unfold RecyclePool.add, RecyclePool.resize, RecyclePool.write, RecyclePool.length. simpl.
  set (data' := RecyclePool._data
                  (if length data <=? length rs
                   then RecyclePool.mk (data ++ replicate (length data * 2 - length data)
                                                  RecyclePool.fresh_slot) (length rs)
                   else RecyclePool.mk data (length rs))).
  assert (Hdata' : take (length rs) data' = rs ∧ length rs < length data').
  { subst data'. destruct (Nat.leb_spec (length data) (length rs)); simpl.
    - rewrite take_app_le by lia. rewrite length_app, length_replicate. split; [done|lia].
    - split; [done|lia]. }
  destruct Hdata' as [Hd' Hlt'].
  replace (RecyclePool._count
             (if length data <=? length rs
              then RecyclePool.mk (data ++ replicate (length data * 2 - length data)
                                             RecyclePool.fresh_slot) (length rs)
              else RecyclePool.mk data (length rs))) with (length rs)
    by (by destruct (length data <=? length rs)).
  fold data'. simpl. rewrite Nat.sub_0_r.
  unfold recorded. simpl. rewrite length_app. simpl.
  replace (length rs + 1) with (S (length rs)) by lia.
  split; [done|]. split; [rewrite length_insert; lia|]. split.
  - rewrite (take_S_r _ _ r) by (by apply list_lookup_insert_eq).
    by rewrite take_insert_ge, Hd' by lia.
  - rewrite seq_S, fmap_app. simpl. unfold arraySet.
    destruct (Nat.ltb_spec (length rs) (length arr)).
    + rewrite (take_S_r _ _ (Some (InPool (length rs)))) by (by apply list_lookup_insert_eq).
      by rewrite take_insert_ge, Ha by lia.
    + replace (length rs - length arr) with 0 by lia. simpl.
      rewrite take_ge by (rewrite length_app; simpl; lia).
      rewrite <- Ha. by rewrite (take_ge arr) by lia.
Qed.

#[local] Arguments RecyclePool.add : simpl never.
#[local] Arguments RecyclePool.write : simpl never.
#[local] Arguments RecyclePool.length : simpl never.

Lemma raycastModelBody_recorded worldRay mask distance g m rs :
  recorded (resultModels g) (pool g) rs →
  let g' := raycastModelBody worldRay mask distance g m in
  recorded (resultModels g') (pool g')
    (rs ++ option_list (hitOf worldRay mask distance m)) ∧
  poolUI g' = poolUI g.
Proof.
  intros Hrec g'. subst g'. unfold raycastModelBody, hitOf.
  destruct (modelDistance_eq worldRay m mask distance g) as (g1 & -> & Hres).
  injection Hres as Hp Hrm Hpu _ _ _ _.
  destruct (hitDistance worldRay m mask distance) as [d0|].
  - destruct (lt d0 distance).
    + unfold poolRecord. rewrite Hp.
      pose proof (recorded_add (resultModels g) (pool g) rs
                    (mkResult (Some (node m)) d0) Hrec) as Hadd.
      destruct (RecyclePool.add (pool g)) as [i p'].
      cbv beta iota zeta in *.
      cbn [pool resultModels poolUI setPool setResultModels option_list]. rewrite Hrm.
      split; [exact Hadd|exact Hpu].
    + cbn [option_list]. rewrite app_nil_r, Hp, Hrm. done.
  - cbn [option_list]. rewrite app_nil_r, Hp, Hrm. done.
Qed.

Lemma foldl_raycastModelBody_recorded worldRay mask distance ms g rs :
  recorded (resultModels g) (pool g) rs →
  let g' := foldl (raycastModelBody worldRay mask distance) g ms in
  recorded (resultModels g') (pool g') (rs ++ omap (hitOf worldRay mask distance) ms) ∧
  poolUI g' = poolUI g.
Proof.
  revert g rs. induction ms as [|m ms IH]; intros g rs Hrec g'; subst g'.
  - cbn [foldl]. change (omap (hitOf worldRay mask distance) []) with (@nil IRaycastResult).
    by rewrite app_nil_r.
  - cbn [foldl]. rewrite app_omap_cons.
    destruct (raycastModelBody_recorded worldRay mask distance g m rs Hrec) as [Hrec' Hpu].
    destruct (IH _ _ Hrec') as [Hrec'' Hpu']. split; [exact Hrec''|congruence].
Qed.

(** What [raycastAllModels] leaves in [rayResultModels]: the results of
    the models that have one, in the order of the model list. *)
Lemma raycastAllModels_results s worldRay mask distance g :
  wfGlobals g →
  let out := raycastAllModels s worldRay mask distance g in
  rayResultModels out.1 = Some <$> omap (hitOf worldRay mask distance) (_models s) ∧
  out.2 = (0 <? length (omap (hitOf worldRay mask distance) (_models s))) ∧
  wfGlobals out.1.
Proof.
  intros [Hwf HwfUI] out. subst out. unfold raycastAllModels. cbv zeta.
  set (g0 := setPool (RecyclePool.reset (pool g)) g).
  assert (Hrec0 : recorded (resultModels g0) (pool g0) []).
  { subst g0. unfold recorded. simpl. by rewrite !take_0. }
  destruct (foldl_raycastModelBody_recorded worldRay mask distance (_models s) g0 [] Hrec0)
    as [(Hc & Hpos & Hd & Ha) Hpu].
  rewrite app_nil_l in Hc, Hd, Ha.
  set (gf := foldl (raycastModelBody worldRay mask distance) g0 (_models s)) in *.
  set (rs := omap (hitOf worldRay mask distance) (_models s)) in *.
  assert (Hla : length rs ≤ length (resultModels gf)).
  { apply (f_equal length) in Ha. rewrite length_take, length_fmap, length_seq in Ha. lia. }
  assert (Hset : setLength (RecyclePool.length (pool gf)) (resultModels gf)
                 = (λ i, Some (InPool i)) <$> seq 0 (length rs)).
  { unfold setLength, RecyclePool.length. rewrite Hc.
    replace (length rs - length (resultModels gf)) with 0 by lia.
    simpl. by rewrite app_nil_r. }
  cbn [fst snd]. unfold rayResultModels.
  cbn [resultModels setResultModels]. rewrite Hset. split; [|split].
  - rewrite <- list_fmap_compose.
    apply list_eq. intros i. rewrite !list_lookup_fmap.
    destruct (decide (i < length rs)) as [Hi|Hi].
    + rewrite lookup_seq_lt by done. simpl. unfold RecyclePool.read.
      destruct (lookup_lt_is_Some_2 rs i Hi) as [r Hr]. rewrite Hr. simpl. f_equal.
      rewrite <- Hd in Hr. by rewrite lookup_take_lt in Hr.
    + rewrite lookup_seq_ge by lia. by rewrite lookup_ge_None_2 by lia.
  - by rewrite length_fmap, length_seq.
  - split; simpl; [done|]. rewrite Hpu. by subst g0.
Qed.

End RaycastResults.

(* ===================================================================== *)
(** ** Models of a type other than [DEFAULT] *)
(* ===================================================================== *)

Lemma wfGlobals_initial : wfGlobals initialGlobals.
Proof. split; simpl; lia. Qed.

Section ModelQueries.

Context `{E : Externals}.

Lemma ModelType_eqb_false (t : ModelType) : t ≠ DEFAULT → ModelType_eqb t DEFAULT = false.
Proof. by destruct t. Qed.

(** C10. A model of [raycastAllModels] whose type is not [DEFAULT],
    which has a transform and world bounds, is enabled and passes the
    mask, and whose ray-box distance [d] satisfies [0 < d < distance],
    has a result recorded with exactly the distance [d]; and the loop
    body hands none of its triangles to the ray-triangle test. *)
Theorem C10_non_default_model_records_box_distance
    (s : RenderScene) (worldRay : Ray) (mask : Z) (distance : number) (g : Globals)
    (m : Model) (tr : Node) (bounds : AABB) :
  wfGlobals g →
  m ∈ _models s →
  transform m = Some tr → enabled m = true → modelMaskRejects m mask = false →
  worldBounds m = Some bounds →
  type m ≠ DEFAULT →
  lt zero (intersect_rayAABB worldRay bounds) = true →
  lt (intersect_rayAABB worldRay bounds) distance = true →
  Some (mkResult (Some (node m)) (intersect_rayAABB worldRay bounds))
    ∈ rayResultModels (raycastAllModels s worldRay mask distance g).1 ∧
  (raycastAllModels s worldRay mask distance g).2 = true ∧
  ∀ g0 : Globals,
    tested (raycastModelBody worldRay mask distance g0 m) = tested g0 ∧
    narrowDis (raycastModelBody worldRay mask distance g0 m) = narrowDis g0.
Proof.
  intros Hwf Hin Htr Hen Hmask Hb Hty Hpos Hcap.
  apply ModelType_eqb_false in Hty.
  pose proof (lt_not_le _ _ Hpos) as Hle. pose proof (lt_not_ge _ _ Hcap) as Hge.
  assert (Hhit : hitOf worldRay mask distance m
                 = Some (mkResult (Some (node m)) (intersect_rayAABB worldRay bounds))).
  { unfold hitOf, hitDistance. rewrite Htr, Hb, Hen, Hmask. cbn [negb orb].
    rewrite Hle, Hge, Hty. cbn [orb]. by rewrite Hcap. }
  destruct (raycastAllModels_results s worldRay mask distance g Hwf) as (Hres & Hret & _).
  split; [|split].
  - rewrite Hres. apply list_elem_of_fmap.
    eexists. split; [reflexivity|]. apply list_elem_of_omap. by exists m.
  - rewrite Hret. apply Nat.ltb_lt.
    assert (Hel : mkResult (Some (node m)) (intersect_rayAABB worldRay bounds)
                    ∈ omap (hitOf worldRay mask distance) (_models s))
      by (apply list_elem_of_omap; by exists m).
    destruct (omap (hitOf worldRay mask distance) (_models s)); [|simpl; lia].
    by apply elem_of_nil in Hel.
  - intros g0. unfold raycastModelBody, modelDistance.
    rewrite Htr, Hb, Hen, Hmask. cbn [negb orb]. rewrite Hle, Hge, Hty. cbn [orb].
    rewrite Hcap. unfold poolRecord. destruct (RecyclePool.add (pool g0)) as [i p]. done.
Qed.

(* ===================================================================== *)
(** ** A null model *)
(* ===================================================================== *)

(** C9, amended.  Called with a null model, [raycastSingleModel] logs
    one diagnostic message in development builds only and resets the
    result pool; reading the transform of the null model then throws a
    [TypeError], so that the call does not return.  No geometry is
    tested and no result is recorded. *)
Theorem C9_null_model_throws
    (worldRay : Ray) (mask : Z) (distance : number) (g : Globals) :
  (raycastSingleModel worldRay None mask distance g).2 = ThrowTypeError ∧
  console (raycastSingleModel worldRay None mask distance g).1
    = (if PREVIEW then console g ++ [nullModelMessage] else console g) ∧
  RecyclePool.length (pool (raycastSingleModel worldRay None mask distance g).1) = 0 ∧
  resultSingleModel (raycastSingleModel worldRay None mask distance g).1
    = resultSingleModel g ∧
  tested (raycastSingleModel worldRay None mask distance g).1 = tested g.
Proof. unfold raycastSingleModel. by destruct PREVIEW. Qed.

(* ===================================================================== *)
(** ** Layers *)
(* ===================================================================== *)

(** A UI node that carries the ignore-raycast bit is skipped. *)
Lemma _raycastUI2DNode_ignored worldRay ui2dNode mask distance g :
  truthy (bitand (layer ui2dNode) Layers_IGNORE_RAYCAST) = true →
  _raycastUI2DNode worldRay ui2dNode mask distance g = (g, None).
Proof.
  intros H. unfold _raycastUI2DNode.
  destruct (uiTransformComp ui2dNode); [|done]. by rewrite H.
Qed.

(** A UI node whose layer shares no bit with the mask is skipped. *)
Lemma _raycastUI2DNode_masked worldRay ui2dNode mask distance g :
  truthy (bitand (layer ui2dNode) mask) = false →
  _raycastUI2DNode worldRay ui2dNode mask distance g = (g, None).
Proof.
  intros H. unfold _raycastUI2DNode.
  destruct (uiTransformComp ui2dNode); [|done]. rewrite H. simpl.
  by rewrite orb_true_r.
Qed.

(** A model that the mask test rejects contributes no result. *)
Lemma hitOf_rejected worldRay mask distance m :
  modelMaskRejects m mask = true → hitOf worldRay mask distance m = None.
Proof.
  intros H. unfold hitOf, hitDistance.
  destruct (transform m); [|done]. destruct (worldBounds m); [|done].
  by rewrite H, orb_true_r.
Qed.

(* ===================================================================== *)
(** ** The cap of the narrow phase *)
(* ===================================================================== *)

(** When no triangle gives a distance strictly between [0] and the
    running best, the narrow phase leaves its best distance at the cap. *)
Lemma nearest_no_candidate ray sides cap tris :
  (∀ t, t ∈ tris →
        le (intersect_rayTriangle ray t sides) zero
        || ge (intersect_rayTriangle ray t sides) cap = true) →
  nearest ray sides cap tris = cap.
Proof.
  unfold nearest. induction tris as [|t tris IH]; intros H; [done|].
  simpl. unfold nearestStep at 2. rewrite H by apply list_elem_of_here.
  apply IH. intros t' Ht'. apply H. by apply list_elem_of_further.
Qed.

Lemma narrowphase_no_candidate vb ib pm sides distance g :
  (∀ t, t ∈ trianglesOf vb ib pm →
        le (intersect_rayTriangle (modelRay g) t sides) zero
        || ge (intersect_rayTriangle (modelRay g) t sides) distance = true) →
  narrowDis (narrowphase vb ib pm sides distance g) = distance.
Proof. intros H. rewrite narrowphase_eq. simpl. by apply nearest_no_candidate. Qed.

End ModelQueries.

(** C9 fails as stated: the call with a null model does not return
    [false]; it throws. *)
Lemma C9_counterexample :
  (raycastSingleModel (E := sceneExternals) testRay None layerDefault Infinity
     initialGlobals).2 ≠ Normal false ∧
  (raycastSingleModel (E := sceneExternals) testRay None layerDefault Infinity
     initialGlobals).2 = ThrowTypeError.
Proof. split; [discriminate|reflexivity]. Qed.

Lemma C10_witness :
  Some (mkResult (Some (node skinnedModel)) three)
    ∈ rayResultModels
        (raycastAllModels (E := sceneExternals) (sceneOf [skinnedModel]) testRay
           layerDefault Infinity initialGlobals).1.
Proof.
  refine (proj1 (C10_non_default_model_records_box_distance (E := sceneExternals)
            (sceneOf [skinnedModel]) testRay layerDefault Infinity initialGlobals
            skinnedModel (scaledNode 51%positive layerDefault one) (boxAt three)
            _ _ _ _ _ _ _ _ _)).
  - split; simpl; lia.
  - apply list_elem_of_In. simpl. left. reflexivity.
  - reflexivity.
  - reflexivity.
  - vm_compute. reflexivity.
  - reflexivity.
  - discriminate.
  - vm_compute. reflexivity.
  - vm_compute. reflexivity.
Defined.

(* ===================================================================== *)
(** ** The test scene *)
(* ===================================================================== *)

Section TestScene.

#[local] Existing Instance sceneExternals.

(** At unit scale the nearest of two triangles is recorded. *)
Example nearest_of_two_triangles :
  rayResultModels
    (raycastAllModels (sceneOf [twoTriangleModel]) testRay layerDefault Infinity
       initialGlobals).1
  = [Some (mkResult (Some (node twoTriangleModel)) two)].
Proof. vm_compute. reflexivity. Qed.

(** At unit scale a hit at distance 10 is left out under the cap 5 and
    recorded under the cap 20. *)
Example cap_at_unit_scale :
  rayResultModels
    (raycastAllModels (sceneOf [farTriangleModel]) testRay layerDefault five
       initialGlobals).1 = [] ∧
  rayResultModels
    (raycastAllModels (sceneOf [farTriangleModel]) testRay layerDefault twenty
       initialGlobals).1
  = [Some (mkResult (Some (node farTriangleModel)) ten)].
Proof. split; vm_compute; reflexivity. Qed.

(** C2, on the code.  A model scaled by one half has its only triangle
    at the world-space distance 10 (model-space distance 20).  Under the
    cap 5 the narrow phase discards the triangle, and the cap itself,
    scaled to 2.5, is recorded as the distance of a hit: a result is
    recorded although the only intersection lies beyond the cap.  With
    the triangle at the world-space distance 4 (model-space distance 8)
    the same happens: the recorded distance is 2.5 and not 4. *)
Theorem C2_scaled_model_beyond_cap_is_recorded :
  let out := raycastAllModels (sceneOf [halfScaleFarModel]) testRay layerDefault five
               initialGlobals in
  let out' := raycastAllModels (sceneOf [halfScaleNearModel]) testRay layerDefault five
                initialGlobals in
  let ray := localRay testRay (scaledNode 54%positive layerDefault half) in
  let scale := scaleLength ray (scaledNode 54%positive layerDefault half) in
  ((λ t, mul (intersect_rayTriangle ray t true) scale) <$> meshTriangles (meshAt [twenty])
   = [ten] ∧
   lt ten five = false ∧
   out.2 = true ∧
   rayResultModels out.1 = [Some (mkResult (Some (node halfScaleFarModel)) twoAndHalf)]) ∧
  ((λ t, mul (intersect_rayTriangle ray t true) scale) <$> meshTriangles (meshAt [eight])
   = [four] ∧
   lt four five = true ∧
   rayResultModels out'.1 = [Some (mkResult (Some (node halfScaleNearModel)) twoAndHalf)]).
Proof. vm_compute. repeat split. Qed.

(** A model scaled by one half has no triangle the ray meets.  The
    narrow-phase best distance is left at the cap 5, yet a result is
    recorded for the model, with the scaled cap 2.5 as its distance. *)
Example scaled_model_without_hit_is_recorded :
  let out := raycastAllModels (sceneOf [halfScaleMissedModel]) testRay layerDefault five
               initialGlobals in
  (λ t, intersect_rayTriangle
          (localRay testRay (scaledNode 55%positive layerDefault half)) t true)
    <$> meshTriangles (meshAt [zero; zero]) = [zero; zero] ∧
  narrowDis out.1 = five ∧
  out.2 = true ∧
  rayResultModels out.1 = [Some (mkResult (Some (node halfScaleMissedModel)) twoAndHalf)].
Proof. vm_compute. repeat split. Qed.

(** C3, on the code.  A model whose layer carries the ignore-raycast
    bit next to the default bit is recorded by a query for the default
    layer, whereas a UI node in the same layer is skipped. *)
Theorem C3_model_with_ignore_bit_is_recorded :
  truthy (bitand (layer (node ignoredModel)) Layers_IGNORE_RAYCAST) = true ∧
  rayResultModels
    (raycastAllModels (sceneOf [ignoredModel]) testRay layerDefault Infinity
       initialGlobals).1
  = [Some (mkResult (Some (node ignoredModel)) three)] ∧
  rayResultCanvas
    (raycastAllCanvas [ignoredUINode] testRay (Z.lor layerDefault layerIgnoreRaycast)
       Infinity initialGlobals).1 = [].
Proof. vm_compute. repeat split. Qed.

End TestScene.

(* ===================================================================== *)
(** ** 32-bit integers *)
(* ===================================================================== *)

Lemma toInt32_range (z : Z) : (- 2 ^ 31 ≤ toInt32 z < 2 ^ 31)%Z.
Proof.
  unfold toInt32. pose proof (Z.mod_pos_bound (z + 2 ^ 31) (2 ^ 32) ltac:(lia)). lia.
Qed.

Lemma toInt32_id (z : Z) : (- 2 ^ 31 ≤ z < 2 ^ 31)%Z → toInt32 z = z.
Proof. intros H. unfold toInt32. rewrite Z.mod_small by lia. lia. Qed.

Lemma below_pow2_31_bits (n : Z) :
  (0 ≤ n)%Z → (n < 2 ^ 31)%Z ↔ ∀ i, (31 ≤ i)%Z → Z.testbit n i = false.
Proof.
  intros Hn. split.
  - intros Hlt i Hi. destruct (decide (n = 0%Z)) as [->|Hne]; [apply Z.bits_0|].
    apply Z.bits_above_log2; [done|].
    assert (Z.log2 n < 31)%Z by (apply Z.log2_lt_pow2; lia). lia.
  - intros Hbits. destruct (Z.lt_ge_cases n (2 ^ 31)) as [|Hge]; [done|].
    assert (Hlog : (31 ≤ Z.log2 n)%Z) by (apply Z.log2_le_pow2; lia).
    pose proof (Z.bit_log2 n ltac:(lia)) as Hbit.
    rewrite (Hbits _ Hlog) in Hbit. discriminate.
Qed.

Lemma land_below_pow2_31 (n k : Z) : (0 ≤ n < 2 ^ 31)%Z → (0 ≤ Z.land n k < 2 ^ 31)%Z.
Proof.
  intros [Hn Hlt].
  assert (H0 : (0 ≤ Z.land n k)%Z) by (apply Z.land_nonneg; by left).
  split; [done|]. apply below_pow2_31_bits; [done|].
  intros i Hi. rewrite Z.land_spec.
  by rewrite (proj1 (below_pow2_31_bits n Hn) Hlt i Hi).
Qed.

(** The bitwise and of two 32-bit integers is a 32-bit integer. *)
Lemma land_int32 (n k : Z) :
  (- 2 ^ 31 ≤ n < 2 ^ 31)%Z → (- 2 ^ 31 ≤ k < 2 ^ 31)%Z →
  (- 2 ^ 31 ≤ Z.land n k < 2 ^ 31)%Z.
Proof.
  intros Hn Hk.
  destruct (Z.lt_ge_cases n 0) as [Hn0|Hn0]; [destruct (Z.lt_ge_cases k 0) as [Hk0|Hk0]|].
  - assert (Hneg : (Z.land n k < 0)%Z) by (by apply Z.land_neg).
    split; [|lia].
    assert (Hl : (0 ≤ Z.lnot (Z.land n k) < 2 ^ 31)%Z).
    { rewrite Z.lnot_land.
      assert (Hn' : (0 ≤ Z.lnot n < 2 ^ 31)%Z) by (unfold Z.lnot; lia).
      assert (Hk' : (0 ≤ Z.lnot k < 2 ^ 31)%Z) by (unfold Z.lnot; lia).
      assert (H0 : (0 ≤ Z.lor (Z.lnot n) (Z.lnot k))%Z) by (apply Z.lor_nonneg; lia).
      split; [done|]. apply below_pow2_31_bits; [done|].
      intros i Hi. rewrite Z.lor_spec.
      rewrite (proj1 (below_pow2_31_bits _ (proj1 Hn')) (proj2 Hn') i Hi).
      by rewrite (proj1 (below_pow2_31_bits _ (proj1 Hk')) (proj2 Hk') i Hi). }
    unfold Z.lnot in Hl. lia.
  - rewrite Z.land_comm. pose proof (land_below_pow2_31 k n ltac:(lia)). lia.
  - pose proof (land_below_pow2_31 n k ltac:(lia)). lia.
Qed.

(** A layer that shares no bit with the mask shares none with the mask
    less the ignore-raycast bit. *)
Lemma bitand_no_shared_bit (l mask ign : Z) :
  bitand l mask = 0%Z → bitand l (bitand mask ign) = 0%Z.
Proof.
  unfold bitand. intros H.
  rewrite (toInt32_id (Z.land (toInt32 mask) (toInt32 ign)))
    by (apply land_int32; apply toInt32_range).
  by rewrite Z.land_assoc, H, Z.land_0_l.
Qed.

Section LayerMask.

Context `{E : Externals}.

(** The model filter rejects a model whose layer shares no bit with the
    mask. *)
Lemma modelMaskRejects_no_shared_bit (m : Model) (mask : Z) :
  bitand (layer (node m)) mask = 0%Z → modelMaskRejects m mask = true.
Proof.
  intros H. unfold modelMaskRejects. by rewrite bitand_no_shared_bit.
Qed.

(** The model filter rejects a model whose layer is the ignore-raycast
    bit alone, whatever the mask. *)
Lemma modelMaskRejects_ignore_only (m : Model) (mask : Z) :
  toInt32 (layer (node m)) = toInt32 Layers_IGNORE_RAYCAST →
  modelMaskRejects m mask = true.
Proof.
  intros H. unfold modelMaskRejects, bitand, bitnot. rewrite H.
  rewrite (toInt32_id (Z.lnot _)) by (pose proof (toInt32_range Layers_IGNORE_RAYCAST);
                                       unfold Z.lnot; lia).
  rewrite (toInt32_id (Z.land _ _))
    by (apply land_int32; [apply toInt32_range|
         pose proof (toInt32_range Layers_IGNORE_RAYCAST); unfold Z.lnot; lia]).
  rewrite (Z.land_comm (toInt32 mask)), Z.land_assoc, Z.land_lnot_diag.
  by rewrite Z.land_0_l.
Qed.

End LayerMask.

(* ===================================================================== *)
(** ** The scaled cap *)
(* ===================================================================== *)

Lemma SFcompare_refl (n : number) : isNaN n = false → SFcompare n n = Some Eq.
Proof.
  destruct n as [s|s| |s m e]; simpl; try done.
  - by destruct s.
  - intros _. rewrite Z.compare_refl, Pos.compare_cont_refl. by destruct s.
Qed.

Lemma lt_irrefl (n : number) : lt n n = false.
Proof.
  unfold lt, SFltb. destruct (isNaN n) eqn:Hn.
  - by destruct n.
  - by rewrite SFcompare_refl.
Qed.

Lemma lt_not_NaN (n k : number) : lt n k = true → isNaN n = false.
Proof. by destruct n. Qed.

Lemma Math_min_idem (n : number) : isNaN n = false → Math_min n n = n.
Proof.
  intros Hn. unfold Math_min. rewrite Hn, lt_irrefl. simpl.
  destruct n as [s|s| |s m e]; try done. by destruct s.
Qed.

Lemma Math_min_Infinity_l (n : number) : isNaN n = false → Math_min Infinity n = n.
Proof.
  intros Hn. unfold Math_min. rewrite Hn. simpl.
  destruct n as [s|s| |s m e]; try done; by destruct s.
Qed.

Lemma foldl_Math_min_constant (n : number) (l : list number) :
  isNaN n = false → (∀ k, k ∈ l → k = n) → foldl Math_min n l = n.
Proof.
  intros Hn. induction l as [|k l IH]; intros H; [done|].
  simpl. rewrite (H k) by apply list_elem_of_here. rewrite Math_min_idem by done.
  apply IH. intros k' Hk'. apply H. by apply list_elem_of_further.
Qed.

Section ScaledCap.

Context `{E : Externals}.

(** C4, on the code.  Take a [DEFAULT] model of [raycastAllModels] that
    passes the filters and the broad phase, has at least one sub-model
    with geometry, and none of whose triangles gives a distance strictly
    between [0] and the cap.  Every narrow phase leaves its best distance
    at the cap; the cap is then multiplied by the scale length, and
    whenever that product is below the cap a result with the product as
    its distance is recorded for the model. *)
Theorem C4_scaled_cap_is_recorded
    (s : RenderScene) (worldRay : Ray) (mask : Z) (distance : number) (g : Globals)
    (m : Model) (tr : Node) (bounds : AABB) :
  wfGlobals g →
  m ∈ _models s →
  transform m = Some tr → enabled m = true → modelMaskRejects m mask = false →
  worldBounds m = Some bounds →
  type m = DEFAULT →
  lt zero (intersect_rayAABB worldRay bounds) = true →
  lt (intersect_rayAABB worldRay bounds) distance = true →
  omap geometryOf (subModels m) ≠ [] →
  (∀ gp t, gp ∈ omap geometryOf (subModels m) → t ∈ subTriangles gp →
     le (intersect_rayTriangle (localRay worldRay tr) t (doubleSided gp.1)) zero
     || ge (intersect_rayTriangle (localRay worldRay tr) t (doubleSided gp.1)) distance
     = true) →
  lt (mul distance (scaleLength (localRay worldRay tr) tr)) distance = true →
  (∀ gp, gp ∈ omap geometryOf (subModels m) →
     nearest (localRay worldRay tr) (doubleSided gp.1) distance (subTriangles gp) = distance) ∧
  Some (mkResult (Some (node m)) (mul distance (scaleLength (localRay worldRay tr) tr)))
    ∈ rayResultModels (raycastAllModels s worldRay mask distance g).1.
Proof.
  intros Hwf Hin Htr Hen Hmask Hb Hty Hpos Hcap Hgeo Hnone Hscaled.
  pose proof (lt_not_le _ _ Hpos) as Hle. pose proof (lt_not_ge _ _ Hcap) as Hge.
  assert (Hnear : ∀ gp, gp ∈ omap geometryOf (subModels m) →
            nearest (localRay worldRay tr) (doubleSided gp.1) distance (subTriangles gp)
            = distance).
  { intros gp Hgp. apply nearest_no_candidate. intros t Ht. by apply Hnone. }
  split; [exact Hnear|].
  set (scaled := mul distance (scaleLength (localRay worldRay tr) tr)) in *.
  assert (Hnan : isNaN scaled = false) by (by eapply lt_not_NaN).
  assert (Hnarrow : narrowDistance worldRay m tr distance = scaled).
  { unfold narrowDistance.
    destruct (omap geometryOf (subModels m)) as [|gp gps] eqn:Hgps; [done|].
    rewrite fmap_cons. cbn [foldl].
    assert (Hsub : ∀ gp', gp' ∈ gp :: gps →
              subDistance (localRay worldRay tr) tr distance gp' = scaled).
    { intros gp' Hgp'. unfold subDistance. by rewrite Hnear. }
    rewrite (Hsub gp) by apply list_elem_of_here.
    rewrite Math_min_Infinity_l by done.
    apply foldl_Math_min_constant; [done|].
    intros k (gp' & -> & Hgp')%list_elem_of_fmap.
    apply Hsub. by apply list_elem_of_further. }
  assert (Hhit : hitOf worldRay mask distance m = Some (mkResult (Some (node m)) scaled)).
  { unfold hitOf, hitDistance. rewrite Htr, Hb, Hen, Hmask. cbn [negb orb].
    rewrite Hle, Hge, Hty. cbn [orb ModelType_eqb]. by rewrite Hnarrow, Hscaled. }
  destruct (raycastAllModels_results s worldRay mask distance g Hwf) as (Hres & _ & _).
  rewrite Hres. apply list_elem_of_fmap.
  eexists. split; [reflexivity|]. apply list_elem_of_omap. by exists m.
Qed.

End ScaledCap.

Lemma C4_witness :
  Some (mkResult (Some (node halfScaleMissedModel)) twoAndHalf)
    ∈ rayResultModels
        (raycastAllModels (E := sceneExternals) (sceneOf [halfScaleMissedModel]) testRay
           layerDefault five initialGlobals).1.
Proof.
  refine (proj2 (C4_scaled_cap_is_recorded (E := sceneExternals)
            (sceneOf [halfScaleMissedModel]) testRay layerDefault five initialGlobals
            halfScaleMissedModel (scaledNode 55%positive layerDefault half) (boxAt one)
            _ _ _ _ _ _ _ _ _ _ _ _)).
  - split; simpl; lia.
  - apply list_elem_of_In. simpl. left. reflexivity.
  - reflexivity.
  - reflexivity.
  - vm_compute. reflexivity.
  - reflexivity.
  - reflexivity.
  - vm_compute. reflexivity.
  - vm_compute. reflexivity.
  - vm_compute. discriminate.
  - intros gp t Hgp Ht.
    apply list_elem_of_In in Hgp. vm_compute in Hgp. destruct Hgp as [<-|[]].
    apply list_elem_of_In in Ht. vm_compute in Ht.
    destruct Ht as [<-|[<-|[]]]; vm_compute; reflexivity.
  - vm_compute. reflexivity.
Defined.

(* ===================================================================== *)
(** * Further properties of the bookkeeping methods *)
(* ===================================================================== *)

(** ** Removal by reference *)

(** The search stops at the first element that is the object: the list
    splits there, and no earlier element is the object. *)
Lemma indexOfRef_split {A : Type} (ref : A → Ref) (r : Ref) (l : list A) (i : nat) :
  indexOfRef ref r l 0 = Some i →
  ∃ l1 e l2, l = l1 ++ e :: l2 ∧ length l1 = i ∧ ref e = r ∧ absent ref r l1.
Proof.
  assert (Hgen : ∀ i0, indexOfRef ref r l i0 = Some i →
            ∃ l1 e l2, l = l1 ++ e :: l2 ∧ i0 + length l1 = i ∧ ref e = r ∧ absent ref r l1).
  { induction l as [|e l IH]; intros i0; simpl; [done|].
    unfold sameRef. case_bool_decide as Heq.
    - intros [= <-]. exists [], e, l. repeat split; simpl; [lia|done|].
      intros x Hx. by apply elem_of_nil in Hx.
    - intros H. destruct (IH _ H) as (l1 & e' & l2 & -> & Hlen & Hr & Habs).
      exists (e :: l1), e', l2. repeat split; simpl; [lia|done|].
      intros x [->|Hx]%elem_of_cons; [done|by apply Habs]. }
  intros H. destruct (Hgen 0 H) as (l1 & e & l2 & ? & ? & ? & ?).
  exists l1, e, l2. repeat split; done.
Qed.

Lemma indexOfRef_absent {A : Type} (ref : A → Ref) (r : Ref) (l : list A) (i0 : nat) :
  absent ref r l → indexOfRef ref r l i0 = None.
Proof.
  revert i0. induction l as [|e l IH]; intros i0 Habs; simpl; [done|].
  unfold sameRef. rewrite bool_decide_eq_false_2
    by (apply Habs, list_elem_of_here).
  apply IH. intros x Hx. apply Habs. by apply list_elem_of_further.
Qed.

Lemma indexOfRef_app_absent {A : Type} (ref : A → Ref) (r : Ref) (l1 l2 : list A) (i0 : nat) :
  absent ref r l1 → indexOfRef ref r (l1 ++ l2) i0 = indexOfRef ref r l2 (i0 + length l1).
Proof.
  revert i0. induction l1 as [|e l1 IH]; intros i0 Habs; simpl.
  - by rewrite Nat.add_0_r.
  - unfold sameRef. rewrite bool_decide_eq_false_2 by (apply Habs, list_elem_of_here).
    rewrite IH by (intros x Hx; apply Habs; by apply list_elem_of_further).
    f_equal. lia.
Qed.

Lemma delete_middle {A : Type} (l1 l2 : list A) (e : A) :
  delete (length l1) (l1 ++ e :: l2) = l1 ++ l2.
Proof. induction l1 as [|x l1 IH]; simpl; [done|]. by rewrite IH. Qed.

(** X1. Removing an entity that is in none of the places of its list
    changes nothing: neither the scene nor the world. *)
Theorem remove_absent_is_noop (st : State) :
  (∀ cam, absent cam_ref (cam_ref cam) (_cameras st.1) → removeCamera cam st = st) ∧
  (∀ dl, absent dl_ref (dl_ref dl) (_directionalLights st.1) →
         removeDirectionalLight dl st = st) ∧
  (∀ pl, absent pl_ref (pl_ref pl) (_sphereLights st.1) → removeSphereLight pl st = st) ∧
  (∀ sl, absent sl_ref (sl_ref sl) (_spotLights st.1) → removeSpotLight sl st = st) ∧
  (∀ m, absent m_ref (m_ref m) (_models st.1) → removeModel m st = st).
Proof.
  destruct st as [s w]. simpl.
  split; [|split; [|split; [|split]]]; intros e Habs.
  - unfold removeCamera. by rewrite indexOfRef_absent.
  - unfold removeDirectionalLight. by rewrite indexOfRef_absent.
  - unfold removeSphereLight. by rewrite indexOfRef_absent.
  - unfold removeSpotLight. by rewrite indexOfRef_absent.
  - unfold removeModel. by rewrite indexOfRef_absent.
Qed.

Lemma remove_absent_is_noop_witness :
  removeModel skinnedModel (addModel twoTriangleModel (newRenderScene emptyWorld))
  = addModel twoTriangleModel (newRenderScene emptyWorld).
Proof.
  apply (proj2 (proj2 (proj2 (proj2 (remove_absent_is_noop
           (addModel twoTriangleModel (newRenderScene emptyWorld))))))).
  intros e He. apply list_elem_of_In in He. simpl in He.
  destruct He as [<-|[]]. vm_compute. discriminate.
Defined.

(** X2. [removeModel] takes out the first element of the list that is
    the model and nothing else: the elements before and after it keep
    their order, and the packed array loses the entry at the same index.
    The same model further down the list stays, and so does its entry. *)
Theorem removeModel_removes_first_occurrence
    (st : State) (m : Model) (l1 l2 : list Model) (e : Model) (k : positive) :
  _models st.1 = l1 ++ e :: l2 → m_ref e = m_ref m → absent m_ref (m_ref m) l1 →
  _modelArrayHandle st.1 = Npos k →
  ModelArrayPool st.2 !! k = Some (m_handle <$> _models st.1) →
  _models (removeModel m st).1 = l1 ++ l2 ∧
  packedModels (removeModel m st) = Some ((m_handle <$> l1) ++ (m_handle <$> l2)).
Proof.
  destruct st as [s w]. simpl. intros Hl He Habs Hh Hp.
  unfold removeModel. rewrite Hl, indexOfRef_app_absent by done. simpl.
  unfold sameRef. rewrite bool_decide_eq_true_2 by done. simpl.
  rewrite delete_middle. split; [done|].
  unfold packedModels. simpl. rewrite Hh. simpl.
  rewrite lookup_alter_eq, Hp, Hl. simpl.
  by rewrite fmap_app, fmap_cons, <- (length_fmap m_handle l1), delete_middle.
Qed.

Lemma removeModel_removes_first_occurrence_witness :
  let st := addModel skinnedModel (addModel twoTriangleModel
              (addModel skinnedModel (newRenderScene emptyWorld))) in
  _models (removeModel skinnedModel st).1 = [twoTriangleModel; skinnedModel] ∧
  packedModels (removeModel skinnedModel st)
  = Some [m_handle twoTriangleModel; m_handle skinnedModel].
Proof.
  intros st.
  refine (removeModel_removes_first_occurrence st skinnedModel []
            [twoTriangleModel; skinnedModel] skinnedModel 1%positive _ _ _ _ _).
  - reflexivity.
  - reflexivity.
  - intros e He. by apply elem_of_nil in He.
  - reflexivity.
  - vm_compute. reflexivity.
Defined.

(** ** Adding and removing *)

Lemma indexOfRef_snoc_absent {A : Type} (ref : A → Ref) (l : list A) (e : A) :
  absent ref (ref e) l → indexOfRef ref (ref e) (l ++ [e]) 0 = Some (length l).
Proof.
  intros Habs. rewrite indexOfRef_app_absent by done. simpl.
  unfold sameRef. by rewrite bool_decide_eq_true_2.
Qed.

Lemma delete_snoc {A : Type} (l : list A) (e : A) : delete (length l) (l ++ [e]) = l.
Proof. rewrite delete_middle. apply app_nil_r. Qed.

(** X3. Adding an entity that is not yet in its list and removing it
    again gives back the scene and the packed arrays as they were: the
    entity goes to the end of the list and of the packed array, and the
    removal finds it there. *)
Theorem add_then_remove_restores (st : State) :
  arraysMirror st →
  (∀ m, absent m_ref (m_ref m) (_models st.1) →
     (removeModel m (addModel m st)).1 = st.1 ∧
     ModelArrayPool (removeModel m (addModel m st)).2 = ModelArrayPool st.2) ∧
  (∀ pl, absent pl_ref (pl_ref pl) (_sphereLights st.1) →
     (removeSphereLight pl (addSphereLight pl st)).1 = st.1 ∧
     LightArrayPool (removeSphereLight pl (addSphereLight pl st)).2 = LightArrayPool st.2) ∧
  (∀ sl, absent sl_ref (sl_ref sl) (_spotLights st.1) →
     (removeSpotLight sl (addSpotLight sl st)).1 = st.1 ∧
     LightArrayPool (removeSpotLight sl (addSpotLight sl st)).2 = LightArrayPool st.2).
Proof.
  destruct st as [[nm cams ms dls pls sls ml mid hs hm hsph hspot] w].
  intros (km & ksph & kspot & Hm & Hsph & Hspot & Hne & Pm & Psph & Pspot).
  simpl in *. subst hm hsph hspot.
  split; [|split]; intros e Habs.
  - unfold removeModel, addModel. simpl.
    rewrite indexOfRef_snoc_absent by done. simpl. rewrite delete_snoc.
    split; [done|].
    apply map_eq. intros j. destruct (decide (j = km)) as [->|Hj].
    + rewrite lookup_alter_eq, lookup_alter_eq, Pm. simpl.
      by rewrite <- (length_fmap m_handle ms), delete_snoc.
    + by rewrite !lookup_alter_ne.
  - unfold removeSphereLight, addSphereLight. simpl.
    rewrite indexOfRef_snoc_absent by done. simpl. rewrite delete_snoc.
    split; [done|].
    apply map_eq. intros j. destruct (decide (j = ksph)) as [->|Hj].
    + rewrite lookup_alter_eq, lookup_alter_eq, Psph. simpl.
      by rewrite <- (length_fmap pl_handle pls), delete_snoc.
    + by rewrite !lookup_alter_ne.
  - unfold removeSpotLight, addSpotLight. simpl.
    rewrite indexOfRef_snoc_absent by done. simpl. rewrite delete_snoc.
    split; [done|].
    apply map_eq. intros j. destruct (decide (j = kspot)) as [->|Hj].
    + rewrite lookup_alter_eq, lookup_alter_eq, Pspot. simpl.
      by rewrite <- (length_fmap sl_handle sls), delete_snoc.
    + by rewrite !lookup_alter_ne.
Qed.

Lemma add_then_remove_restores_witness :
  (removeModel skinnedModel (addModel skinnedModel (newRenderScene emptyWorld))).1
  = (newRenderScene emptyWorld).1.
Proof.
  refine (proj1 (proj1 (add_then_remove_restores (newRenderScene emptyWorld) _)
                   skinnedModel _)).
  - apply newRenderScene_mirror.
  - intros e He. by apply elem_of_nil in He.
Defined.

(** ** The packed arrays under every bookkeeping call *)

Lemma unsetMainLight_scene_fields dl st :
  _models (unsetMainLight dl st).1 = _models st.1 ∧
  _sphereLights (unsetMainLight dl st).1 = _sphereLights st.1 ∧
  _spotLights (unsetMainLight dl st).1 = _spotLights st.1 ∧
  _cameras (unsetMainLight dl st).1 = _cameras st.1 ∧
  _modelArrayHandle (unsetMainLight dl st).1 = _modelArrayHandle st.1 ∧
  _sphereLightsHandle (unsetMainLight dl st).1 = _sphereLightsHandle st.1 ∧
  _spotLightsHandle (unsetMainLight dl st).1 = _spotLightsHandle st.1 ∧
  _scenePoolHandle (unsetMainLight dl st).1 = _scenePoolHandle st.1.
Proof.
  destruct st as [s w]. unfold unsetMainLight. simpl.
  destruct (sameLight (_mainLight s) dl); [|done].
  destruct (negb (length (_directionalLights s) =? 0)); [|done].
  destruct (_directionalLights s !! (length (_directionalLights s) - 1)) as [l|]; [|done].
  by destruct (dl_node l).
Qed.

Lemma unsetMainLight_world_fields dl st :
  ModelArrayPool (unsetMainLight dl st).2 = ModelArrayPool st.2 ∧
  LightArrayPool (unsetMainLight dl st).2 = LightArrayPool st.2 ∧
  ScenePool (unsetMainLight dl st).2 = ScenePool st.2 ∧
  attachedCameras (unsetMainLight dl st).2 = attachedCameras st.2 ∧
  attachedDirectionalLights (unsetMainLight dl st).2 = attachedDirectionalLights st.2 ∧
  attachedSphereLights (unsetMainLight dl st).2 = attachedSphereLights st.2 ∧
  attachedSpotLights (unsetMainLight dl st).2 = attachedSpotLights st.2 ∧
  attachedModels (unsetMainLight dl st).2 = attachedModels st.2.
Proof.
  rewrite unsetMainLight_world.
  destruct (sameLight (_mainLight st.1) dl); [|done].
  destruct (last (_directionalLights st.1)) as [l|]; [|done].
  by destruct (dl_node l).
Qed.

Lemma _createHandles_allocated st :
  isSet (_modelArrayHandle st.1) = true → _createHandles st = st.
Proof. destruct st as [s w]. simpl. unfold _createHandles. by intros ->. Qed.

Lemma initialize_allocated name st :
  isSet (_modelArrayHandle st.1) = true → initialize name st = ((setName name st.1, st.2), true).
Proof.
  destruct st as [s w]. simpl. intros H. by rewrite H.
Qed.

Lemma bookkeepingCall_mirror st c : arraysMirror st → arraysMirror (bookkeepingCall st c).
Proof.
  intros Hmir.
  destruct c as [cam|cam| |dl|dl|dl|dl|pl|pl| |sl|sl| |m|m| |name| ];
    try (by apply (arrayCall_mirror st (CallAddModel m)));
    try (by apply (arrayCall_mirror st (CallRemoveModel m)));
    try (by apply (arrayCall_mirror st (CallAddSphereLight pl)));
    try (by apply (arrayCall_mirror st (CallRemoveSphereLight pl)));
    try (by apply (arrayCall_mirror st (CallAddSpotLight sl)));
    try (by apply (arrayCall_mirror st (CallRemoveSpotLight sl)));
    cbn [bookkeepingCall].
  - destruct st as [s w]. exact Hmir.
  - destruct st as [s w]. unfold removeCamera.
    destruct (indexOfRef cam_ref (cam_ref cam) (_cameras s) 0); exact Hmir.
  - destruct st as [s w]. unfold removeCameras. rewrite foldl_detach_cameras. exact Hmir.
  - destruct st as [s w]. exact Hmir.
  - destruct Hmir as (km & ksph & kspot & Hm & Hsph & Hspot & Hne & Pm & Psph & Pspot).
    destruct (unsetMainLight_scene_fields dl st) as (E1 & E2 & E3 & _ & E5 & E6 & E7 & _).
    destruct (unsetMainLight_world_fields dl st) as (W1 & W2 & _).
    exists km, ksph, kspot. rewrite E1, E2, E3, E5, E6, E7, W1, W2. done.
  - destruct st as [s w]. exact Hmir.
  - destruct st as [s w]. unfold removeDirectionalLight.
    destruct (indexOfRef dl_ref (dl_ref dl) (_directionalLights s) 0); exact Hmir.
  - destruct st as [s w].
    destruct Hmir as (km & ksph & kspot & Hm & Hsph & Hspot & Hne & Pm & Psph & Pspot).
    unfold removeSphereLights. rewrite foldl_detach_sphereLights.
    exists km, ksph, kspot. simpl in *. rewrite Hsph. simpl.
    repeat split; try done.
    + by rewrite lookup_alter_eq, Psph.
    + by rewrite lookup_alter_ne.
  - destruct st as [s w].
    destruct Hmir as (km & ksph & kspot & Hm & Hsph & Hspot & Hne & Pm & Psph & Pspot).
    unfold removeSpotLights. rewrite foldl_detach_spotLights.
    exists km, ksph, kspot. simpl in *. rewrite Hspot. simpl.
    repeat split; try done.
    + by rewrite lookup_alter_ne.
    + by rewrite lookup_alter_eq, Pspot.
  - destruct st as [s w].
    destruct Hmir as (km & ksph & kspot & Hm & Hsph & Hspot & Hne & Pm & Psph & Pspot).
    unfold removeModels. rewrite foldl_destroy_models.
    exists km, ksph, kspot. simpl in *. rewrite Hm. simpl.
    repeat split; try done.
    by rewrite lookup_alter_eq, Pm.
  - destruct st as [s w].
    destruct Hmir as (km & ksph & kspot & Hm & Hsph & Hspot & Hne & Pm & Psph & Pspot).
    rewrite initialize_allocated by (simpl in *; by rewrite Hm).
    exists km, ksph, kspot. done.
  - destruct st as [s w]. exact Hmir.
Qed.

(** X4. On a newly constructed scene, after any sequence of
    bookkeeping calls other than [destroy] (the bulk removals, the camera
    and main-light calls, [initialize] and [generateModelId] included)
    the three packed arrays are in lock-step with their lists. *)
Theorem lock_step_under_every_bookkeeping_call (w : World) (cs : list BookkeepingCall) :
  inLockStep (bookkeepingCalls cs (newRenderScene w)).
Proof.
  apply mirror_inLockStep.
  assert (H : ∀ st, arraysMirror st → arraysMirror (bookkeepingCalls cs st)).
  { induction cs as [|c cs IH]; intros st Hst; simpl; [done|].
    apply IH. by apply bookkeepingCall_mirror. }
  apply H, newRenderScene_mirror.
Qed.



(** ** The scene record *)

Lemma bookkeepingCall_scene_handles st c :
  arraysMirror st →
  _scenePoolHandle (bookkeepingCall st c).1 = _scenePoolHandle st.1 ∧
  _modelArrayHandle (bookkeepingCall st c).1 = _modelArrayHandle st.1 ∧
  _sphereLightsHandle (bookkeepingCall st c).1 = _sphereLightsHandle st.1 ∧
  _spotLightsHandle (bookkeepingCall st c).1 = _spotLightsHandle st.1 ∧
  (ScenePool (bookkeepingCall st c).2 = ScenePool st.2 ∨
   ∃ dl, c = DoSetMainLight dl).
Proof.
  intros Hmir.
  destruct c as [cam|cam| |dl|dl|dl|dl|pl|pl| |sl|sl| |m|m| |name| ];
    cbn [bookkeepingCall].
  - destruct st as [s w]. repeat split; by left.
  - destruct st as [s w]. unfold removeCamera.
    destruct (indexOfRef cam_ref (cam_ref cam) (_cameras s) 0); repeat split; by left.
  - destruct st as [s w]. unfold removeCameras. rewrite foldl_detach_cameras.
    repeat split; by left.
  - destruct st as [s w]. repeat split. right. by exists dl.
  - destruct (unsetMainLight_scene_fields dl st) as (_ & _ & _ & _ & E5 & E6 & E7 & E8).
    destruct (unsetMainLight_world_fields dl st) as (_ & _ & W3 & _).
    repeat split; try done. by left.
  - destruct st as [s w]. repeat split; by left.
  - destruct st as [s w]. unfold removeDirectionalLight.
    destruct (indexOfRef dl_ref (dl_ref dl) (_directionalLights s) 0); repeat split; by left.
  - destruct st as [s w]. repeat split; by left.
  - destruct st as [s w]. unfold removeSphereLight.
    destruct (indexOfRef pl_ref (pl_ref pl) (_sphereLights s) 0); repeat split; by left.
  - destruct st as [s w]. unfold removeSphereLights. rewrite foldl_detach_sphereLights.
    repeat split; by left.
  - destruct st as [s w]. repeat split; by left.
  - destruct st as [s w]. unfold removeSpotLight.
    destruct (indexOfRef sl_ref (sl_ref sl) (_spotLights s) 0); repeat split; by left.
  - destruct st as [s w]. unfold removeSpotLights. rewrite foldl_detach_spotLights.
    repeat split; by left.
  - destruct st as [s w]. repeat split; by left.
  - destruct st as [s w]. unfold removeModel.
    destruct (indexOfRef m_ref (m_ref m) (_models s) 0); repeat split; by left.
  - destruct st as [s w]. unfold removeModels. rewrite foldl_destroy_models.
    repeat split; by left.
  - destruct Hmir as (km & ksph & kspot & Hm & _).
    rewrite initialize_allocated by (by rewrite Hm).
    destruct st as [s w]. repeat split; by left.
  - destruct st as [s w]. repeat split; by left.
Qed.

Lemma newRenderScene_record w : recordNamesArrays (newRenderScene w).
Proof.
  unfold recordNamesArrays, sceneRecord, newRenderScene, _createHandles. simpl.
  eexists. split.
  - rewrite !lookup_alter_eq, lookup_insert_eq. simpl. reflexivity.
  - done.
Qed.

Lemma bookkeepingCall_record st c :
  arraysMirror st → recordNamesArrays st → recordNamesArrays (bookkeepingCall st c).
Proof.
  intros Hmir (r & Hr & R1 & R2 & R3).
  destruct (bookkeepingCall_scene_handles st c Hmir) as (H1 & H2 & H3 & H4 & [Hp|[dl ->]]).
  - exists r. unfold sceneRecord in *. rewrite H1, H2, H3, H4, Hp. done.
  - destruct st as [s w]. unfold recordNamesArrays, sceneRecord in *. simpl in *.
    destruct (_scenePoolHandle s) as [|k]; [done|]. simpl.
    exists (ScenePoolM.setField MAIN_LIGHT (dl_handle dl) r).
    rewrite lookup_alter_eq, Hr. done.
Qed.

(** X6. On a newly constructed scene, after any sequence of
    bookkeeping calls other than [destroy], the packed record of the
    scene names the three packed arrays of the scene.  [setMainLight]
    writes the handle of its light into the record; [unsetMainLight]
    never writes the record, also when it changes the main light, so that
    the record keeps the handle of the light last passed to
    [setMainLight]. *)
Theorem scene_record_names_arrays_and_last_set_light (w : World) (cs : list BookkeepingCall) :
  recordNamesArrays (bookkeepingCalls cs (newRenderScene w)) ∧
  (∀ dl, ∃ r, sceneRecord (setMainLight dl (bookkeepingCalls cs (newRenderScene w))) = Some r ∧
              rec_mainLight r = dl_handle dl) ∧
  (∀ dl, sceneRecord (unsetMainLight dl (bookkeepingCalls cs (newRenderScene w)))
         = sceneRecord (bookkeepingCalls cs (newRenderScene w))).
Proof.
  assert (H : ∀ st, arraysMirror st → recordNamesArrays st →
            arraysMirror (bookkeepingCalls cs st) ∧
            recordNamesArrays (bookkeepingCalls cs st)).
  { induction cs as [|c cs IH]; intros st Hm Hr; simpl; [done|].
    apply IH; [by apply bookkeepingCall_mirror|by apply bookkeepingCall_record]. }
  destruct (H _ (newRenderScene_mirror w) (newRenderScene_record w)) as [Hm Hr].
  split; [done|]. split.
  - intros dl. destruct Hr as (r & Hr & _).
    destruct (bookkeepingCalls cs (newRenderScene w)) as [s w'].
    unfold sceneRecord in *. simpl in *.
    destruct (_scenePoolHandle s) as [|k]; [done|]. simpl.
    exists (ScenePoolM.setField MAIN_LIGHT (dl_handle dl) r).
    by rewrite lookup_alter_eq, Hr.
  - intros dl. unfold sceneRecord.
    destruct (unsetMainLight_scene_fields dl (bookkeepingCalls cs (newRenderScene w)))
      as (_ & _ & _ & _ & _ & _ & _ & E8).
    destruct (unsetMainLight_world_fields dl (bookkeepingCalls cs (newRenderScene w)))
      as (_ & _ & W3 & _).
    by rewrite E8, W3.
Qed.

(** ** Attachment *)

Lemma listedIn_add {A : Type} (ref : A → Ref) (X : gset Ref) (l : list A) (e : A) :
  listedIn ref X l → listedIn ref ({[ref e]} ∪ X) (l ++ [e]).
Proof.
  intros H r [->%elem_of_singleton|Hr]%elem_of_union.
  - exists e. split; [|done]. apply elem_of_app. right. apply list_elem_of_here.
  - destruct (H r Hr) as (e' & He' & Hre). exists e'. split; [|done].
    apply elem_of_app. by left.
Qed.

Lemma listedIn_remove {A : Type} (ref : A → Ref) (X : gset Ref) (l : list A) (r0 : Ref) (i : nat) :
  listedIn ref X l → indexOfRef ref r0 l 0 = Some i →
  listedIn ref (X ∖ {[r0]}) (delete i l).
Proof.
  intros H Hi r [Hr Hne]%elem_of_difference.
  destruct (H r Hr) as (e' & He' & Hre).
  destruct (indexOfRef_split _ _ _ _ Hi) as (l1 & e0 & l2 & -> & <- & He0 & _).
  rewrite delete_middle. exists e'. split; [|done].
  apply elem_of_app in He' as [He'|[->|He']%elem_of_cons].
  - apply elem_of_app. by left.
  - exfalso. apply Hne, elem_of_singleton. congruence.
  - apply elem_of_app. by right.
Qed.

Lemma listedIn_clear {A : Type} (ref : A → Ref) (X : gset Ref) (l : list A) :
  listedIn ref X l → listedIn ref (detachAll (ref <$> l) X) [].
Proof.
  intros H r [Hr Hnot]%elem_of_detachAll. exfalso. apply Hnot.
  destruct (H r Hr) as (e & He & <-). apply list_elem_of_fmap. by exists e.
Qed.

Lemma bookkeepingCall_attached st c :
  arraysMirror st → attachedAreListed st → attachedAreListed (bookkeepingCall st c).
Proof.
  intros Hmir (Hc & Hd & Hp & Hs & Hm).
  destruct c as [cam|cam| |dl|dl|dl|dl|pl|pl| |sl|sl| |m|m| |name| ];
    cbn [bookkeepingCall].
  - destruct st as [s w]. repeat split; try done. by apply listedIn_add.
  - destruct st as [s w]. unfold removeCamera.
    destruct (indexOfRef cam_ref (cam_ref cam) (_cameras s) 0) eqn:Hi; [|done].
    repeat split; try done. by apply listedIn_remove.
  - destruct st as [s w]. unfold removeCameras. rewrite foldl_detach_cameras.
    repeat split; try done. by apply listedIn_clear.
  - destruct st as [s w]. done.
  - destruct (unsetMainLight_scene_fields dl st) as (E1 & E2 & E3 & E4 & _).
    destruct (unsetMainLight_world_fields dl st) as (_ & _ & _ & W4 & W5 & W6 & W7 & W8).
    unfold attachedAreListed.
    by rewrite E1, E2, E3, E4, W4, W5, W6, W7, W8, unsetMainLight_directionalLights.
  - destruct st as [s w]. repeat split; try done. by apply listedIn_add.
  - destruct st as [s w]. unfold removeDirectionalLight.
    destruct (indexOfRef dl_ref (dl_ref dl) (_directionalLights s) 0) eqn:Hi; [|done].
    repeat split; try done. by apply listedIn_remove.
  - destruct st as [s w]. repeat split; try done. by apply listedIn_add.
  - destruct st as [s w]. unfold removeSphereLight.
    destruct (indexOfRef pl_ref (pl_ref pl) (_sphereLights s) 0) eqn:Hi; [|done].
    repeat split; try done. by apply listedIn_remove.
  - destruct st as [s w]. unfold removeSphereLights. rewrite foldl_detach_sphereLights.
    repeat split; try done. by apply listedIn_clear.
  - destruct st as [s w]. repeat split; try done. by apply listedIn_add.
  - destruct st as [s w]. unfold removeSpotLight.
    destruct (indexOfRef sl_ref (sl_ref sl) (_spotLights s) 0) eqn:Hi; [|done].
    repeat split; try done. by apply listedIn_remove.
  - destruct st as [s w]. unfold removeSpotLights. rewrite foldl_detach_spotLights.
    repeat split; try done. by apply listedIn_clear.
  - destruct st as [s w]. repeat split; try done. by apply listedIn_add.
  - destruct st as [s w]. unfold removeModel.
    destruct (indexOfRef m_ref (m_ref m) (_models s) 0) eqn:Hi; [|done].
    repeat split; try done. by apply listedIn_remove.
  - destruct st as [s w]. unfold removeModels. rewrite foldl_destroy_models.
    repeat split; try done. by apply listedIn_clear.
  - destruct Hmir as (km & ksph & kspot & Hkm & _).
    rewrite initialize_allocated by (by rewrite Hkm).
    destruct st as [s w]. done.
  - destruct st as [s w]. done.
Qed.

(** X7. An entity is attached only while it is in its list: on a
    newly constructed scene in a world where nothing is attached, after
    any sequence of bookkeeping calls, [destroy] at the end included,
    every attached camera, light and model is an element of the list of
    its kind. *)
Theorem attached_entities_are_listed (cs : list BookkeepingCall) :
  attachedAreListed (bookkeepingCalls cs (newRenderScene emptyWorld)) ∧
  attachedAreListed (destroy (bookkeepingCalls cs (newRenderScene emptyWorld))).
Proof.
  assert (H : ∀ st, arraysMirror st → attachedAreListed st →
            attachedAreListed (bookkeepingCalls cs st)).
  { induction cs as [|c cs IH]; intros st Hm Ha; simpl; [done|].
    apply IH; [by apply bookkeepingCall_mirror|by apply bookkeepingCall_attached]. }
  assert (H0 : attachedAreListed (newRenderScene emptyWorld)).
  { repeat split; intros r Hr; by apply not_elem_of_empty in Hr. }
  pose proof (H _ (newRenderScene_mirror emptyWorld) H0) as (Hc & Hd & Hp & Hs & Hm).
  split; [done|].
  rewrite destroy_destroyed.
  destruct (bookkeepingCalls cs (newRenderScene emptyWorld)) as [s w].
  repeat split; simpl in *; try done; by apply listedIn_clear.
Qed.

(** X8. The converse fails with duplicates: a model that is in the
    list at two places and is removed once stays in the list but is
    detached from the scene. *)
Theorem removeModel_of_duplicate_leaves_detached_entry
    (st : State) (m e1 e2 : Model) (i j : nat) :
  _models st.1 !! i = Some e1 → _models st.1 !! j = Some e2 → i < j →
  m_ref e1 = m_ref m → m_ref e2 = m_ref m →
  e2 ∈ _models (removeModel m st).1 ∧
  m_ref m ∉ attachedModels (removeModel m st).2.
Proof.
  destruct st as [s w]. simpl. intros Hi Hj Hlt H1 H2.
  unfold removeModel.
  destruct (indexOfRef m_ref (m_ref m) (_models s) 0) as [i0|] eqn:Hidx.
  - destruct (indexOfRef_split _ _ _ _ Hidx) as (l1 & e0 & l2 & Hl & Hlen & He0 & Habs).
    assert (Hle : i0 ≤ i).
    { destruct (decide (i0 ≤ i)) as [|Hn]; [done|]. exfalso.
      apply (Habs e1); [|done]. apply list_elem_of_lookup. exists i.
      rewrite Hl, lookup_app_l in Hi by lia. done. }
    simpl. split.
    + apply list_elem_of_lookup. exists (j - 1).
      rewrite list_lookup_delete_ge by lia. by replace (S (j - 1)) with j by lia.
    + apply not_elem_of_difference. right. by apply elem_of_singleton.
  - exfalso. apply (indexOfRef_None _ _ _ _ Hidx e1); [|done].
    apply list_elem_of_lookup. by exists i.
Qed.

Lemma removeModel_of_duplicate_leaves_detached_entry_witness :
  let st := addModel skinnedModel (addModel skinnedModel (newRenderScene emptyWorld)) in
  skinnedModel ∈ _models (removeModel skinnedModel st).1 ∧
  m_ref skinnedModel ∉ attachedModels (removeModel skinnedModel st).2.
Proof.
  intros st.
  refine (removeModel_of_duplicate_leaves_detached_entry st skinnedModel skinnedModel
            skinnedModel 0 1 _ _ _ _ _); try reflexivity. lia.
Defined.

(* ===================================================================== *)
(** * Further properties of the model queries *)
(* ===================================================================== *)

Lemma omap_length_le {A B : Type} (f : A → option B) (l : list A) :
  length (omap f l) ≤ length l.
Proof.
  induction l as [|e l IH]; [done|].
  change (omap f (e :: l))
    with (match f e with Some y => y :: omap f l | None => omap f l end).
  destruct (f e); simpl; lia.
Qed.

Section ModelQueryFacts.

Context `{E : Externals}.

#[local] Arguments RecyclePool.add : simpl never.
#[local] Arguments RecyclePool.write : simpl never.
#[local] Arguments RecyclePool.length : simpl never.

(** The state [raycastAllModels] leaves behind: the records are the
    first slots of the pool and the result array refers to them, slot by
    slot; nothing but the pool, the array, the scratch ray, the running
    best and the log of tests has changed. *)
Lemma raycastAllModels_state s worldRay mask distance g :
  wfGlobals g →
  let out := raycastAllModels s worldRay mask distance g in
  let rs := omap (hitOf worldRay mask distance) (_models s) in
  resultModels out.1 = (λ i, Some (InPool i)) <$> seq 0 (length rs) ∧
  take (length rs) (RecyclePool._data (pool out.1)) = rs ∧
  RecyclePool._count (pool out.1) = length rs ∧
  length (RecyclePool._data (pool g)) ≤ length (RecyclePool._data (pool out.1)) ∧
  poolUI out.1 = poolUI g.
Proof.
  intros [Hwf HwfUI] out rs. subst out rs. unfold raycastAllModels. cbv zeta.
  set (g0 := setPool (RecyclePool.reset (pool g)) g).
  assert (Hrec0 : recorded (resultModels g0) (pool g0) []).
  { subst g0. unfold recorded. simpl. by rewrite !take_0. }
  destruct (foldl_raycastModelBody_recorded worldRay mask distance (_models s) g0 [] Hrec0)
    as [(Hc & Hpos & Hd & Ha) Hpu].
  rewrite app_nil_l in Hc, Hd, Ha.
  set (gf := foldl (raycastModelBody worldRay mask distance) g0 (_models s)) in *.
  set (rs := omap (hitOf worldRay mask distance) (_models s)) in *.
  assert (Hla : length rs ≤ length (resultModels gf)).
  { apply (f_equal length) in Ha. rewrite length_take, length_fmap, length_seq in Ha. lia. }
  cbn [fst snd resultModels pool poolUI setResultModels].
  split; [|split; [done|split; [done|split; [|by rewrite Hpu]]]].
  - unfold setLength, RecyclePool.length. rewrite Hc.
    replace (length rs - length (resultModels gf)) with 0 by lia.
    simpl. by rewrite app_nil_r.
  - subst gf. clear. subst g0.
    change (length (RecyclePool._data (pool g)))
      with (length (RecyclePool._data (pool (setPool (RecyclePool.reset (pool g)) g)))).
    generalize (setPool (RecyclePool.reset (pool g)) g). clear g.
    induction (_models s) as [|m ms IH]; intros g; [done|].
    cbn [foldl]. etransitivity; [|apply IH].
    unfold raycastModelBody.
    destruct (modelDistance_eq worldRay m mask distance g) as (g1 & -> & Hres).
    injection Hres as Hp _ _ _ _ _ _.
    destruct (hitDistance worldRay m mask distance) as [d0|]; [|by rewrite Hp].
    destruct (lt d0 distance); [|by rewrite Hp].
    unfold poolRecord, RecyclePool.add, RecyclePool.write, RecyclePool.resize.
    rewrite Hp. simpl.
    destruct (length (RecyclePool._data (pool g)) <=? RecyclePool._count (pool g)); simpl;
      rewrite length_insert, ?length_app; lia.
Qed.

(** Where a model contributes a result, it went through the filters
    and the broad phase, and the distance is below the cap. *)
Lemma hitOf_Some worldRay mask distance m r :
  hitOf worldRay mask distance m = Some r →
  ∃ tr bounds,
    transform m = Some tr ∧ worldBounds m = Some bounds ∧ enabled m = true ∧
    modelMaskRejects m mask = false ∧
    le (intersect_rayAABB worldRay bounds) zero = false ∧
    ge (intersect_rayAABB worldRay bounds) distance = false ∧
    r_node r = Some (node m) ∧ lt (r_distance r) distance = true.
Proof.
  unfold hitOf, hitDistance.
  destruct (transform m) as [tr|]; [|done]. destruct (worldBounds m) as [bounds|]; [|done].
  destruct (enabled m); [|done]. cbn [negb orb].
  destruct (modelMaskRejects m mask); [done|].
  destruct (le (intersect_rayAABB worldRay bounds) zero) eqn:Hle; [done|].
  destruct (ge (intersect_rayAABB worldRay bounds) distance) eqn:Hge; [done|]. cbn [orb].
  intros H. exists tr, bounds.
  assert (Hr : r_node r = Some (node m) ∧ lt (r_distance r) distance = true).
  { destruct (ModelType_eqb (type m) DEFAULT).
    - destruct (lt (narrowDistance worldRay m tr distance) distance) eqn:Hlt; [|done].
      by injection H as <-.
    - destruct (lt (intersect_rayAABB worldRay bounds) distance) eqn:Hlt; [|done].
      by injection H as <-. }
  destruct Hr. repeat split; done.
Qed.

(** X9. What [raycastAllModels] reports: at most one result per model
    and no hole; every result carries the node of a model of the scene
    that has a transform and world bounds, is enabled, passes the mask
    and the broad phase, and its distance is strictly below the cap; the
    returned flag says whether there is a result.  Results left by an
    earlier query are gone. *)
Theorem raycastAllModels_reports_filtered_models_below_cap
    (s : RenderScene) (worldRay : Ray) (mask : Z) (distance : number) (g : Globals) :
  wfGlobals g →
  length (rayResultModels (raycastAllModels s worldRay mask distance g).1)
    ≤ length (_models s) ∧
  (raycastAllModels s worldRay mask distance g).2
    = (0 <? length (rayResultModels (raycastAllModels s worldRay mask distance g).1)) ∧
  ∀ r, r ∈ rayResultModels (raycastAllModels s worldRay mask distance g).1 →
    ∃ res m tr bounds,
      r = Some res ∧ m ∈ _models s ∧ r_node res = Some (node m) ∧
      transform m = Some tr ∧ worldBounds m = Some bounds ∧ enabled m = true ∧
      modelMaskRejects m mask = false ∧
      le (intersect_rayAABB worldRay bounds) zero = false ∧
      ge (intersect_rayAABB worldRay bounds) distance = false ∧
      lt (r_distance res) distance = true.
Proof.
  intros Hwf.
  destruct (raycastAllModels_results s worldRay mask distance g Hwf) as (Hres & Hret & _).
  rewrite Hres, Hret, length_fmap. split; [|split; [done|]].
  - apply omap_length_le.
  - intros r (res & -> & (m & Hm & Hhit)%list_elem_of_omap)%list_elem_of_fmap.
    destruct (hitOf_Some _ _ _ _ _ Hhit) as (tr & bounds & ? & ? & ? & ? & ? & ? & ? & ?).
    exists res, m, tr, bounds. done.
Qed.

(** X10. The results of [raycastAllModels] do not depend on what
    earlier queries left in the module-level state: from any two states
    the same query reports the same results, and asking twice in a row
    reports the same results twice. *)
Theorem raycastAllModels_is_repeatable
    (s : RenderScene) (worldRay : Ray) (mask : Z) (distance : number) (g g' : Globals) :
  wfGlobals g → wfGlobals g' →
  rayResultModels (raycastAllModels s worldRay mask distance g).1
    = rayResultModels (raycastAllModels s worldRay mask distance g').1 ∧
  (raycastAllModels s worldRay mask distance g).2
    = (raycastAllModels s worldRay mask distance g').2 ∧
  rayResultModels
    (raycastAllModels s worldRay mask distance
       (raycastAllModels s worldRay mask distance g).1).1
    = rayResultModels (raycastAllModels s worldRay mask distance g).1.
Proof.
  intros Hwf Hwf'.
  destruct (raycastAllModels_results s worldRay mask distance g Hwf) as (Hres & Hret & Hwf1).
  destruct (raycastAllModels_results s worldRay mask distance g' Hwf') as (Hres' & Hret' & _).
  destruct (raycastAllModels_results s worldRay mask distance _ Hwf1) as (Hres1 & _ & _).
  rewrite Hres, Hres', Hret, Hret', Hres1. done.
Qed.

End ModelQueryFacts.

Lemma raycastAllModels_reports_filtered_models_below_cap_witness :
  length (rayResultModels
            (raycastAllModels (E := sceneExternals) (sceneOf [skinnedModel]) testRay
               layerDefault Infinity initialGlobals).1) ≤ 1.
Proof.
  apply (proj1 (raycastAllModels_reports_filtered_models_below_cap (E := sceneExternals)
           (sceneOf [skinnedModel]) testRay layerDefault Infinity initialGlobals
           wfGlobals_initial)).
Defined.

Lemma raycastAllModels_is_repeatable_witness :
  rayResultModels
    (raycastAllModels (E := sceneExternals) (sceneOf [twoTriangleModel]) testRay layerDefault
       Infinity
       (raycastAllModels (E := sceneExternals) (sceneOf [twoTriangleModel]) testRay
          layerDefault Infinity initialGlobals).1).1
  = rayResultModels
      (raycastAllModels (E := sceneExternals) (sceneOf [twoTriangleModel]) testRay
         layerDefault Infinity initialGlobals).1.
Proof.
  apply (proj2 (proj2 (raycastAllModels_is_repeatable (E := sceneExternals)
           (sceneOf [twoTriangleModel]) testRay layerDefault Infinity
           initialGlobals initialGlobals wfGlobals_initial wfGlobals_initial))).
Defined.

Section SingleModelFacts.

Context `{E : Externals}.

#[local] Arguments RecyclePool.add : simpl never.
#[local] Arguments RecyclePool.write : simpl never.
#[local] Arguments RecyclePool.length : simpl never.

Lemma returnsEarly_hitDistance worldRay m mask distance :
  returnsEarly worldRay m mask distance ↔ hitDistance worldRay m mask distance = None.
Proof.
  unfold returnsEarly, hitDistance. split.
  - intros [->|[Hen|[Hm|[Hb|(bounds & -> & Hd)]]]].
    + done.
    + destruct (transform m); [|done]. destruct (worldBounds m); [|done]. by rewrite Hen.
    + destruct (transform m); [|done]. destruct (worldBounds m); [|done].
      by rewrite Hm, orb_true_r.
    + rewrite Hb. by destruct (transform m).
    + destruct (transform m); [|done].
      destruct (negb (enabled m) || modelMaskRejects m mask); [done|]. by rewrite Hd.
  - destruct (transform m) as [tr|]; [|by left].
    destruct (worldBounds m) as [bounds|]; [|by right; right; right; left].
    destruct (enabled m); [|by right; left]. cbn [negb orb].
    destruct (modelMaskRejects m mask); [by right; right; left|].
    destruct (le (intersect_rayAABB worldRay bounds) zero
              || ge (intersect_rayAABB worldRay bounds) distance) eqn:Hd.
    + intros _. right; right; right; right. by exists bounds.
    + by destruct (ModelType_eqb (type m) DEFAULT).
Qed.

(** The first slot of a pool that was reset. *)
Lemma add_after_reset (p : RecyclePool.t) (r : IRaycastResult) :
  0 < length (RecyclePool._data p) →
  let '(i, p') := RecyclePool.add (RecyclePool.reset p) in
  i = 0 ∧
  RecyclePool._data (RecyclePool.write i r p') = <[0 := r]> (RecyclePool._data p) ∧
  RecyclePool.length (RecyclePool.write i r p') = 1.
Proof.
  intros Hpos. unfold RecyclePool.add, RecyclePool.reset, RecyclePool.write,
    RecyclePool.length. simpl.
  destruct (Nat.leb_spec (length (RecyclePool._data p)) 0) as [?|_]; [lia|]. done.
Qed.

Lemma deref_ext (g g' : Globals) (r : option ResultRef) :
  RecyclePool._data (pool g) = RecyclePool._data (pool g') → poolUI g = poolUI g' →
  deref g r = deref g' r.
Proof.
  intros Hd Hu. destruct r as [[i|i]|]; unfold deref, RecyclePool.read; congruence.
Qed.

Lemma setLength_one_arraySet (arr : ResultArray) (v : ResultRef) :
  setLength 1 (arraySet 0 v arr) = [Some v].
Proof. unfold setLength, arraySet. by destruct arr. Qed.

(** What a call of [raycastSingleModel] with a model does, case by
    case. *)
Lemma raycastSingleModel_cases worldRay m mask distance g :
  wfGlobals g →
  let out := raycastSingleModel worldRay (Some m) mask distance g in
  poolUI out.1 = poolUI g ∧ resultModels out.1 = resultModels g ∧
  match hitDistance worldRay m mask distance with
  | None =>
      out.2 = Normal false ∧ resultSingleModel out.1 = resultSingleModel g ∧
      RecyclePool._data (pool out.1) = RecyclePool._data (pool g)
  | Some d =>
      if lt d distance then
        out.2 = Normal true ∧ resultSingleModel out.1 = [Some (InPool 0)] ∧
        RecyclePool._data (pool out.1)
        = <[0 := mkResult (Some (node m)) d]> (RecyclePool._data (pool g))
      else
        out.2 = Normal false ∧ resultSingleModel out.1 = [] ∧
        RecyclePool._data (pool out.1) = RecyclePool._data (pool g)
  end.
Proof.
  intros [Hwf _] out. subst out. unfold raycastSingleModel.
  set (g0 := if PREVIEW then g else g).
  assert (Hg0 : g0 = g) by (subst g0; by destruct PREVIEW). rewrite Hg0. clear g0 Hg0.
  set (g1 := setPool (RecyclePool.reset (pool g)) g).
  destruct (modelDistance_eq worldRay m mask distance g1) as (g2 & -> & Hres).
  injection Hres as Hp Hrm Hpu _ _ Hsm _.
  subst g1. cbn [pool setPool resultModels poolUI resultSingleModel] in Hp, Hrm, Hpu, Hsm.
  destruct (hitDistance worldRay m mask distance) as [d|].
  - destruct (lt d distance).
    + unfold poolRecord. rewrite Hp.
      pose proof (add_after_reset (pool g) (mkResult (Some (node m)) d) Hwf) as Hadd.
      destruct (RecyclePool.add (RecyclePool.reset (pool g))) as [i p'].
      destruct Hadd as (-> & Hdata & Hlen).
      cbn [fst snd pool poolUI resultModels resultSingleModel setPool setResultSingleModel].
      rewrite Hlen. change (1 - 1) with 0. rewrite setLength_one_arraySet. done.
    + cbn [fst snd pool poolUI resultModels resultSingleModel setPool setResultSingleModel].
      rewrite Hp. unfold RecyclePool.length, RecyclePool.reset, setLength.
      cbn [RecyclePool._count RecyclePool._data]. rewrite take_0. done.
  - cbn [fst snd]. rewrite Hp, Hsm. done.
Qed.

(** X11. [raycastSingleModel] against [raycastAllModels] on the scene
    that holds the one model.  When the model reaches the narrow-phase
    stage both report the same result and the same flag.  When the model
    is turned away at one of the two early returns, [raycastSingleModel]
    returns [false] without touching its result array:
    [rayResultSingleModel] still shows what an earlier call left there,
    whereas [raycastAllModels] always leaves an array of its own results. *)
Theorem raycastSingleModel_agrees_but_keeps_stale_results
    (s : RenderScene) (worldRay : Ray) (m : Model) (mask : Z) (distance : number)
    (g : Globals) :
  wfGlobals g → _models s = [m] →
  (returnsEarly worldRay m mask distance →
     (raycastSingleModel worldRay (Some m) mask distance g).2 = Normal false ∧
     rayResultSingleModel (raycastSingleModel worldRay (Some m) mask distance g).1
       = rayResultSingleModel g ∧
     rayResultModels (raycastAllModels s worldRay mask distance g).1 = []) ∧
  (¬ returnsEarly worldRay m mask distance →
     (raycastSingleModel worldRay (Some m) mask distance g).2
       = Normal (raycastAllModels s worldRay mask distance g).2 ∧
     rayResultSingleModel (raycastSingleModel worldRay (Some m) mask distance g).1
       = rayResultModels (raycastAllModels s worldRay mask distance g).1).
Proof.
  intros Hwf Hs.
  destruct (raycastAllModels_results s worldRay mask distance g Hwf) as (Hres & Hret & _).
  destruct (raycastSingleModel_cases worldRay m mask distance g Hwf) as (Hpu & _ & Hcase).
  cbv zeta in Hpu, Hcase.
  rewrite Hres, Hret, Hs. cbn [omap list_omap]. unfold hitOf.
  split; intros Hearly; rewrite returnsEarly_hitDistance in Hearly.
  - rewrite Hearly in *. destruct Hcase as (Hr & Hsm & Hd).
    split; [done|]. split; [|done].
    unfold rayResultSingleModel. rewrite Hsm. apply list_fmap_ext.
    intros _ r _. by apply deref_ext.
  - destruct (hitDistance worldRay m mask distance) as [d|]; [|done].
    destruct (lt d distance); destruct Hcase as (Hr & Hsm & Hd).
    + split; [done|]. unfold rayResultSingleModel. rewrite Hsm.
      cbn [fmap list_fmap deref]. unfold RecyclePool.read. rewrite Hd.
      destruct Hwf as [Hwf _].
      by rewrite list_lookup_insert_eq.
    + split; [done|]. unfold rayResultSingleModel. by rewrite Hsm.
Qed.

(** X12. The two model queries share one result pool.  After
    [raycastAllModels], a call of [raycastSingleModel] that hits takes the
    first slot of the pool for its record, and the first result that
    [rayResultModels] shows changes into that record; the other results
    and the length stay. *)
Theorem raycastSingleModel_overwrites_first_model_result
    (s : RenderScene) (worldRay worldRay' : Ray) (m : Model) (mask mask' : Z)
    (distance distance' : number) (g : Globals) :
  wfGlobals g →
  (raycastSingleModel worldRay' (Some m) mask' distance'
     (raycastAllModels s worldRay mask distance g).1).2 = Normal true →
  ∃ r,
    rayResultSingleModel
      (raycastSingleModel worldRay' (Some m) mask' distance'
         (raycastAllModels s worldRay mask distance g).1).1 = [Some r] ∧
    rayResultModels
      (raycastSingleModel worldRay' (Some m) mask' distance'
         (raycastAllModels s worldRay mask distance g).1).1
    = <[0 := Some r]> (rayResultModels (raycastAllModels s worldRay mask distance g).1).
Proof.
  intros Hwf Hhit.
  destruct (raycastAllModels_results s worldRay mask distance g Hwf) as (Hres & _ & Hwf1).
  destruct (raycastAllModels_state s worldRay mask distance g Hwf)
    as (Harr & Hdata & Hcount & _ & _).
  cbv zeta in Harr, Hdata, Hcount.
  set (g1 := (raycastAllModels s worldRay mask distance g).1) in *.
  set (rs := omap (hitOf worldRay mask distance) (_models s)) in *.
  destruct (raycastSingleModel_cases worldRay' m mask' distance' g1 Hwf1)
    as (_ & Hrm & Hcase).
  cbv zeta in Hrm, Hcase.
  destruct (hitDistance worldRay' m mask' distance') as [d|];
    [|destruct Hcase as (Hr & _); rewrite Hr in Hhit; done].
  destruct (lt d distance');
    [|destruct Hcase as (Hr & _); rewrite Hr in Hhit; done].
  destruct Hcase as (_ & Hsm & Hd).
  remember (raycastSingleModel worldRay' (Some m) mask' distance' g1).1 as g2 eqn:Hg2.
  clear Hg2.
  exists (mkResult (Some (node m)) d). split.
  - unfold rayResultSingleModel. rewrite Hsm.
    cbn [fmap list_fmap deref]. unfold RecyclePool.read. rewrite Hd.
    destruct Hwf1 as [Hwf1 _]. by rewrite list_lookup_insert_eq.
  - rewrite Hres. unfold rayResultModels. rewrite Hrm, Harr.
    rewrite <- list_fmap_compose.
    apply list_eq. intros i.
    rewrite list_lookup_fmap. simpl.
    destruct (decide (i < length rs)) as [Hi|Hi].
    + rewrite lookup_seq_lt by done. simpl. unfold RecyclePool.read. rewrite Hd.
      destruct (decide (i = 0)) as [->|Hne].
      * destruct Hwf1 as [Hwf1 _].
        rewrite list_lookup_insert_eq by done.
        by rewrite list_lookup_insert_eq by (rewrite length_fmap; lia).
      * rewrite !list_lookup_insert_ne by done.
        rewrite list_lookup_fmap.
        destruct (lookup_lt_is_Some_2 rs i Hi) as [r Hr]. rewrite Hr. simpl. f_equal.
        rewrite <- Hdata in Hr. by rewrite lookup_take_lt in Hr.
    + rewrite lookup_seq_ge by lia. simpl.
      symmetry. apply lookup_ge_None_2. rewrite length_insert, length_fmap. lia.
Qed.

End SingleModelFacts.

Lemma raycastSingleModel_agrees_but_keeps_stale_results_witness :
  rayResultSingleModel
    (raycastSingleModel (E := sceneExternals) testRay (Some skinnedModel) layerDefault
       Infinity initialGlobals).1
  = rayResultModels
      (raycastAllModels (E := sceneExternals) (sceneOf [skinnedModel]) testRay layerDefault
         Infinity initialGlobals).1.
Proof.
  refine (proj2 (proj2 (raycastSingleModel_agrees_but_keeps_stale_results
            (E := sceneExternals) (sceneOf [skinnedModel]) testRay skinnedModel layerDefault
            Infinity initialGlobals wfGlobals_initial eq_refl) _)).
  intros [H|[H|[H|[H|(bounds & Hb & H)]]]]; try discriminate.
  injection Hb as <-. vm_compute in H. discriminate.
Defined.

Lemma raycastSingleModel_overwrites_first_model_result_witness :
  ∃ r,
    rayResultSingleModel
      (raycastSingleModel (E := sceneExternals) testRay (Some skinnedModel) layerDefault
         Infinity
         (raycastAllModels (E := sceneExternals) (sceneOf [twoTriangleModel]) testRay
            layerDefault Infinity initialGlobals).1).1 = [Some r] ∧
    rayResultModels
      (raycastSingleModel (E := sceneExternals) testRay (Some skinnedModel) layerDefault
         Infinity
         (raycastAllModels (E := sceneExternals) (sceneOf [twoTriangleModel]) testRay
            layerDefault Infinity initialGlobals).1).1
    = <[0 := Some r]>
        (rayResultModels
           (raycastAllModels (E := sceneExternals) (sceneOf [twoTriangleModel]) testRay
              layerDefault Infinity initialGlobals).1).
Proof.
  apply (raycastSingleModel_overwrites_first_model_result (E := sceneExternals)
           (sceneOf [twoTriangleModel]) testRay testRay skinnedModel layerDefault layerDefault
           Infinity Infinity initialGlobals wfGlobals_initial).
  vm_compute. reflexivity.
Defined.

(* ===================================================================== *)
(** * Properties of the UI queries and of the combined query *)
(* ===================================================================== *)

Lemma node_size_child (n c : Node) : c ∈ children n → node_size c < node_size n.
Proof.
  destruct n as [r l a u ch wm ws]. simpl. intros Hc.
  induction ch as [|c' ch IH]; [by apply elem_of_nil in Hc|].
  simpl. apply elem_of_cons in Hc as [->|Hc]; [lia|].
  specialize (IH Hc). lia.
Qed.

(** Recording into either pool: [mk] is the constructor of the
    references of the pool. *)
Lemma recorded_add_generic (mk : nat → ResultRef) (arr : ResultArray) (p : RecyclePool.t)
    (rs : list IRaycastResult) (r : IRaycastResult) :
  RecyclePool._count p = length rs → 0 < length (RecyclePool._data p) →
  take (length rs) (RecyclePool._data p) = rs →
  take (length rs) arr = (λ i, Some (mk i)) <$> seq 0 (length rs) →
  let '(i, p') := RecyclePool.add p in
  let p'' := RecyclePool.write i r p' in
  let arr' := arraySet (RecyclePool.length p'' - 1) (mk i) arr in
  RecyclePool._count p'' = length (rs ++ [r]) ∧
  0 < length (RecyclePool._data p'') ∧
  take (length (rs ++ [r])) (RecyclePool._data p'') = rs ++ [r] ∧
  take (length (rs ++ [r])) arr' = (λ i, Some (mk i)) <$> seq 0 (length (rs ++ [r])).
Proof.
  intros Hc Hpos Hd Ha. destruct p as [data k]. simpl in *. subst k.
  assert (Hle : length rs ≤ length data).
  { rewrite <- Hd at 1. rewrite length_take. lia. }
  assert (Hla : length rs ≤ length arr).
  { apply (f_equal length) in Ha. rewrite length_take, length_fmap, length_seq in Ha. lia. }
  unfold RecyclePool.add, RecyclePool.resize, RecyclePool.write, RecyclePool.length. simpl.
  set (data' := RecyclePool._data
                  (if length data <=? length rs
                   then RecyclePool.mk (data ++ replicate (length data * 2 - length data)
                                                  RecyclePool.fresh_slot) (length rs)
                   else RecyclePool.mk data (length rs))).
  assert (Hdata' : take (length rs) data' = rs ∧ length rs < length data').
  { subst data'. destruct (Nat.leb_spec (length data) (length rs)); simpl.
    - rewrite take_app_le by lia. rewrite length_app, length_replicate. split; [done|lia].
    - split; [done|lia]. }
  destruct Hdata' as [Hd' Hlt'].
  replace (RecyclePool._count
             (if length data <=? length rs
              then RecyclePool.mk (data ++ replicate (length data * 2 - length data)
                                             RecyclePool.fresh_slot) (length rs)
              else RecyclePool.mk data (length rs))) with (length rs)
    by (by destruct (length data <=? length rs)).
  fold data'. simpl. rewrite Nat.sub_0_r. rewrite length_app. simpl.
  replace (length rs + 1) with (S (length rs)) by lia.
  split; [done|]. split; [rewrite length_insert; lia|]. split.
  - rewrite (take_S_r _ _ r) by (by apply list_lookup_insert_eq).
    by rewrite take_insert_ge, Hd' by lia.
  - rewrite seq_S, fmap_app. simpl. unfold arraySet.
    destruct (Nat.ltb_spec (length rs) (length arr)).
    + rewrite (take_S_r _ _ (Some (mk (length rs)))) by (by apply list_lookup_insert_eq).
      by rewrite take_insert_ge, Ha by lia.
    + replace (length rs - length arr) with 0 by lia. simpl.
      rewrite take_ge by (rewrite length_app; simpl; lia).
      rewrite <- Ha. by rewrite (take_ge arr) by lia.
Qed.

Section CanvasFacts.

Context `{E : Externals}.

#[local] Arguments RecyclePool.add : simpl never.
#[local] Arguments RecyclePool.write : simpl never.
#[local] Arguments RecyclePool.length : simpl never.

Lemma _raycastUI2DNode_uiHitOf worldRay n mask distance g :
  _raycastUI2DNode worldRay n mask distance g =
    match uiHitOf worldRay mask distance n with
    | None => (g, None)
    | Some r =>
        let '(i, p) := RecyclePool.add (poolUI g) in
        (setPoolUI (RecyclePool.write i r p) g, Some (InPoolUI i))
    end.
Proof.
  unfold _raycastUI2DNode, uiHitOf.
  destruct (uiTransformComp n) as [t|]; [|done].
  destruct (truthy (bitand (layer n) Layers_IGNORE_RAYCAST)
            || negb (truthy (bitand (layer n) mask))); [done|].
  destruct (le (intersect_rayAABB worldRay (getComputeAABB t)) zero); [done|].
  by destruct (lt (intersect_rayAABB worldRay (getComputeAABB t)) distance).
Qed.

Lemma recursive_unfold worldRay n mask distance g :
  _raycastUI2DNodeRecursiveChildren worldRay n mask distance g =
    let '(g, result) := _raycastUI2DNode worldRay n mask distance g in
    let g := match result with
             | Some r => setResultCanvas
                           (arraySet (RecyclePool.length (poolUI g) - 1) r (resultCanvas g)) g
             | None => g
             end in
    fold_left
      (λ g node,
         if active node then _raycastUI2DNodeRecursiveChildren worldRay node mask distance g
         else g)
      (children n) g.
Proof. by destruct n. Qed.

Lemma uiHits_unfold worldRay mask distance n :
  uiHits worldRay mask distance n =
    option_list (uiHitOf worldRay mask distance n) ++
    flat_map (λ c, if active c then uiHits worldRay mask distance c else []) (children n).
Proof. by destruct n. Qed.

(** The step of one node, before its children. *)
Lemma ui_node_step worldRay n mask distance g rs :
  recordedUI (resultCanvas g) (poolUI g) rs →
  let '(g1, result) := _raycastUI2DNode worldRay n mask distance g in
  let g2 := match result with
            | Some r => setResultCanvas
                          (arraySet (RecyclePool.length (poolUI g1) - 1) r (resultCanvas g1)) g1
            | None => g1
            end in
  recordedUI (resultCanvas g2) (poolUI g2) (rs ++ option_list (uiHitOf worldRay mask distance n)) ∧
  pool g2 = pool g ∧ resultModels g2 = resultModels g.
Proof.
  intros (Hc & Hpos & Hd & Ha). rewrite _raycastUI2DNode_uiHitOf.
  destruct (uiHitOf worldRay mask distance n) as [r|].
  - pose proof (recorded_add_generic InPoolUI (resultCanvas g) (poolUI g) rs r Hc Hpos Hd Ha)
      as Hadd.
    destruct (RecyclePool.add (poolUI g)) as [i p']. cbv zeta in Hadd.
    cbn [option_list poolUI resultCanvas pool resultModels setPoolUI setResultCanvas].
    split; [exact Hadd|done].
  - cbn [option_list]. rewrite app_nil_r. done.
Qed.

Lemma ui_subtree_recorded worldRay mask distance (k : nat) :
  ∀ n g rs, node_size n ≤ k →
    recordedUI (resultCanvas g) (poolUI g) rs →
    recordedUI (resultCanvas (_raycastUI2DNodeRecursiveChildren worldRay n mask distance g))
      (poolUI (_raycastUI2DNodeRecursiveChildren worldRay n mask distance g))
      (rs ++ uiHits worldRay mask distance n) ∧
    pool (_raycastUI2DNodeRecursiveChildren worldRay n mask distance g) = pool g ∧
    resultModels (_raycastUI2DNodeRecursiveChildren worldRay n mask distance g)
      = resultModels g.
Proof.
  induction k as [|k IH]; intros n g rs Hk Hrec.
  - destruct n; simpl in Hk; lia.
  - rewrite recursive_unfold, uiHits_unfold.
    pose proof (ui_node_step worldRay n mask distance g rs Hrec) as Hstep.
    destruct (_raycastUI2DNode worldRay n mask distance g) as [g1 result].
    cbv zeta in Hstep.
    set (g2 := match result with
               | Some r => setResultCanvas
                             (arraySet (RecyclePool.length (poolUI g1) - 1) r (resultCanvas g1)) g1
               | None => g1
               end) in *.
    destruct Hstep as (Hrec2 & Hp2 & Hm2). rewrite <- Hp2, <- Hm2.
    assert (Hch : ∀ c, c ∈ children n → node_size c ≤ k).
    { intros c Hc. pose proof (node_size_child n c Hc). lia. }
    clear Hp2 Hm2 Hrec Hk. rewrite app_assoc.
    revert Hrec2 Hch.
    generalize (rs ++ option_list (uiHitOf worldRay mask distance n)).
    generalize g2. clear g2 g1 result g rs.
    induction (children n) as [|c ch IHch]; intros g rs Hrec Hch.
    + simpl. by rewrite app_nil_r.
    + cbn [fold_left flat_map].
      assert (Hstep : recordedUI
                (resultCanvas (if active c
                               then _raycastUI2DNodeRecursiveChildren worldRay c mask distance g
                               else g))
                (poolUI (if active c
                         then _raycastUI2DNodeRecursiveChildren worldRay c mask distance g
                         else g))
                (rs ++ (if active c then uiHits worldRay mask distance c else [])) ∧
              pool (if active c
                    then _raycastUI2DNodeRecursiveChildren worldRay c mask distance g
                    else g) = pool g ∧
              resultModels (if active c
                            then _raycastUI2DNodeRecursiveChildren worldRay c mask distance g
                            else g) = resultModels g).
      { destruct (active c).
        - apply IH; [apply Hch, list_elem_of_here|done].
        - by rewrite app_nil_r. }
      destruct Hstep as (Hrec' & Hp' & Hm').
      destruct (IHch _ _ Hrec' (λ c' Hc', Hch c' (list_elem_of_further _ _ _ Hc')))
        as (Hrec'' & Hp'' & Hm'').
      rewrite app_assoc. split; [exact Hrec''|]. split; congruence.
Qed.

(** The state [raycastAllCanvas] leaves behind. *)
Lemma raycastAllCanvas_state canvasComs worldRay mask distance g :
  wfGlobals g →
  let out := raycastAllCanvas canvasComs worldRay mask distance g in
  let rs := canvasHits worldRay mask distance canvasComs in
  resultCanvas out.1 = (λ i, Some (InPoolUI i)) <$> seq 0 (length rs) ∧
  take (length rs) (RecyclePool._data (poolUI out.1)) = rs ∧
  out.2 = (0 <? length rs) ∧
  pool out.1 = pool g ∧ resultModels out.1 = resultModels g ∧ wfGlobals out.1.
Proof.
  intros [Hwf HwfUI] out rs. subst out rs. unfold raycastAllCanvas, canvasHits. cbv zeta.
  set (g0 := setPoolUI (RecyclePool.reset (poolUI g)) g).
  assert (Hrec0 : recordedUI (resultCanvas g0) (poolUI g0) []).
  { subst g0. unfold recordedUI. simpl. by rewrite !take_0. }
  assert (Hfold : ∀ g rs, recordedUI (resultCanvas g) (poolUI g) rs →
            let g' := foldl
                        (λ g canvasNode,
                           if active canvasNode
                           then _raycastUI2DNodeRecursiveChildren worldRay canvasNode mask
                                  distance g
                           else g) g canvasComs in
            recordedUI (resultCanvas g') (poolUI g')
              (rs ++ flat_map (λ c, if active c then uiHits worldRay mask distance c else [])
                       canvasComs) ∧
            pool g' = pool g ∧ resultModels g' = resultModels g).
  { clear. induction canvasComs as [|c cs IH]; intros g rs Hrec g'; subst g'.
    - simpl. by rewrite app_nil_r.
    - cbn [foldl flat_map].
      assert (Hstep : recordedUI
                (resultCanvas (if active c
                               then _raycastUI2DNodeRecursiveChildren worldRay c mask distance g
                               else g))
                (poolUI (if active c
                         then _raycastUI2DNodeRecursiveChildren worldRay c mask distance g
                         else g))
                (rs ++ (if active c then uiHits worldRay mask distance c else [])) ∧
              pool (if active c
                    then _raycastUI2DNodeRecursiveChildren worldRay c mask distance g
                    else g) = pool g ∧
              resultModels (if active c
                            then _raycastUI2DNodeRecursiveChildren worldRay c mask distance g
                            else g) = resultModels g).
      { destruct (active c).
        - by apply (ui_subtree_recorded worldRay mask distance (node_size c)).
        - by rewrite app_nil_r. }
      destruct Hstep as (Hrec' & Hp' & Hm').
      destruct (IH _ _ Hrec') as (Hrec'' & Hp'' & Hm'').
      rewrite app_assoc. split; [exact Hrec''|]. split; congruence. }
  destruct (Hfold g0 [] Hrec0) as ((Hc & Hpos & Hd & Ha) & Hp & Hm).
  rewrite app_nil_l in Hc, Hd, Ha.
  set (gf := foldl _ g0 canvasComs) in *.
  set (rs := flat_map _ canvasComs) in *.
  assert (Hla : length rs ≤ length (resultCanvas gf)).
  { apply (f_equal length) in Ha. rewrite length_take, length_fmap, length_seq in Ha. lia. }
  assert (Hset : setLength (RecyclePool.length (poolUI gf)) (resultCanvas gf)
                 = (λ i, Some (InPoolUI i)) <$> seq 0 (length rs)).
  { unfold setLength, RecyclePool.length. rewrite Hc.
    replace (length rs - length (resultCanvas gf)) with 0 by lia.
    simpl. by rewrite app_nil_r. }
  cbn [fst snd resultCanvas resultModels pool poolUI setResultCanvas].
  rewrite Hset, length_fmap, length_seq, Hp, Hm.
  repeat split; try done.
  cbn [pool setResultCanvas]. by rewrite Hp.
Qed.

Lemma rayResultCanvas_state g (rs : list IRaycastResult) :
  resultCanvas g = (λ i, Some (InPoolUI i)) <$> seq 0 (length rs) →
  take (length rs) (RecyclePool._data (poolUI g)) = rs →
  rayResultCanvas g = Some <$> rs.
Proof.
  intros Harr Hd. unfold rayResultCanvas. rewrite Harr, <- list_fmap_compose.
  apply list_eq. intros i. rewrite !list_lookup_fmap.
  destruct (decide (i < length rs)) as [Hi|Hi].
  - rewrite lookup_seq_lt by done. simpl. unfold RecyclePool.read.
    destruct (lookup_lt_is_Some_2 rs i Hi) as [r Hr]. rewrite Hr. simpl. f_equal.
    rewrite <- Hd in Hr. by rewrite lookup_take_lt in Hr.
  - rewrite lookup_seq_ge by lia. by rewrite lookup_ge_None_2 by lia.
Qed.

Lemma raycastAllCanvas_results canvasComs worldRay mask distance g :
  wfGlobals g →
  rayResultCanvas (raycastAllCanvas canvasComs worldRay mask distance g).1
    = Some <$> canvasHits worldRay mask distance canvasComs ∧
  (raycastAllCanvas canvasComs worldRay mask distance g).2
    = (0 <? length (canvasHits worldRay mask distance canvasComs)).
Proof.
  intros Hwf.
  destruct (raycastAllCanvas_state canvasComs worldRay mask distance g Hwf)
    as (Harr & Hd & Hret & _).
  cbv zeta in Harr, Hd, Hret.
  by rewrite (rayResultCanvas_state _ _ Harr Hd), Hret.
Qed.

(** X13. [raycastAllCanvas] reports the nodes depth first, a node
    before its children and the children in their order: the results are
    those of every active canvas node and of the descendants that are
    reached through active nodes only.  An inactive node hides its whole
    subtree; a node without a result of its own does not hide its
    children.  There is no hole in the results, the flag says whether
    there is a result, and results that an earlier query left are gone. *)
Theorem raycastAllCanvas_reports_depth_first
    (canvasComs : list Node) (worldRay : Ray) (mask : Z) (distance : number) (g : Globals) :
  wfGlobals g →
  rayResultCanvas (raycastAllCanvas canvasComs worldRay mask distance g).1
    = Some <$> canvasHits worldRay mask distance canvasComs ∧
  (raycastAllCanvas canvasComs worldRay mask distance g).2
    = (0 <? length (rayResultCanvas (raycastAllCanvas canvasComs worldRay mask distance g).1)).
Proof.
  intros Hwf.
  destruct (raycastAllCanvas_results canvasComs worldRay mask distance g Hwf) as [Hres Hret].
  by rewrite Hres, Hret, length_fmap.
Qed.

Lemma uiHitOf_Some worldRay mask distance n r :
  uiHitOf worldRay mask distance n = Some r →
  ∃ t, uiTransformComp n = Some t ∧
       truthy (bitand (layer n) Layers_IGNORE_RAYCAST) = false ∧
       truthy (bitand (layer n) mask) = true ∧
       r = mkResult (Some n) (intersect_rayAABB worldRay (getComputeAABB t)) ∧
       le (r_distance r) zero = false ∧ lt (r_distance r) distance = true.
Proof.
  unfold uiHitOf. destruct (uiTransformComp n) as [t|]; [|done].
  destruct (truthy (bitand (layer n) Layers_IGNORE_RAYCAST)); [done|].
  destruct (truthy (bitand (layer n) mask)); [|done]. cbn [negb orb].
  destruct (le (intersect_rayAABB worldRay (getComputeAABB t)) zero) eqn:Hle; [done|].
  destruct (lt (intersect_rayAABB worldRay (getComputeAABB t)) distance) eqn:Hlt; [|done].
  intros [= <-]. by exists t.
Qed.

Lemma uiHits_sound worldRay mask distance (k : nat) :
  ∀ n r, node_size n ≤ k → r ∈ uiHits worldRay mask distance n →
    ∃ n', uiHitOf worldRay mask distance n' = Some r.
Proof.
  induction k as [|k IH]; intros n r Hk Hr.
  - destruct n; simpl in Hk; lia.
  - rewrite uiHits_unfold in Hr. apply elem_of_app in Hr as [Hr|Hr].
    + exists n.
      destruct (uiHitOf worldRay mask distance n) as [r'|]; simpl in Hr.
      * apply list_elem_of_In in Hr. destruct Hr as [->|[]]. done.
      * by apply elem_of_nil in Hr.
    + apply list_elem_of_In, in_flat_map in Hr. destruct Hr as (c & Hc & Hrc).
      apply list_elem_of_In in Hc.
      destruct (active c) eqn:Hact; [|destruct Hrc].
      apply list_elem_of_In in Hrc.
      pose proof (node_size_child n c Hc) as Hsz.
      apply (IH c r); [lia|done].
Qed.

(** X14. What [raycastAllCanvas] never reports: every result carries
    a node that has a UI transform, whose layer does not carry the
    ignore-raycast bit and shares a bit with the mask, and the distance
    is that of the ray to the box of the node, not [<= 0] and strictly
    below the cap. *)
Theorem raycastAllCanvas_reports_only_unmasked_hits
    (canvasComs : list Node) (worldRay : Ray) (mask : Z) (distance : number) (g : Globals) :
  wfGlobals g →
  ∀ r, r ∈ rayResultCanvas (raycastAllCanvas canvasComs worldRay mask distance g).1 →
    ∃ n t,
      r = Some (mkResult (Some n) (intersect_rayAABB worldRay (getComputeAABB t))) ∧
      uiTransformComp n = Some t ∧
      truthy (bitand (layer n) Layers_IGNORE_RAYCAST) = false ∧
      truthy (bitand (layer n) mask) = true ∧
      le (intersect_rayAABB worldRay (getComputeAABB t)) zero = false ∧
      lt (intersect_rayAABB worldRay (getComputeAABB t)) distance = true.
Proof.
  intros Hwf r Hr.
  destruct (raycastAllCanvas_results canvasComs worldRay mask distance g Hwf) as [Hres _].
  rewrite Hres in Hr. apply list_elem_of_fmap in Hr as (res & -> & Hres').
  unfold canvasHits in Hres'.
  apply list_elem_of_In, in_flat_map in Hres'. destruct Hres' as (c & _ & Hrc).
  destruct (active c); [|destruct Hrc]. apply list_elem_of_In in Hrc.
  destruct (uiHits_sound worldRay mask distance (node_size c) c res (le_n _) Hrc)
    as (n' & Hn').
  destruct (uiHitOf_Some _ _ _ _ _ Hn') as (t & Ht & Hign & Hmask & -> & Hle & Hlt).
  exists n', t. done.
Qed.

End CanvasFacts.

Section CombinedQuery.

Context `{E : Externals}.

(** X15. [raycastAll] reports the results of the model query followed
    by those of the UI query, each list as the query alone leaves it;
    the flag says whether there is a result. *)
Theorem raycastAll_is_models_then_canvas
    (s : RenderScene) (canvasComs : list Node) (worldRay : Ray) (mask : Z)
    (distance : number) (g : Globals) :
  wfGlobals g →
  let out := raycastAll s canvasComs worldRay mask distance g in
  rayResultAll out.1 = rayResultModels out.1 ++ rayResultCanvas out.1 ∧
  rayResultModels out.1 = rayResultModels (raycastAllModels s worldRay mask distance g).1 ∧
  rayResultCanvas out.1 = rayResultCanvas (raycastAllCanvas canvasComs worldRay mask distance g).1 ∧
  out.2 = ((raycastAllModels s worldRay mask distance g).2
           || (raycastAllCanvas canvasComs worldRay mask distance g).2) ∧
  out.2 = (0 <? length (rayResultAll out.1)).
Proof.
  intros Hwf out. subst out. unfold raycastAll.
  destruct (raycastAllModels_results s worldRay mask distance g Hwf) as (Hres1 & Hret1 & Hwf1).
  destruct (raycastAllModels_state s worldRay mask distance g Hwf) as (Harr1 & _).
  cbv zeta in Hres1, Hret1, Hwf1, Harr1.
  destruct (raycastAllModels s worldRay mask distance g) as [g1 r3d].
  cbn [fst snd] in *.
  destruct (raycastAllCanvas_state canvasComs worldRay mask distance g1 Hwf1)
    as (Harr2 & Hd2 & Hret2 & Hp2 & Hm2 & _).
  destruct (raycastAllCanvas_results canvasComs worldRay mask distance g Hwf) as [Hres0 Hret0].
  rewrite Hres0, Hret0. clear Hres0 Hret0.
  cbv zeta in Harr2, Hd2, Hret2, Hp2, Hm2.
  pose proof (rayResultCanvas_state _ _ Harr2 Hd2) as Hres2.
  destruct (raycastAllCanvas canvasComs worldRay mask distance g1) as [g2 rui].
  cbn [fst snd] in *.
  assert (HresM : rayResultModels g2 = rayResultModels g1).
  { unfold rayResultModels. rewrite Hm2. apply list_fmap_ext. intros i r H.
    destruct r as [[j|j]|]; unfold deref; [by rewrite Hp2| |done].
    rewrite Harr1 in H.
    apply list_lookup_fmap_Some in H as (x & [=] & _). }
  assert (Hall : ∀ l, rayResultAll (setResultAll l (setResultAll [] g2)) = deref g2 <$> l).
  { intros l. by destruct g2. }
  assert (HM : ∀ l, rayResultModels (setResultAll l g2) = rayResultModels g2).
  { intros l. by destruct g2. }
  assert (HC : ∀ l, rayResultCanvas (setResultAll l g2) = rayResultCanvas g2).
  { intros l. by destruct g2. }
  assert (HM' : ∀ l, rayResultModels (setResultAll l (setResultAll [] g2)) = rayResultModels g2).
  { intros l. by destruct g2. }
  assert (HC' : ∀ l, rayResultCanvas (setResultAll l (setResultAll [] g2)) = rayResultCanvas g2).
  { intros l. by destruct g2. }
  assert (Hall0 : rayResultAll (setResultAll [] g2) = []).
  { by destruct g2. }
  subst r3d rui.
  destruct ((0 <? length (omap (hitOf worldRay mask distance) (_models s)))
            || (0 <? length (canvasHits worldRay mask distance canvasComs))) eqn:Hhit;
    cbn [fst snd].
  - rewrite Hall, HM', HC'.
    assert (Hr : resultAll (setResultAll [] g2) = []) by (by destruct g2).
    assert (Hr1 : resultModels (setResultAll [] g2) = resultModels g2) by (by destruct g2).
    assert (Hr2 : resultCanvas (setResultAll [] g2) = resultCanvas g2) by (by destruct g2).
    rewrite Hr, Hr1, Hr2, app_nil_l, fmap_app.
    fold (rayResultModels g2). fold (rayResultCanvas g2).
    rewrite HresM, Hres1, Hres2.
    repeat split; try done.
    rewrite length_app, !length_fmap.
    destruct (length (omap (hitOf worldRay mask distance) (_models s))),
      (length (canvasHits worldRay mask distance canvasComs)); done.
  - rewrite Hall0, HM, HC, HresM, Hres1, Hres2.
    apply orb_false_iff in Hhit as [Hret1 Hret2].
    apply Nat.ltb_ge in Hret1, Hret2.
    assert (H1 : omap (hitOf worldRay mask distance) (_models s) = []).
    { apply length_zero_iff_nil. lia. }
    assert (H2 : canvasHits worldRay mask distance canvasComs = []).
    { apply length_zero_iff_nil. lia. }
    rewrite H1, H2. done.
Qed.

End CombinedQuery.

Lemma raycastAllCanvas_reports_depth_first_witness :
  wfGlobals initialGlobals ∧
  rayResultCanvas
    (raycastAllCanvas (E := sceneExternals) [testCanvas] testRay layerDefault ten
       initialGlobals).1
    = Some <$> canvasHits (E := sceneExternals) testRay layerDefault ten [testCanvas] ∧
  (raycastAllCanvas (E := sceneExternals) [testCanvas] testRay layerDefault ten
     initialGlobals).2
    = (0 <? length (rayResultCanvas
                      (raycastAllCanvas (E := sceneExternals) [testCanvas] testRay
                         layerDefault ten initialGlobals).1)).
Proof.
  split; [apply wfGlobals_initial|].
  apply (raycastAllCanvas_reports_depth_first (E := sceneExternals)), wfGlobals_initial.
Defined.

Lemma raycastAllCanvas_reports_only_unmasked_hits_witness :
  wfGlobals initialGlobals ∧
  ∀ r, r ∈ rayResultCanvas
             (raycastAllCanvas (E := sceneExternals) [testCanvas] testRay layerDefault ten
                initialGlobals).1 →
    ∃ n t,
      r = Some (mkResult (Some n)
                  (intersect_rayAABB (Externals := sceneExternals) testRay (getComputeAABB t))) ∧
      uiTransformComp n = Some t ∧
      truthy (bitand (layer n) (Layers_IGNORE_RAYCAST (Externals := sceneExternals))) = false ∧
      truthy (bitand (layer n) layerDefault) = true ∧
      le (intersect_rayAABB (Externals := sceneExternals) testRay (getComputeAABB t)) zero
        = false ∧
      lt (intersect_rayAABB (Externals := sceneExternals) testRay (getComputeAABB t)) ten
        = true.
Proof.
  split; [apply wfGlobals_initial|].
  apply (raycastAllCanvas_reports_only_unmasked_hits (E := sceneExternals)), wfGlobals_initial.
Defined.

Lemma raycastAll_is_models_then_canvas_witness :
  wfGlobals initialGlobals ∧
  let out := raycastAll (E := sceneExternals) (sceneOf [skinnedModel; twoTriangleModel])
               [testCanvas] testRay layerDefault ten initialGlobals in
  rayResultAll out.1 = rayResultModels out.1 ++ rayResultCanvas out.1 ∧
  rayResultModels out.1
    = rayResultModels (raycastAllModels (E := sceneExternals)
                         (sceneOf [skinnedModel; twoTriangleModel]) testRay layerDefault ten
                         initialGlobals).1 ∧
  rayResultCanvas out.1
    = rayResultCanvas (raycastAllCanvas (E := sceneExternals) [testCanvas] testRay layerDefault
                         ten initialGlobals).1 ∧
  out.2 = ((raycastAllModels (E := sceneExternals)
              (sceneOf [skinnedModel; twoTriangleModel]) testRay layerDefault ten
              initialGlobals).2
           || (raycastAllCanvas (E := sceneExternals) [testCanvas] testRay layerDefault ten
                 initialGlobals).2) ∧
  out.2 = (0 <? length (rayResultAll out.1)).
Proof.
  split; [apply wfGlobals_initial|].
  apply (raycastAll_is_models_then_canvas (E := sceneExternals)), wfGlobals_initial.
Defined.

(** The canvas of the example: the root at 4 and the grandchild at 2
    that sits below the ignored node; the inactive child hides its own
    child. *)
Example testCanvas_results :
  rayResultCanvas
    (raycastAllCanvas (E := sceneExternals) [testCanvas] testRay layerDefault ten
       initialGlobals).1
  = [ Some (mkResult (Some testCanvas) four);
      Some (mkResult (Some (uiNode 64%positive layerDefault true two [])) two) ].
Proof. vm_compute. reflexivity. Qed.

(* ===================================================================== *)
(** * Properties of the narrow phase *)
(* ===================================================================== *)

Lemma loopIndices_step3 fuel (j cnt : Z) :
  Z.to_nat ((cnt - j + 2) / 3) ≤ fuel →
  loopIndices fuel j cnt 3
    = (λ i, j + 3 * Z.of_nat i)%Z <$> seq 0 (Z.to_nat ((cnt - j + 2) / 3)).
Proof.
  revert j. induction fuel as [|fuel IH]; intros j Hf; simpl.
  - by replace (Z.to_nat ((cnt - j + 2) / 3)) with 0 by lia.
  - destruct (Z.ltb_spec j cnt) as [Hlt|Hge].
    + assert (Hdiv : ((cnt - j + 2) / 3 = 1 + (cnt - (j + 3) + 2) / 3)%Z).
      { replace (cnt - j + 2)%Z with (1 * 3 + (cnt - (j + 3) + 2))%Z by lia.
        by rewrite Z.div_add_l by lia. }
      assert (Hpos : (-1 ≤ (cnt - (j + 3) + 2) / 3)%Z).
      { apply Z.div_le_lower_bound; lia. }
      destruct (decide ((cnt - (j + 3) + 2) / 3 = -1)%Z) as [Hm|Hm].
      * exfalso. assert (cnt - (j + 3) + 2 < 0)%Z; [|lia].
        destruct (Z.lt_ge_cases (cnt - (j + 3) + 2) 0) as [?|H0]; [done|].
        pose proof (Z.div_pos _ 3 H0 ltac:(lia)). lia.
      * rewrite IH by lia. rewrite Hdiv.
        replace (Z.to_nat (1 + (cnt - (j + 3) + 2) / 3))
          with (S (Z.to_nat ((cnt - (j + 3) + 2) / 3))) by lia.
        simpl. f_equal; [lia|].
        rewrite <- fmap_S_seq, <- list_fmap_compose. apply list_fmap_ext.
        intros i k _. simpl. lia.
    + assert (((cnt - j + 2) / 3 ≤ 0)%Z).
      { destruct (Z.lt_ge_cases (cnt - j + 2) 0) as [Hn|Hn].
        - pose proof (Z.div_lt_upper_bound (cnt - j + 2) 3 0 ltac:(lia) ltac:(lia)). lia.
        - rewrite Z.div_small by lia. lia. }
      by replace (Z.to_nat ((cnt - j + 2) / 3)) with 0 by lia.
Qed.

Lemma index3_out_of_range (ib : list nat) (j : nat) :
  length ib ≤ j → index3 ib (Z.of_nat j) = None.
Proof.
  intros Hj. unfold index3, arrayGet.
  destruct (Z.ltb_spec (Z.of_nat j) 0) as [?|_]; [done|].
  rewrite Nat2Z.id. by rewrite lookup_ge_None_2.
Qed.

Lemma list_loop_count (k r : nat) :
  r < 3 → Z.to_nat ((Z.of_nat (3 * k + r) - 0 + 2) / 3) = k + (if decide (r = 0) then 0 else 1).
Proof.
  intros Hr.
  replace (Z.of_nat (3 * k + r) - 0 + 2)%Z with (Z.of_nat k * 3 + (Z.of_nat r + 2))%Z by lia.
  rewrite Z.div_add_l by lia.
  destruct r as [|[|[|r]]]; [| | |lia].
  - change ((Z.of_nat 0 + 2) / 3)%Z with 0%Z. destruct (decide (0 = 0)); lia.
  - change ((Z.of_nat 1 + 2) / 3)%Z with 1%Z. destruct (decide (1 = 0)); lia.
  - change ((Z.of_nat 2 + 2) / 3)%Z with 1%Z. destruct (decide (2 = 0)); lia.
Qed.

Section NarrowphaseFacts.

Context `{E : Externals}.

(** X16. For a triangle list the narrow phase tests the full triples
    [(ib[3i], ib[3i+1], ib[3i+2])] in order and then, when one or two
    indices are left over, one more triangle whose missing corners are
    undefined vertices: the loop runs while [j < ib.length] and never
    looks whether [j + 2] is an index. *)
Theorem narrowphase_list_tests_trailing_partial_triple
    (vb : list number) (ib : list nat) (sides : bool) (distance : number) (g : Globals)
    (k r : nat) :
  length ib = 3 * k + r → r < 3 →
  tested (narrowphase vb ib TRIANGLE_LIST sides distance g)
    = tested g ++ (listTriple vb ib <$> seq 0 k) ++ partialTriple vb ib k r.
Proof.
  intros Hlen Hr. rewrite narrowphase_eq. cbn [tested trianglesOf]. f_equal.
  rewrite loopIndices_step3 by (rewrite Hlen, list_loop_count by done; destruct (decide _); lia).
  rewrite Hlen at 1. rewrite list_loop_count by done.
  rewrite seq_app, fmap_app, fmap_app, <- !list_fmap_compose. f_equal.
  - apply list_fmap_ext. intros i x Hx. apply lookup_seq in Hx as [-> Hi]. simpl.
    unfold listTriangle, listTriple, triangleOf.
    replace (0 + 3 * Z.of_nat i)%Z with (Z.of_nat (3 * i)) by lia.
    replace (Z.of_nat (3 * i) + 1)%Z with (Z.of_nat (3 * i + 1)) by lia.
    replace (Z.of_nat (3 * i) + 2)%Z with (Z.of_nat (3 * i + 2)) by lia.
    by rewrite !nth_lookup_index3 by lia.
  - destruct (decide (r = 0)) as [->|Hr0]; [done|]. cbn [seq fmap list_fmap compose].
    unfold listTriangle, partialTriple, undefinedVertex.
    replace (0 + 3 * Z.of_nat (0 + k))%Z with (Z.of_nat (3 * k)) by lia.
    replace (Z.of_nat (3 * k) + 1)%Z with (Z.of_nat (3 * k + 1)) by lia.
    replace (Z.of_nat (3 * k) + 2)%Z with (Z.of_nat (3 * k + 2)) by lia.
    destruct r as [|[|[|r]]]; [done| | |lia].
    + rewrite (nth_lookup_index3 ib (3 * k)) by lia.
      by rewrite !index3_out_of_range by lia.
    + rewrite (nth_lookup_index3 ib (3 * k)), (nth_lookup_index3 ib (3 * k + 1)) by lia.
      by rewrite index3_out_of_range by lia.
Qed.

(** X17. For a triangle fan of [n] indices the narrow phase tests the
    [n - 2] triangles [(ib[0], ib[k+1], ib[k+2])] in order, each once,
    and no other: every corner is an index of the buffer. *)
Theorem narrowphase_fan_windows
    (vb : list number) (ib : list nat) (sides : bool) (distance : number) (g : Globals) :
  tested (narrowphase vb ib TRIANGLE_FAN sides distance g)
    = tested g ++ (fanWindow vb ib <$> seq 0 (length ib - 2)) ∧
  narrowDis (narrowphase vb ib TRIANGLE_FAN sides distance g)
    = nearest (modelRay g) sides distance (fanWindow vb ib <$> seq 0 (length ib - 2)).
Proof.
  rewrite narrowphase_eq. cbn [tested narrowDis trianglesOf].
  assert (H : fanTriangle vb ib <$> loopIndices (length ib) 1 (Z.of_nat (length ib) - 1) 1
              = fanWindow vb ib <$> seq 0 (length ib - 2)).
  { rewrite loopIndices_step1 by lia.
    replace (Z.to_nat (Z.of_nat (length ib) - 1 - 1)) with (length ib - 2) by lia.
    rewrite <- list_fmap_compose. apply list_fmap_ext.
    intros i x Hx. apply lookup_seq in Hx as [-> Hi]. simpl.
    unfold fanTriangle, fanWindow, triangleOf.
    replace (1 + Z.of_nat i)%Z with (Z.of_nat (i + 1)) by lia.
    replace (Z.of_nat (i + 1) + 1)%Z with (Z.of_nat (i + 2)) by lia.
    change 0%Z with (Z.of_nat 0).
    by rewrite !nth_lookup_index3 by lia. }
  by rewrite H.
Qed.

(** X18. The number of ray-triangle tests of one narrow phase: for
    [n] indices a list makes [ceil (n / 3)] tests, a strip and a fan
    [n - 2], and the point and line modes none, in which case the best
    distance is the cap.  Whatever the mode, the narrow phase changes
    nothing but the best distance. *)
Theorem narrowphase_test_count
    (vb : list number) (ib : list nat) (pm : PrimitiveMode) (sides : bool)
    (distance : number) (g : Globals) :
  length (tested (narrowphase vb ib pm sides distance g))
    = length (tested g) + testCount pm (length ib) ∧
  (testCount pm (length ib) = 0 → narrowDis (narrowphase vb ib pm sides distance g) = distance) ∧
  modelRay (narrowphase vb ib pm sides distance g) = modelRay g ∧
  resultState (narrowphase vb ib pm sides distance g) = resultState g.
Proof.
  rewrite narrowphase_eq. cbn [tested narrowDis modelRay]. unfold resultState. simpl.
  assert (Hlen : length (trianglesOf vb ib pm) = testCount pm (length ib)).
  { destruct pm; simpl; try done.
    - rewrite length_fmap, loopIndices_step3.
      + rewrite length_fmap, length_seq.
        replace (Z.of_nat (length ib) - 0 + 2)%Z with (Z.of_nat (length ib + 2)) by lia.
        change 3%Z with (Z.of_nat 3). by rewrite <- Nat2Z.inj_div, Nat2Z.id.
      + replace (Z.of_nat (length ib) - 0 + 2)%Z with (Z.of_nat (length ib + 2)) by lia.
        change 3%Z with (Z.of_nat 3). rewrite <- Nat2Z.inj_div, Nat2Z.id.
        generalize (length ib). intros [|n]; [done|].
        apply Nat.Div0.div_le_upper_bound. lia.
    - by rewrite length_fmap, length_seq.
    - rewrite length_fmap, loopIndices_step1 by lia.
      rewrite length_fmap, length_seq. lia. }
  rewrite length_app, Hlen. repeat split; try done.
  intros H0. rewrite <- Hlen in H0. apply length_zero_iff_nil in H0. by rewrite H0.
Qed.

End NarrowphaseFacts.

Lemma narrowphase_list_tests_trailing_partial_triple_witness :
  length [0; 1; 2; 3] = 3 * 1 + 1 ∧ 1 < 3 ∧
  tested (narrowphase (E := sceneExternals) [one; two; three] [0; 1; 2; 3] TRIANGLE_LIST true
            ten initialGlobals)
    = tested initialGlobals ++ (listTriple [one; two; three] [0; 1; 2; 3] <$> seq 0 1)
        ++ partialTriple [one; two; three] [0; 1; 2; 3] 1 1.
Proof.
  split; [reflexivity|]. split; [lia|].
  apply (narrowphase_list_tests_trailing_partial_triple (E := sceneExternals)); [reflexivity|lia].
Defined.

Lemma narrowphase_test_count_witness :
  length (tested (narrowphase (E := sceneExternals) [one; two; three] [0; 1; 2] LINE_LIST true
                    ten initialGlobals))
    = length (tested initialGlobals) + testCount LINE_LIST (length [0; 1; 2]) ∧
  testCount LINE_LIST (length [0; 1; 2]) = 0 ∧
  narrowDis (narrowphase (E := sceneExternals) [one; two; three] [0; 1; 2] LINE_LIST true ten
               initialGlobals) = ten.
Proof.
  destruct (narrowphase_test_count (E := sceneExternals) [one; two; three] [0; 1; 2] LINE_LIST
              true ten initialGlobals) as (H1 & H2 & _).
  split; [exact H1|]. split; [reflexivity|]. apply H2. reflexivity.
Defined.

(** ** The order of the comparison operators *)

Lemma SFcompare_key (x y : number) :
  isNaN x = false → isNaN y = false →
  SFcompare x y = Some (keyCompare (orderKey x) (orderKey y)).
Proof.
  destruct x as [sx|sx| |sx mx ex], y as [sy|sy| |sy my ey]; simpl; try done;
    intros _ _; try (destruct sx; try destruct sy; reflexivity);
    try (destruct sy; reflexivity).
  f_equal. destruct sx, sy; unfold keyCompare; simpl; try reflexivity.
  all: try (rewrite Z.compare_opp, (Z.compare_antisym ex ey)).
  all: destruct (ex ?= ey)%Z; reflexivity.
Qed.

Lemma keyCompare_Lt (k1 k2 : Z * Z * Z) : keyCompare k1 k2 = Lt ↔ keyLt k1 k2.
Proof.
  destruct k1 as [[c1 e1] m1], k2 as [[c2 e2] m2]. unfold keyCompare, keyLt. simpl.
  destruct (Z.compare_spec c1 c2), (Z.compare_spec e1 e2), (Z.compare_spec m1 m2);
    split; intros Hk; try done; try lia.
Qed.

Lemma keyCompare_not_Gt (k1 k2 : Z * Z * Z) : keyCompare k1 k2 ≠ Gt ↔ keyLe k1 k2.
Proof.
  destruct k1 as [[c1 e1] m1], k2 as [[c2 e2] m2]. unfold keyCompare, keyLe. simpl.
  destruct (Z.compare_spec c1 c2), (Z.compare_spec e1 e2), (Z.compare_spec m1 m2);
    split; intros Hk; try done; try lia.
Qed.

Lemma lt_key (x y : number) :
  isNaN x = false → isNaN y = false → (lt x y = true ↔ keyLt (orderKey x) (orderKey y)).
Proof.
  intros Hx Hy. unfold lt, SFltb. rewrite SFcompare_key by done.
  rewrite <- keyCompare_Lt. by destruct (keyCompare (orderKey x) (orderKey y)).
Qed.

Lemma le_key (x y : number) :
  isNaN x = false → isNaN y = false → (le x y = true ↔ keyLe (orderKey x) (orderKey y)).
Proof.
  intros Hx Hy. unfold le, SFleb. rewrite SFcompare_key by done.
  rewrite <- keyCompare_not_Gt. by destruct (keyCompare (orderKey x) (orderKey y)).
Qed.

Lemma le_not_NaN (x y : number) : le x y = true → isNaN x = false ∧ isNaN y = false.
Proof. destruct x as [| | |], y as [| | |]; done. Qed.

Lemma le_trans (x y z : number) : le x y = true → le y z = true → le x z = true.
Proof.
  intros H1 H2. destruct (le_not_NaN _ _ H1) as [Hx Hy]. destruct (le_not_NaN _ _ H2) as [_ Hz].
  apply le_key in H1, H2; try done. apply le_key; try done.
  unfold keyLe in *. lia.
Qed.

Lemma lt_le_trans (x y z : number) : lt x y = true → le y z = true → lt x z = true.
Proof.
  intros H1 H2. destruct (le_not_NaN _ _ H2) as [Hy Hz].
  pose proof (lt_not_NaN _ _ H1) as Hx.
  apply lt_key in H1; try done. apply le_key in H2; try done. apply lt_key; try done.
  unfold keyLe, keyLt in *. lia.
Qed.

Lemma lt_le (x y : number) : isNaN y = false → lt x y = true → le x y = true.
Proof.
  intros Hy H. pose proof (lt_not_NaN _ _ H) as Hx.
  apply lt_key in H; try done. apply le_key; try done. unfold keyLe, keyLt in *. lia.
Qed.

Lemma le_refl (x : number) : isNaN x = false → le x x = true.
Proof. intros Hx. apply le_key; try done. unfold keyLe. lia. Qed.

Lemma not_le_lt (x y : number) :
  isNaN x = false → isNaN y = false → le x y = false → lt y x = true.
Proof.
  intros Hx Hy H. apply lt_key; try done.
  assert (Hn : ¬ keyLe (orderKey x) (orderKey y)).
  { intros Hk. apply le_key in Hk; try done. congruence. }
  unfold keyLe, keyLt in *. lia.
Qed.

Lemma mul_NaN_l (y : number) : mul NaN y = NaN.
Proof. by destruct y. Qed.

Lemma Math_min_NaN_r (x : number) : Math_min x NaN = NaN.
Proof. unfold Math_min. by rewrite orb_true_r. Qed.

Lemma foldl_Math_min_NaN (l : list number) (b : number) :
  NaN ∈ l → foldl Math_min b l = NaN.
Proof.
  revert b. induction l as [|k l IH]; intros b Hin; [by apply elem_of_nil in Hin|].
  simpl. apply elem_of_cons in Hin as [<-|Hin].
  - rewrite Math_min_NaN_r. clear IH. induction l as [|k' l IH]; [done|]. simpl.
    by replace (Math_min NaN k') with NaN by done.
  - by apply IH.
Qed.

Section NearestFacts.

Context `{E : Externals}.

Lemma nearest_spec ray sides (tris : list Triangle) :
  ∀ b, isNaN b = false →
    (∀ t, t ∈ tris → isNaN (intersect_rayTriangle ray t sides) = false) →
    isNaN (nearest ray sides b tris) = false ∧
    le (nearest ray sides b tris) b = true ∧
    (nearest ray sides b tris = b ∨
     ∃ t, t ∈ tris ∧ nearest ray sides b tris = intersect_rayTriangle ray t sides ∧
          lt zero (nearest ray sides b tris) = true ∧ lt (nearest ray sides b tris) b = true) ∧
    ∀ t, t ∈ tris → lt zero (intersect_rayTriangle ray t sides) = true →
         le (nearest ray sides b tris) (intersect_rayTriangle ray t sides) = true.
Proof.
  unfold nearest. induction tris as [|t tris IH]; intros b Hb Hn.
  - simpl. split; [done|]. split; [by apply le_refl|]. split; [by left|].
    intros t Ht. by apply elem_of_nil in Ht.
  - cbn [foldl].
    pose proof (Hn t (list_elem_of_here _ _)) as Hd.
    assert (Hn' : ∀ t', t' ∈ tris → isNaN (intersect_rayTriangle ray t' sides) = false).
    { intros t' Ht'. by apply Hn, list_elem_of_further. }
    set (d := intersect_rayTriangle ray t sides) in *.
    assert (Hstep : nearestStep ray sides b t
                    = if le d zero || ge d b then b else d) by done.
    destruct (le d zero) eqn:Hle0.
    + (* not in front of the origin: skipped *)
      rewrite Hstep. cbn [orb].
      destruct (IH b Hb Hn') as (HN & Hleb & Hor & Hall).
      split; [done|]. split; [done|]. split.
      * destruct Hor as [?|(t' & Ht' & ?)]; [by left|right].
        exists t'. split; [by apply list_elem_of_further|done].
      * intros t' Ht' Hpos. apply elem_of_cons in Ht' as [->|Ht']; [|by apply Hall].
        fold d in Hpos. pose proof (lt_not_le _ _ Hpos). congruence.
    + destruct (ge d b) eqn:Hge.
      * (* not nearer than the best: skipped *)
        rewrite Hstep. cbn [orb].
        destruct (IH b Hb Hn') as (HN & Hleb & Hor & Hall).
        split; [done|]. split; [done|]. split.
        -- destruct Hor as [?|(t' & Ht' & ?)]; [by left|right].
           exists t'. split; [by apply list_elem_of_further|done].
        -- intros t' Ht' Hpos. apply elem_of_cons in Ht' as [->|Ht']; [|by apply Hall].
           fold d. by apply (le_trans _ b).
      * (* the new best *)
        rewrite Hstep. cbn [orb].
        destruct (IH d Hd Hn') as (HN & Hled & Hor & Hall).
        assert (Hdb : lt d b = true) by (by apply not_le_lt).
        assert (H0d : lt zero d = true) by (by apply not_le_lt).
        split; [done|]. split; [apply (le_trans _ d); [done|by apply lt_le]|]. split.
        -- right. destruct Hor as [Heq|(t' & Ht' & Heq & Hpos & Hlt)].
           ++ exists t. split; [apply list_elem_of_here|]. rewrite Heq. done.
           ++ exists t'. split; [by apply list_elem_of_further|].
              split; [done|]. split; [done|].
              apply (lt_le_trans _ d); [done|by apply lt_le].
        -- intros t' Ht' Hpos. apply elem_of_cons in Ht' as [->|Ht']; [done|by apply Hall].
Qed.

(** X19. The best distance of the narrow phase, when the
    ray-triangle test never gives [NaN]: it is at most the cap; it is the
    cap itself or the distance of a tested triangle that is positive and
    strictly below the cap; and no tested triangle has a smaller positive
    distance. *)
Theorem narrowphase_best_is_least_positive_distance
    (vb : list number) (ib : list nat) (pm : PrimitiveMode) (sides : bool)
    (distance : number) (g : Globals) :
  isNaN distance = false →
  (∀ t, t ∈ trianglesOf vb ib pm →
        isNaN (intersect_rayTriangle (modelRay g) t sides) = false) →
  le (narrowDis (narrowphase vb ib pm sides distance g)) distance = true ∧
  (narrowDis (narrowphase vb ib pm sides distance g) = distance ∨
   ∃ t, t ∈ trianglesOf vb ib pm ∧
        narrowDis (narrowphase vb ib pm sides distance g)
          = intersect_rayTriangle (modelRay g) t sides ∧
        lt zero (narrowDis (narrowphase vb ib pm sides distance g)) = true ∧
        lt (narrowDis (narrowphase vb ib pm sides distance g)) distance = true) ∧
  ∀ t, t ∈ trianglesOf vb ib pm →
       lt zero (intersect_rayTriangle (modelRay g) t sides) = true →
       le (narrowDis (narrowphase vb ib pm sides distance g))
          (intersect_rayTriangle (modelRay g) t sides) = true.
Proof.
  intros Hd Hn. rewrite narrowphase_eq. cbn [narrowDis].
  destruct (nearest_spec (modelRay g) sides (trianglesOf vb ib pm) distance Hd Hn)
    as (_ & H1 & H2 & H3).
  done.
Qed.

End NearestFacts.

Section NaNFacts.

Context `{E : Externals}.

Lemma nearestStep_NaN ray sides best t :
  isNaN (intersect_rayTriangle ray t sides) = true → nearestStep ray sides best t = NaN.
Proof.
  unfold nearestStep. destruct (intersect_rayTriangle ray t sides); try done.
  intros _. by destruct best.
Qed.

Lemma hitOf_NaN worldRay mask distance m tr sub gp tris t :
  type m = DEFAULT → transform m = Some tr → sub ∈ subModels m → geometryOf sub = Some gp →
  subTriangles gp = tris ++ [t] →
  isNaN (intersect_rayTriangle (localRay worldRay tr) t (doubleSided gp.1)) = true →
  hitOf worldRay mask distance m = None.
Proof.
  intros Hty Htr Hsub Hgp Htris Hnan.
  assert (HN : narrowDistance worldRay m tr distance = NaN).
  { unfold narrowDistance. apply foldl_Math_min_NaN.
    apply list_elem_of_fmap. exists gp. split.
    - unfold subDistance. rewrite Htris. unfold nearest. rewrite foldl_app. cbn [foldl].
      rewrite nearestStep_NaN by done. by rewrite mul_NaN_l.
    - apply list_elem_of_omap. by exists sub. }
  unfold hitOf, hitDistance. rewrite Htr, Hty.
  destruct (worldBounds m) as [bounds|]; [|done].
  destruct (negb (enabled m) || modelMaskRejects m mask); [done|].
  destruct (le (intersect_rayAABB worldRay bounds) zero
            || ge (intersect_rayAABB worldRay bounds) distance); [done|].
  cbn [ModelType_eqb]. rewrite HN. done.
Qed.

(** X20. A [NaN] hides the model.  When the ray-triangle test gives
    [NaN] for the last triangle of one sub-model of a model of the
    default type, the best distance of that narrow phase is [NaN], the
    minimum over the sub-models is [NaN], and the model is not reported,
    whatever its other triangles and sub-models are hit at: the query
    reports what it reports for the scene without the model. *)
Theorem nan_on_last_triangle_hides_model
    (s : RenderScene) (l1 l2 : list Model) (m : Model) (tr : Node) (sub : SubModel)
    (gp : GeometricInfo * PrimitiveMode) (tris : list Triangle) (t : Triangle)
    (worldRay : Ray) (mask : Z) (distance : number) (g : Globals) :
  wfGlobals g →
  type m = DEFAULT → transform m = Some tr → sub ∈ subModels m → geometryOf sub = Some gp →
  subTriangles gp = tris ++ [t] →
  isNaN (intersect_rayTriangle (localRay worldRay tr) t (doubleSided gp.1)) = true →
  rayResultModels (raycastAllModels (setModels (l1 ++ m :: l2) s) worldRay mask distance g).1
    = rayResultModels (raycastAllModels (setModels (l1 ++ l2) s) worldRay mask distance g).1.
Proof.
  intros Hwf Hty Htr Hsub Hgp Htris Hnan.
  destruct (raycastAllModels_results (setModels (l1 ++ m :: l2) s) worldRay mask distance g Hwf)
    as (-> & _).
  destruct (raycastAllModels_results (setModels (l1 ++ l2) s) worldRay mask distance g Hwf)
    as (-> & _).
  assert (Hm : ∀ l, _models (setModels l s) = l) by (intros l; by destruct s).
  rewrite !Hm, !omap_app. f_equal. f_equal.
  change (omap (hitOf worldRay mask distance) (m :: l2))
    with (match hitOf worldRay mask distance m with
          | Some r => r :: omap (hitOf worldRay mask distance) l2
          | None => omap (hitOf worldRay mask distance) l2
          end).
  by rewrite (hitOf_NaN worldRay mask distance m tr sub gp tris t).
Qed.

End NaNFacts.

Lemma narrowphase_best_is_least_positive_distance_witness :
  let vb := [five; one; one; five; zero; one; five; one; zero;
             two; one; one; two; zero; one; two; one; zero] in
  let ib := [0; 1; 2; 3; 4; 5] in
  isNaN ten = false ∧
  le (narrowDis (narrowphase (E := sceneExternals) vb ib TRIANGLE_LIST true ten initialGlobals))
     ten = true ∧
  ∀ t, t ∈ trianglesOf vb ib TRIANGLE_LIST →
       lt zero (intersect_rayTriangle (Externals := sceneExternals) (modelRay initialGlobals)
                  t true) = true →
       le (narrowDis (narrowphase (E := sceneExternals) vb ib TRIANGLE_LIST true ten
                        initialGlobals))
          (intersect_rayTriangle (Externals := sceneExternals) (modelRay initialGlobals) t true)
         = true.
Proof.
  intros vb ib. split; [reflexivity|].
  assert (Hn : ∀ t, t ∈ trianglesOf vb ib TRIANGLE_LIST →
                    isNaN (intersect_rayTriangle (Externals := sceneExternals)
                             (modelRay initialGlobals) t true) = false).
  { intros t Ht. apply list_elem_of_In in Ht. simpl in Ht.
    destruct Ht as [<-|[<-|[]]]; reflexivity. }
  destruct (narrowphase_best_is_least_positive_distance (E := sceneExternals) vb ib
              TRIANGLE_LIST true ten initialGlobals eq_refl Hn) as (H1 & _ & H3).
  split; [exact H1|exact H3].
Defined.

Lemma nan_on_last_triangle_hides_model_witness :
  let m := testModel 58%positive layerDefault DEFAULT one one
             [meshAt [two]; meshAt [five; NaN]] in
  wfGlobals initialGlobals ∧
  rayResultModels
    (raycastAllModels (E := sceneExternals) (setModels ([skinnedModel] ++ m :: []) (sceneOf []))
       testRay layerDefault ten initialGlobals).1
    = rayResultModels
        (raycastAllModels (E := sceneExternals) (setModels ([skinnedModel] ++ []) (sceneOf []))
           testRay layerDefault ten initialGlobals).1.
Proof.
  intros m. split; [apply wfGlobals_initial|].
  apply (nan_on_last_triangle_hides_model (E := sceneExternals) (sceneOf []) [skinnedModel] []
           m (scaledNode 58%positive layerDefault one) (meshAt [five; NaN])
           ({| positions := [five; NaN] ≫= (λ dist, [dist; one; one; dist; zero; one; dist; one; zero]);
               indices := seq 0 6; doubleSided := true |}, TRIANGLE_LIST)
           [mkTriangle (mkVertex (Some five) (Some one) (Some one))
              (mkVertex (Some five) (Some zero) (Some one))
              (mkVertex (Some five) (Some one) (Some zero))]
           (mkTriangle (mkVertex (Some NaN) (Some one) (Some one))
              (mkVertex (Some NaN) (Some zero) (Some one))
              (mkVertex (Some NaN) (Some one) (Some zero)))).
  - apply wfGlobals_initial.
  - reflexivity.
  - reflexivity.
  - apply list_elem_of_further, list_elem_of_here.
  - reflexivity.
  - reflexivity.
  - reflexivity.
Defined.

(* ===================================================================== *)
(** * Model ids and the per-frame calls *)
(* ===================================================================== *)

Lemma bookkeepingCall_modelId st c :
  _modelId (bookkeepingCall st c).1
    = match c with
      | DoGenerateModelId => (_modelId st.1 + 1)%Z
      | _ => _modelId st.1
      end.
Proof.
  destruct c as [cam|cam| |dl|dl|dl|dl|pl|pl| |sl|sl| |m|m| |name| ];
    cbn [bookkeepingCall]; destruct st as [s w].
  - done.
  - unfold removeCamera. by destruct (indexOfRef cam_ref (cam_ref cam) (_cameras s) 0).
  - unfold removeCameras. by rewrite foldl_detach_cameras.
  - done.
  - unfold unsetMainLight. simpl.
    destruct (sameLight (_mainLight s) dl); [|done].
    destruct (negb (length (_directionalLights s) =? 0)); [|done].
    destruct (_directionalLights s !! (length (_directionalLights s) - 1)) as [l|]; [|done].
    by destruct (dl_node l).
  - done.
  - unfold removeDirectionalLight.
    by destruct (indexOfRef dl_ref (dl_ref dl) (_directionalLights s) 0).
  - done.
  - unfold removeSphereLight. by destruct (indexOfRef pl_ref (pl_ref pl) (_sphereLights s) 0).
  - unfold removeSphereLights. by rewrite foldl_detach_sphereLights.
  - done.
  - unfold removeSpotLight. by destruct (indexOfRef sl_ref (sl_ref sl) (_spotLights s) 0).
  - unfold removeSpotLights. by rewrite foldl_detach_spotLights.
  - done.
  - unfold removeModel. by destruct (indexOfRef m_ref (m_ref m) (_models s) 0).
  - unfold removeModels. by rewrite foldl_destroy_models.
  - unfold initialize, _createHandles. cbn [fst].
    destruct (negb (isSet (_modelArrayHandle (setName name s)))); done.
  - done.
Qed.

Lemma bookkeepingCalls_modelId cs :
  ∀ st, _modelId (bookkeepingCalls cs st).1 = (_modelId st.1 + Z.of_nat (generated cs))%Z.
Proof.
  unfold bookkeepingCalls. induction cs as [|c cs IH]; intros st.
  - simpl. lia.
  - cbn [foldl]. rewrite IH, bookkeepingCall_modelId. destruct c; simpl generated; lia.
Qed.

Lemma generated_le cs : generated cs ≤ length cs.
Proof. induction cs as [|[] cs IH]; simpl; lia. Qed.

(** X29. The id [generateModelId] returns on a scene is the number
    of [generateModelId] calls made on it before, whatever other
    bookkeeping calls came in between: no id is given twice.  [destroy]
    does not reset the counter, nor does [initialize].  (For fewer than
    [2^53] calls, where a number counts exactly.) *)
Theorem generateModelId_counts_earlier_calls (w : World) (cs : list BookkeepingCall) :
  (Z.of_nat (length cs) < 2 ^ 53)%Z →
  (generateModelId (bookkeepingCalls cs (newRenderScene w))).2 = Z.of_nat (generated cs) ∧
  (generateModelId (destroy (bookkeepingCalls cs (newRenderScene w)))).2
    = Z.of_nat (generated cs) ∧
  (∀ name, (generateModelId
              (initialize name (destroy (bookkeepingCalls cs (newRenderScene w)))).1).2
           = Z.of_nat (generated cs)) ∧
  (0 ≤ Z.of_nat (generated cs) < 2 ^ 53)%Z.
Proof.
  intros Hlen.
  assert (Hid : _modelId (bookkeepingCalls cs (newRenderScene w)).1 = Z.of_nat (generated cs)).
  { rewrite bookkeepingCalls_modelId.
    assert (H0 : _modelId (newRenderScene w).1 = 0%Z).
    { unfold newRenderScene, _createHandles. simpl.
      by repeat (match goal with |- context [let '(_, _) := ?x in _] => destruct x end). }
    rewrite H0. lia. }
  assert (Hgen : ∀ st, (generateModelId st).2 = _modelId st.1) by (by intros [s w']).
  assert (Hdes : ∀ st, _modelId (destroy st).1 = _modelId st.1).
  { intros st. rewrite destroy_destroyed. by destruct st. }
  assert (Hini : ∀ name st, _modelId (initialize name st).1.1 = _modelId st.1).
  { intros name [s w']. unfold initialize, _createHandles. cbn [fst].
    destruct (negb (isSet (_modelArrayHandle (setName name s)))); done. }
  rewrite !Hgen, Hdes, Hid. split; [done|]. split; [done|]. split.
  - intros name. by rewrite Hgen, Hini, Hdes, Hid.
  - pose proof (generated_le cs). lia.
Qed.

Lemma generateModelId_counts_earlier_calls_witness :
  (Z.of_nat (length [DoGenerateModelId; DoAddModel skinnedModel; DoGenerateModelId])
   < 2 ^ 53)%Z ∧
  (generateModelId
     (bookkeepingCalls [DoGenerateModelId; DoAddModel skinnedModel; DoGenerateModelId]
        (newRenderScene emptyWorld))).2 = 2%Z.
Proof.
  split; [vm_compute; reflexivity|].
  apply (generateModelId_counts_earlier_calls emptyWorld
           [DoGenerateModelId; DoAddModel skinnedModel; DoGenerateModelId]).
  vm_compute. reflexivity.
Defined.





(* ===================================================================== *)
(** * Properties of the sprite frame *)
(* ===================================================================== *)

Lemma writeAt_split (k : nat) (v : number) (arr : list (option number)) :
  k ≤ length arr → Sprite.writeAt k v arr = take k arr ++ Some v :: drop (S k) arr.
Proof.
  intros Hk. unfold Sprite.writeAt. destruct (Nat.ltb_spec k (length arr)) as [Hlt|Hge].
  - apply list_eq. intros i. destruct (decide (i = k)) as [->|Hne].
    + rewrite list_lookup_insert_eq by done.
      rewrite lookup_app_r by (rewrite length_take; lia).
      rewrite length_take. by replace (k - k `min` length arr) with 0 by lia.
    + rewrite list_lookup_insert_ne by done.
      rewrite <- (take_drop k arr) at 1.
      destruct (decide (i < k)) as [Hi|Hi].
      * rewrite !lookup_app_l by (rewrite length_take; lia). done.
      * rewrite !lookup_app_r by (rewrite length_take; lia).
        rewrite length_take. replace (k `min` length arr) with k by lia.
        destruct (i - k) as [|j] eqn:Hj; [lia|]. simpl.
        rewrite !lookup_drop. f_equal. lia.
  - replace (k - length arr) with 0 by lia. simpl.
    rewrite take_ge, drop_ge by lia. done.
Qed.

Lemma writeAt_fold (vals : list number) :
  ∀ k arr, k ≤ length arr →
    foldl (λ arr iv, Sprite.writeAt iv.1 iv.2 arr) arr (zip (seq k (length vals)) vals)
      = take k arr ++ (Some <$> vals) ++ drop (k + length vals) arr.
Proof.
  induction vals as [|v vals IH]; intros k arr Hk.
  - simpl. by rewrite Nat.add_0_r, take_drop.
  - cbn [length seq zip zip_with foldl fst snd]. rewrite writeAt_split by done.
    assert (HL : length (take k arr ++ [Some v]) = S k).
    { rewrite length_app, length_take. simpl. lia. }
    replace (take k arr ++ Some v :: drop (S k) arr)
      with ((take k arr ++ [Some v]) ++ drop (S k) arr) by (by rewrite <- app_assoc).
    rewrite IH by (rewrite length_app; lia).
    rewrite take_app_ge, drop_app_ge by lia. rewrite HL.
    replace (S k - S k) with 0 by lia. replace (S k + length vals - S k) with (length vals) by lia.
    rewrite take_0, app_nil_r, drop_drop, <- !app_assoc.
    replace (S k + length vals) with (k + S (length vals)) by lia. done.
Qed.

Section SpriteRuns.

Import Sprite SpriteSpec.

Context `{V : Env}.

#[local] Arguments div : simpl never.
#[local] Arguments sub : simpl never.
#[local] Arguments add : simpl never.
#[local] Arguments gt : simpl never.
#[local] Arguments strictEq : simpl never.

Lemma bind_run {A B : Type} (m : M A) (k : A → M B) (s s' : St) (a : A) :
  m s = (s', Normal a) → (m ≫= k) s = k a s'.
Proof. intros H. unfold mbind, M_bind. by rewrite H. Qed.

Lemma bind_throw {A B : Type} (m : M A) (k : A → M B) (s s' : St) :
  m s = (s', ThrowTypeError) → (m ≫= k) s = (s', ThrowTypeError).
Proof. intros H. unfold mbind, M_bind. by rewrite H. Qed.

Lemma _calculateSlicedUV_run (f : SpriteFrame) (log : list Effect) (t : Ref) (rect : Rect) :
  _texture f = Some t → _rect f = Some rect →
  _calculateSlicedUV (f, log)
    = ((withUvSliced (slicedGrid f rect (textureOf t)) f, log), Normal tt).
Proof.
  intros Ht Hr. unfold _calculateSlicedUV, slicedGrid, gridLines.
  unfold mbind, M_bind, this, deref, modify, mret, M_ret. cbn [fst snd].
  rewrite Ht, Hr. cbn [fst snd].
  destruct (_rotated f) eqn:Hrot; cbn [fst snd withUvSliced uvSliced]; reflexivity.
Qed.

Lemma _calculateSlicedUV_throws (f : SpriteFrame) (log : list Effect) :
  _texture f = None ∨ _rect f = None →
  _calculateSlicedUV (f, log) = ((f, log), ThrowTypeError).
Proof.
  intros H. unfold _calculateSlicedUV.
  unfold mbind, M_bind, this, deref, modify, mret, M_ret, throw. cbn [fst snd].
  destruct (_texture f) as [t|]; [|done]. cbn [fst snd].
  destruct H as [?|Hr]; [done|]. by rewrite Hr.
Qed.

Lemma guarded_run (tex : number) (rect : Rect) (e : Rect → number) (s : St) :
  guarded tex (Some rect) e s = (s, Normal (unlessZero tex (e rect))).
Proof. unfold guarded, unlessZero. by destruct (strictEq tex zero). Qed.

Lemma _calculateUV_run (f : SpriteFrame) (log : list Effect) (t : Ref) (rect : Rect) :
  _texture f = Some t → _rect f = Some rect →
  _calculateUV (f, log) = ((computed f rect (textureOf t), log), Normal tt).
Proof.
  intros Ht Hr. unfold _calculateUV.
  rewrite (bind_run this _ (f, log) (f, log) f) by done.
  rewrite Ht, Hr. rewrite (bind_run (deref (Some t)) _ (f, log) (f, log) t) by done.
  cbv zeta.
  set (tex := textureOf t).
  assert (Huv : (if _rotated f
                 then
                   l ← guarded (tex_width tex) (Some rect) (λ rect, div (rect_x rect) (tex_width tex));
                   r ← guarded (tex_width tex) (Some rect)
                         (λ rect, div (add (rect_x rect) (rect_height rect)) (tex_width tex));
                   b ← guarded (tex_height tex) (Some rect)
                         (λ rect, div (add (rect_y rect) (rect_width rect)) (tex_height tex));
                   t ← guarded (tex_height tex) (Some rect)
                         (λ rect, div (rect_y rect) (tex_height tex));
                   writeUv [l; t; l; b; r; t; r; b]
                 else
                   l ← guarded (tex_width tex) (Some rect) (λ rect, div (rect_x rect) (tex_width tex));
                   r ← guarded (tex_width tex) (Some rect)
                         (λ rect, div (add (rect_x rect) (rect_width rect)) (tex_width tex));
                   b ← guarded (tex_height tex) (Some rect)
                         (λ rect, div (add (rect_y rect) (rect_height rect)) (tex_height tex));
                   t ← guarded (tex_height tex) (Some rect)
                         (λ rect, div (rect_y rect) (tex_height tex));
                   writeUv [l; b; r; b; l; t; r; t]) (f, log)
                = ((withUv (written (uvValues f rect tex) (uv f)) f, log), Normal tt)).
  { unfold uvValues, written. destruct (_rotated f).
    - rewrite !(bind_run _ _ _ _ _ (guarded_run _ _ _ _)).
      unfold writeUv, modify. cbn [fst snd]. rewrite writeAt_fold by lia. done.
    - rewrite !(bind_run _ _ _ _ _ (guarded_run _ _ _ _)).
      unfold writeUv, modify. cbn [fst snd]. rewrite writeAt_fold by lia. done. }
  rewrite (bind_run _ _ _ _ _ Huv). clear Huv.
  set (f1 := withUv (written (uvValues f rect tex) (uv f)) f).
  assert (Hvt : (match vertices f with
                 | Some vt =>
                     modify (withVertices (Some
                       (mkVertices (vt_triangles vt) (vt_x vt) (vt_y vt) (vt_u vt) (vt_v vt)
                          ((λ i, div (numAt (vt_u vt) i) (tex_width tex))
                             <$> seq 0 (length (vt_u vt)))
                          ((λ i, div (numAt (vt_v vt) i) (tex_height tex))
                             <$> seq 0 (length (vt_u vt))))))
                 | None => mret tt
                 end) (f1, log)
                = ((withVertices (normalized tex <$> vertices f) f1, log), Normal tt)).
  { destruct (vertices f) as [vt|] eqn:Hv; [done|].
    subst f1. unfold mret, M_ret, withVertices, withUv. cbn. by rewrite Hv. }
  rewrite (bind_run _ _ _ _ _ Hvt). clear Hvt.
  rewrite (_calculateSlicedUV_run _ _ t rect) by done.
  done.
Qed.

Lemma _checkRect_run (f : SpriteFrame) (log : list Effect) (t : Ref) (rect : Rect) :
  _rect f = Some rect →
  _checkRect t (f, log) = ((f, log ++ checkErrors f rect (textureOf t)), Normal tt).
Proof.
  intros Hr. unfold _checkRect, checkErrors.
  rewrite (bind_run this _ (f, log) (f, log) f) by done.
  rewrite Hr. rewrite (bind_run (deref (Some rect)) _ (f, log) (f, log) rect) by done.
  cbv zeta.
  assert (Hwhen : ∀ (b : bool) e s,
            when b (effect e) s = ((s.1, s.2 ++ (if b then [e] else [])), Normal tt)).
  { intros b e s. destruct b; [done|].
    unfold when, mret, M_ret. rewrite app_nil_r. by destruct s. }
  destruct (_rotated f).
  - rewrite (bind_run _ _ _ _ _ (Hwhen _ _ _)). rewrite Hwhen. cbn [fst snd].
    by rewrite app_assoc.
  - rewrite (bind_run _ _ _ _ _ (Hwhen _ _ _)). rewrite Hwhen. cbn [fst snd].
    by rewrite app_assoc.
Qed.

Lemma gt_add_zero (w : number) : gt (add zero w) w = false.
Proof.
  unfold gt, lt, add, zero. destruct w as [s|s| |s m e]; simpl; try done.
  - by destruct s.
  - by destruct s.
  - change (SFltb (S754_finite s m e) (S754_finite s m e)) with (lt (S754_finite s m e) (S754_finite s m e)).
    apply lt_irrefl.
Qed.

Lemma checkErrors_fullRect (f : SpriteFrame) (tex : Texture2D) :
  _rotated f = false → checkErrors f (fullRect tex) tex = [].
Proof.
  intros Hrot. unfold checkErrors, fullRect. rewrite Hrot. cbn [rect_x rect_y rect_width rect_height].
  by rewrite !gt_add_zero.
Qed.

Lemma _textureLoadedCallback_run (f : SpriteFrame) (log : list Effect) (t : Ref) :
  _texture f = Some t →
  _textureLoadedCallback (f, log)
    = ((loaded f (textureOf t), log ++ loadErrors f (textureOf t) ++ [Emit "load"]), Normal tt).
Proof.
  intros Ht. unfold _textureLoadedCallback.
  rewrite (bind_run this _ (f, log) (f, log) f) by done.
  rewrite Ht. cbv zeta.
  set (tex := textureOf t).
  (* the rotated frame on the canvas renderer *)
  set (f1 := if _rotated f && RENDER_TYPE_CANVAS
             then withRect (Some (fullRect tex)) (withRotated false f) else f).
  assert (H1 : when (_rotated f && RENDER_TYPE_CANVAS)
                 (modify (withRotated false);;
                  setRect (mkRect zero zero (tex_width tex) (tex_height tex))) (f, log)
               = ((f1, log), Normal tt)).
  { subst f1. by destruct (_rotated f && RENDER_TYPE_CANVAS). }
  rewrite (bind_run _ _ _ _ _ H1). clear H1.
  rewrite (bind_run this _ (f1, log) (f1, log) f1) by done.
  (* the rectangle *)
  set (f2 := withRect (Some (loadedRect f tex)) f1).
  assert (H2 : (match _rect f1 with
                | Some _ => _checkRect t
                | None => setRect (mkRect zero zero (tex_width tex) (tex_height tex))
                end) (f1, log) = ((f2, log ++ loadErrors f tex), Normal tt)).
  { subst f2 f1. unfold loadedRect, loadErrors.
    destruct (_rotated f && RENDER_TYPE_CANVAS) eqn:Hturn.
    - cbn [_rect withRect].
      rewrite (_checkRect_run _ _ t (fullRect tex)) by done.
      fold tex. rewrite checkErrors_fullRect by done. done.
    - destruct (_rect f) as [r|] eqn:Hr.
      + rewrite (_checkRect_run _ _ t r) by done. fold tex. cbn [default].
        f_equal. f_equal. destruct f; simpl in *; by subst.
      + rewrite app_nil_r. done. }
  rewrite (bind_run _ _ _ _ _ H2). clear H2.
  rewrite (bind_run this _ _ _ f2) by done.
  (* the size and the offset *)
  set (f3 := withOriginalSize
               (Some (default (mkSize (tex_width tex) (tex_height tex)) (_originalSize f))) f2).
  assert (H3 : when (negb (bool_decide (is_Some (_originalSize f2))))
                 (setOriginalSize (mkSize (tex_width tex) (tex_height tex)))
                 (f2, log ++ loadErrors f tex)
               = ((f3, log ++ loadErrors f tex), Normal tt)).
  { assert (Hs : _originalSize f2 = _originalSize f).
    { subst f2 f1. by destruct (_rotated f && RENDER_TYPE_CANVAS). }
    subst f3. rewrite Hs. destruct (_originalSize f) as [sz|] eqn:Hsz.
    - rewrite bool_decide_eq_true_2 by done. cbn [negb when default].
      unfold mret, M_ret. f_equal. f_equal.
      destruct f2; simpl in *; by subst.
    - rewrite bool_decide_eq_false_2 by (by intros [? ?]). cbn [negb when default].
      unfold setOriginalSize.
      rewrite (bind_run this _ _ _ f2) by done. by rewrite Hs. }
  rewrite (bind_run _ _ _ _ _ H3). clear H3.
  set (f4 := withOffset (Some (default (mkVec2 zero zero) (_offset f))) f3).
  assert (H4 : when (negb (bool_decide (is_Some (_offset f2))))
                 (setOffset (mkVec2 zero zero)) (f3, log ++ loadErrors f tex)
               = ((f4, log ++ loadErrors f tex), Normal tt)).
  { assert (Hs : _offset f2 = _offset f).
    { subst f2 f1. by destruct (_rotated f && RENDER_TYPE_CANVAS). }
    assert (Hs3 : _offset f3 = _offset f) by (by subst f3).
    subst f4. rewrite Hs. destruct (_offset f) as [o|] eqn:Ho.
    - rewrite bool_decide_eq_true_2 by done. cbn [negb when default].
      unfold mret, M_ret. f_equal. f_equal.
      destruct f3; simpl in *; by subst.
    - rewrite bool_decide_eq_false_2 by (by intros [? ?]). done. }
  rewrite (bind_run _ _ _ _ _ H4). clear H4.
  (* the coordinates *)
  assert (H5 : _calculateUV (f4, log ++ loadErrors f tex)
               = ((loaded f tex, log ++ loadErrors f tex), Normal tt)).
  { rewrite (_calculateUV_run f4 _ t (loadedRect f tex)).
    - f_equal. f_equal. unfold loaded, computed. subst f4 f3 f2 f1.
      destruct (_rotated f && RENDER_TYPE_CANVAS); reflexivity.
    - subst f4 f3 f2 f1. by destruct (_rotated f && RENDER_TYPE_CANVAS).
    - by subst f4 f3 f2. }
  rewrite (bind_run _ _ _ _ _ H5). clear H5.
  unfold effect. cbn [fst snd]. by rewrite <- app_assoc.
Qed.

End SpriteRuns.

Section SpriteCoordinates.

Import Sprite SpriteSpec.

Context `{V : Env}.

#[local] Arguments div : simpl never.
#[local] Arguments sub : simpl never.
#[local] Arguments add : simpl never.
#[local] Arguments strictEq : simpl never.

Lemma div_by_zero (x z : number) : strictEq z zero = true → isFinite (div x z) = false.
Proof.
  unfold strictEq, div, zero. destruct z as [s|s| |s m e]; simpl; try done.
  - intros _. destruct x as [sx|sx| |sx mx ex]; done.
  - by destruct s.
  - by destruct s.
Qed.

Lemma slicedGrid_length (f : SpriteFrame) (rect : Rect) (tex : Texture2D) :
  length (slicedGrid f rect tex) = 16.
Proof. unfold slicedGrid. by destruct (_rotated f). Qed.

(** X21. With a texture whose width and height are not zero
    [_calculateUV] completes and the quad [uv] is the four corners of
    the sliced grid: the entries 0, 3, 12 and 15 of [uvSliced] are the
    points [(uv[0], uv[1])], [(uv[2], uv[3])], [(uv[4], uv[5])] and
    [(uv[6], uv[7])], for a rotated frame as for an upright one. *)
Theorem uv_quad_is_corners_of_sliced_grid
    (f : SpriteFrame) (log : list Effect) (t : Ref) (rect : Rect) :
  _texture f = Some t → _rect f = Some rect →
  strictEq (tex_width (textureOf t)) zero = false →
  strictEq (tex_height (textureOf t)) zero = false →
  (_calculateUV (f, log)).2 = Normal tt ∧
  length (uvSliced (_calculateUV (f, log)).1.1) = 16 ∧
  cornerAgrees (_calculateUV (f, log)).1.1 0 0 ∧
  cornerAgrees (_calculateUV (f, log)).1.1 2 3 ∧
  cornerAgrees (_calculateUV (f, log)).1.1 4 12 ∧
  cornerAgrees (_calculateUV (f, log)).1.1 6 15.
Proof.
  intros Ht Hr Hw Hh. rewrite (_calculateUV_run f log t rect Ht Hr). cbn [fst snd].
  split; [done|]. split; [apply slicedGrid_length|].
  unfold cornerAgrees, computed, written, uvValues, slicedGrid, gridLines, unlessZero.
  rewrite Hw, Hh. cbn [uv uvSliced _rotated _capInsets].
  destruct (_rotated f); cbn; repeat split; by do 2 eexists.
Qed.

(** X22. Only [uv] is guarded against a texture of size zero.  With
    a texture of width and height zero [_calculateUV] completes, the
    eight entries of [uv] are [0], and every coordinate of the sixteen
    entries of [uvSliced] is a quotient by zero: [NaN] or an infinity. *)
Theorem zero_size_texture_guards_uv_only
    (f : SpriteFrame) (log : list Effect) (t : Ref) (rect : Rect) :
  _texture f = Some t → _rect f = Some rect →
  strictEq (tex_width (textureOf t)) zero = true →
  strictEq (tex_height (textureOf t)) zero = true →
  (_calculateUV (f, log)).2 = Normal tt ∧
  take 8 (uv (_calculateUV (f, log)).1.1) = replicate 8 (Some zero) ∧
  length (uvSliced (_calculateUV (f, log)).1.1) = 16 ∧
  ∀ e, e ∈ uvSliced (_calculateUV (f, log)).1.1 →
       isFinite (uv_u e) = false ∧ isFinite (uv_v e) = false.
Proof.
  intros Ht Hr Hw Hh. rewrite (_calculateUV_run f log t rect Ht Hr). cbn [fst snd].
  split; [done|]. split; [|split; [apply slicedGrid_length|]].
  - unfold computed, written, uvValues, unlessZero. rewrite Hw, Hh. cbn [uv].
    by destruct (_rotated f).
  - unfold computed. cbn [uvSliced]. unfold slicedGrid, gridLines.
    intros e He. apply list_elem_of_In in He.
    destruct (_rotated f); cbn in He;
      repeat (destruct He as [<-|He]; [split; by apply div_by_zero|]); destruct He.
Qed.

(** X23. [_calculateSlicedUV] of a frame with a texture and a
    rectangle leaves exactly sixteen entries, whatever was in [uvSliced]
    before, and changes nothing else.  The entries form a grid: in an
    upright frame [u] depends on the column only and [v] on the row only;
    in a rotated frame it is the other way round.  Running it again
    changes nothing. *)
Theorem sliced_grid_rows_and_columns
    (f : SpriteFrame) (log : list Effect) (t : Ref) (rect : Rect) :
  _texture f = Some t → _rect f = Some rect →
  (_calculateSlicedUV (f, log)).2 = Normal tt ∧
  (_calculateSlicedUV (f, log)).1
    = (withUvSliced (uvSliced (_calculateSlicedUV (f, log)).1.1) f, log) ∧
  length (uvSliced (_calculateSlicedUV (f, log)).1.1) = 16 ∧
  (∀ row col, row < 4 → col < 4 →
     ∃ e e_row e_col,
       uvSliced (_calculateSlicedUV (f, log)).1.1 !! (4 * row + col) = Some e ∧
       uvSliced (_calculateSlicedUV (f, log)).1.1 !! (4 * row) = Some e_row ∧
       uvSliced (_calculateSlicedUV (f, log)).1.1 !! col = Some e_col ∧
       if _rotated f then uv_u e = uv_u e_row ∧ uv_v e = uv_v e_col
       else uv_u e = uv_u e_col ∧ uv_v e = uv_v e_row) ∧
  _calculateSlicedUV (_calculateSlicedUV (f, log)).1 = _calculateSlicedUV (f, log).
Proof.
  intros Ht Hr. rewrite (_calculateSlicedUV_run f log t rect Ht Hr). cbn [fst snd].
  split; [done|]. split; [done|]. split; [apply slicedGrid_length|]. split.
  - intros row col Hrow Hcol. cbn [uvSliced withUvSliced].
    unfold slicedGrid, gridLines.
    destruct row as [|[|[|[|row]]]]; [| | | |lia];
      (destruct col as [|[|[|[|col]]]]; [| | | |lia]);
      destruct (_rotated f); cbn; by do 3 eexists.
  - rewrite (_calculateSlicedUV_run _ log t rect) by done. done.
Qed.

End SpriteCoordinates.

Lemma uv_quad_is_corners_of_sliced_grid_witness :
  Sprite._texture (SpriteSpec.testFrame 1%positive) = Some 1%positive ∧
  SpriteSpec.cornerAgrees
    (Sprite._calculateUV (V := SpriteSpec.testEnv) (SpriteSpec.testFrame 1%positive, [])).1.1 6 15.
Proof.
  split; [reflexivity|].
  apply (uv_quad_is_corners_of_sliced_grid (V := SpriteSpec.testEnv) (SpriteSpec.testFrame 1%positive) []
           1%positive (Sprite.mkRect (ofZ 2 0) (ofZ 1 0) (ofZ 4 0) (ofZ 2 0)));
    reflexivity.
Defined.

Lemma zero_size_texture_guards_uv_only_witness :
  Sprite.strictEq (Sprite.tex_width (Sprite.textureOf (Env := SpriteSpec.testEnv) 3%positive)) zero = true ∧
  take 8 (Sprite.uv (Sprite._calculateUV (V := SpriteSpec.testEnv)
                       (SpriteSpec.testFrame 3%positive, [])).1.1)
    = replicate 8 (Some zero).
Proof.
  split; [reflexivity|].
  apply (zero_size_texture_guards_uv_only (V := SpriteSpec.testEnv) (SpriteSpec.testFrame 3%positive) []
           3%positive (Sprite.mkRect (ofZ 2 0) (ofZ 1 0) (ofZ 4 0) (ofZ 2 0)));
    reflexivity.
Defined.

Lemma sliced_grid_rows_and_columns_witness :
  Sprite._rect (SpriteSpec.testFrame 1%positive)
    = Some (Sprite.mkRect (ofZ 2 0) (ofZ 1 0) (ofZ 4 0) (ofZ 2 0)) ∧
  length (Sprite.uvSliced (Sprite._calculateSlicedUV (V := SpriteSpec.testEnv)
                             (SpriteSpec.testFrame 1%positive, [])).1.1) = 16.
Proof.
  split; [reflexivity|].
  apply (sliced_grid_rows_and_columns (V := SpriteSpec.testEnv) (SpriteSpec.testFrame 1%positive) []
           1%positive (Sprite.mkRect (ofZ 2 0) (ofZ 1 0) (ofZ 4 0) (ofZ 2 0)));
    reflexivity.
Defined.

Section SpriteTexture.

Import Sprite SpriteSpec.

Context `{V : Env}.

#[local] Arguments div : simpl never.
#[local] Arguments sub : simpl never.
#[local] Arguments add : simpl never.
#[local] Arguments gt : simpl never.
#[local] Arguments strictEq : simpl never.

Lemma _refreshTexture_run (t : Ref) (s : St) :
  _refreshTexture t s = (refreshed t s, Normal tt).
Proof.
  destruct s as [f log]. unfold _refreshTexture, refreshed.
  rewrite (bind_run (modify (withTexture (Some t))) _ (f, log)
             (withTexture (Some t) f, log) tt) by done.
  cbn [fst snd]. destruct (tex_loaded (textureOf t)); [|done].
  by rewrite (_textureLoadedCallback_run _ _ t).
Qed.

Lemma _loadTexture_run (s : St) :
  _loadTexture s =
    if String.eqb (_textureFilename s.1) "" then (s, Normal tt)
    else (refreshed (loadImage (_textureFilename s.1))
            (s.1, s.2 ++ [LoadImage (_textureFilename s.1)]), Normal tt).
Proof.
  destruct s as [f log]. unfold _loadTexture.
  rewrite (bind_run this _ (f, log) (f, log) f) by done. cbn [fst snd].
  destruct (String.eqb (_textureFilename f) ""); [done|].
  rewrite (bind_run (effect (LoadImage (_textureFilename f))) _ (f, log)
             (f, log ++ [LoadImage (_textureFilename f)]) tt) by done.
  apply _refreshTexture_run.
Qed.

Lemma copy_offset (offset : option Vec2) :
  (λ o, mkVec2 (vec_x o) (vec_y o)) <$> offset = offset.
Proof. by destruct offset as [[]|]. Qed.

Lemma setTexture_head (f : SpriteFrame) (log : list Effect) (rect : option Rect)
    (rotated : bool) (offset : option Vec2) (originalSize : option Size) {A : Type}
    (k : M A) :
  (match rect with
   | Some rect => setRect rect
   | None => modify (withRect None)
   end;;
   match offset with
   | Some offset => setOffset offset
   | None => modify (withOffset None)
   end;;
   match originalSize with
   | Some originalSize => setOriginalSize originalSize
   | None => modify (withOriginalSize None)
   end;;
   modify (withRotated (rotated || false));;
   k) (f, log)
  = k (assigned f rect rotated offset originalSize, log).
Proof.
  assert (H1 : (match rect with
                | Some rect => setRect rect
                | None => modify (withRect None)
                end) (f, log) = ((withRect rect f, log), Normal tt)) by (by destruct rect).
  rewrite (bind_run _ _ _ _ _ H1).
  assert (H2 : (match offset with
                | Some offset => setOffset offset
                | None => modify (withOffset None)
                end) (withRect rect f, log)
               = ((withOffset offset (withRect rect f), log), Normal tt)).
  { destruct offset as [[x y]|]; done. }
  rewrite (bind_run _ _ _ _ _ H2).
  assert (H3 : (match originalSize with
                | Some originalSize => setOriginalSize originalSize
                | None => modify (withOriginalSize None)
                end) (withOffset offset (withRect rect f), log)
               = ((withOriginalSize originalSize (withOffset offset (withRect rect f)), log),
                  Normal tt)).
  { destruct originalSize as [[w h]|]; [|done].
    unfold setOriginalSize.
    rewrite (bind_run this _ _ _ (withOffset offset (withRect rect f))) by done.
    by destruct (_originalSize (withOffset offset (withRect rect f))). }
  rewrite (bind_run _ _ _ _ _ H3).
  rewrite (bind_run (modify (withRotated (rotated || false))) _ _
             (withRotated (rotated || false)
                (withOriginalSize originalSize (withOffset offset (withRect rect f))), log) tt)
    by done.
  f_equal. f_equal. unfold assigned. rewrite orb_false_r. reflexivity.
Qed.

(** What [setTexture] does, by the kind of its first argument. *)
Lemma setTexture_run (arg : TextureArg) (rect : option Rect) (rotated : bool)
    (offset : option Vec2) (originalSize : option Size) (f : SpriteFrame) (log : list Effect) :
  setTexture arg rect rotated offset originalSize (f, log) =
    let f0 := assigned f rect rotated offset originalSize in
    match arg with
    | TexFile url =>
        if String.eqb url "" then ((f0, log), Normal true)
        else (refreshed (loadImage url) (withTextureFilename url f0, log ++ [LoadImage url]),
              Normal true)
    | TexObject t =>
        if bool_decide (_texture f = Some t) then ((f0, log), Normal true)
        else (refreshed t (f0, log), Normal true)
    | TexOther => ((f0, log), Normal true)
    end.
Proof.
  unfold setTexture. rewrite setTexture_head. cbv zeta.
  set (f0 := assigned f rect rotated offset originalSize).
  destruct arg as [url|t|].
  - destruct (String.eqb url "") eqn:Hurl; cbn [negb when].
    + done.
    + rewrite (bind_run _ _ _ (refreshed (loadImage url)
                                 (withTextureFilename url f0, log ++ [LoadImage url])) tt);
        [done|].
      rewrite (bind_run (modify (withTextureFilename url)) _ (f0, log)
                 (withTextureFilename url f0, log) tt) by done.
      rewrite _loadTexture_run. cbn [fst snd _textureFilename withTextureFilename].
      by rewrite Hurl.
  - assert (Hin : (f1 ← this;
                   when (negb (bool_decide (_texture f1 = Some t))) (_refreshTexture t))
                    (f0, log)
                  = (if bool_decide (_texture f = Some t) then (f0, log)
                     else refreshed t (f0, log), Normal tt)).
    { rewrite (bind_run this _ (f0, log) (f0, log) f0) by done.
      change (_texture f0) with (_texture f).
      destruct (bool_decide (_texture f = Some t)); cbn [negb when]; [done|].
      apply _refreshTexture_run. }
    rewrite (bind_run _ _ _ _ _ Hin).
    by destruct (bool_decide (_texture f = Some t)).
  - done.
Qed.

End SpriteTexture.

Section SpriteLifeCycle.

Import Sprite SpriteSpec.

Context `{V : Env}.

#[local] Arguments div : simpl never.
#[local] Arguments sub : simpl never.
#[local] Arguments add : simpl never.
#[local] Arguments gt : simpl never.
#[local] Arguments strictEq : simpl never.

Lemma setInset_run (INSET : nat) (value : number) (f : SpriteFrame) (log : list Effect) :
  setInset INSET value (f, log) =
    let f1 := withCapInsets (<[INSET := value]> (_capInsets f)) f in
    match _texture f, _rect f with
    | None, _ => ((f1, log), Normal tt)
    | Some t, None => ((f1, log), ThrowTypeError)
    | Some t, Some rect => ((withUvSliced (slicedGrid f1 rect (textureOf t)) f1, log), Normal tt)
    end.
Proof.
  unfold setInset. cbv zeta.
  set (f1 := withCapInsets (<[INSET := value]> (_capInsets f)) f).
  rewrite (bind_run (modify (λ f, withCapInsets (<[INSET := value]> (_capInsets f)) f)) _
             (f, log) (f1, log) tt) by done.
  rewrite (bind_run this _ (f1, log) (f1, log) f1) by done.
  change (_texture f1) with (_texture f).
  destruct (_texture f) as [t|] eqn:Ht.
  - rewrite bool_decide_eq_true_2 by done. cbn [when].
    destruct (_rect f) as [rect|] eqn:Hr.
    + by rewrite (_calculateSlicedUV_run f1 log t rect).
    + rewrite _calculateSlicedUV_throws; [done|]. by right.
  - rewrite bool_decide_eq_false_2 by (by intros [? ?]). done.
Qed.

Lemma uvValues_length (f : SpriteFrame) (rect : Rect) (tex : Texture2D) :
  length (uvValues f rect tex) = 8.
Proof. unfold uvValues. by destruct (_rotated f). Qed.

(** X24. [setTexture] with a loaded texture that is not the texture
    of the frame completes the frame at once: the rectangle is the given
    one, or the whole texture when none is given (or when a rotated frame
    is turned back for the canvas renderer); offset and original size
    get their defaults; [uv] has its eight numbers and [uvSliced] its
    sixteen entries; the last thing done is to emit [load], and without a
    given rectangle nothing is reported.  On the frame so completed no
    inset setter throws. *)
Theorem setTexture_with_loaded_texture_completes_the_frame
    (f : SpriteFrame) (log : list Effect) (t : Ref) (rect : option Rect) (rotated : bool)
    (offset : option Vec2) (originalSize : option Size) :
  _texture f ≠ Some t → tex_loaded (textureOf t) = true →
  let out := setTexture (TexObject t) rect rotated offset originalSize (f, log) in
  out.2 = Normal true ∧
  _texture out.1.1 = Some t ∧
  _rect out.1.1 = Some (if rotated && RENDER_TYPE_CANVAS then fullRect (textureOf t)
                        else default (fullRect (textureOf t)) rect) ∧
  _rotated out.1.1 = (if rotated && RENDER_TYPE_CANVAS then false else rotated) ∧
  _offset out.1.1 = Some (default (mkVec2 zero zero) offset) ∧
  _originalSize out.1.1
    = Some (default (mkSize (tex_width (textureOf t)) (tex_height (textureOf t))) originalSize) ∧
  8 ≤ length (uv out.1.1) ∧ length (uvSliced out.1.1) = 16 ∧
  last out.1.2 = Some (Emit "load") ∧
  (rect = None → out.1.2 = log ++ [Emit "load"]) ∧
  ∀ INSET value, (setInset INSET value out.1).2 = Normal tt.
Proof.
  intros Hne Hl out. subst out. rewrite setTexture_run. cbv zeta.
  rewrite bool_decide_eq_false_2 by done. cbn [fst snd].
  unfold refreshed. rewrite Hl. cbn [fst snd].
  set (f0 := withTexture (Some t) (assigned f rect rotated offset originalSize)).
  split; [done|]. split; [done|]. split; [done|]. split; [done|]. split; [done|].
  split; [done|]. split.
  { unfold loaded, computed, written. cbn [uv].
    rewrite length_app, length_fmap, uvValues_length. lia. }
  split; [apply slicedGrid_length|].
  split; [by rewrite app_assoc, last_snoc|].
  split.
  { intros ->. unfold loadErrors. cbn [_rect f0 withTexture assigned].
    by destruct (_rotated f0 && RENDER_TYPE_CANVAS). }
  intros INSET value. rewrite setInset_run. cbv zeta. done.
Qed.

(** X25. An inset setter stores the value first and recomputes
    [uvSliced] after, when the frame has a texture.  Without a texture
    it only stores; [uvSliced] is not touched.  With a texture but
    without a rectangle, which is the state of a frame that waits for its
    texture to load and was given no rectangle, the setter throws a
    [TypeError] after it has stored the value.  With a texture and a
    rectangle it completes and leaves sixteen entries. *)
Theorem inset_setter_stores_then_recomputes
    (f : SpriteFrame) (log : list Effect) (INSET : nat) (value : number) :
  INSET < length (_capInsets f) →
  getInset INSET (setInset INSET value (f, log)).1.1 = value ∧
  (∀ j, j ≠ INSET → getInset j (setInset INSET value (f, log)).1.1 = getInset j f) ∧
  (_texture f = None →
     (setInset INSET value (f, log)).2 = Normal tt ∧
     uvSliced (setInset INSET value (f, log)).1.1 = uvSliced f) ∧
  (is_Some (_texture f) → _rect f = None →
     (setInset INSET value (f, log)).2 = ThrowTypeError ∧
     uvSliced (setInset INSET value (f, log)).1.1 = uvSliced f) ∧
  (is_Some (_texture f) → is_Some (_rect f) →
     (setInset INSET value (f, log)).2 = Normal tt ∧
     length (uvSliced (setInset INSET value (f, log)).1.1) = 16).
Proof.
  intros Hlt. rewrite setInset_run. cbv zeta.
  assert (Hget : ∀ f', _capInsets f' = <[INSET := value]> (_capInsets f) →
                       getInset INSET f' = value ∧
                       ∀ j, j ≠ INSET → getInset j f' = getInset j f).
  { intros f' Hf'. unfold getInset, numAt. rewrite Hf'. split.
    - by rewrite list_lookup_insert_eq.
    - intros j Hj. by rewrite list_lookup_insert_ne. }
  destruct (_texture f) as [t|] eqn:Ht; [destruct (_rect f) as [rect|] eqn:Hr|].
  - destruct (Hget (withUvSliced
                      (slicedGrid (withCapInsets (<[INSET := value]> (_capInsets f)) f) rect
                         (textureOf t))
                      (withCapInsets (<[INSET := value]> (_capInsets f)) f)) eq_refl) as [H1 H2].
    cbn [fst snd]. split; [done|]. split; [done|]. split; [done|]. split; [done|].
    intros _ _. split; [done|]. apply slicedGrid_length.
  - destruct (Hget (withCapInsets (<[INSET := value]> (_capInsets f)) f) eq_refl) as [H1 H2].
    cbn [fst snd]. split; [done|]. split; [done|]. split; [done|]. split; [done|].
    by intros _ [? ?].
  - destruct (Hget (withCapInsets (<[INSET := value]> (_capInsets f)) f) eq_refl) as [H1 H2].
    cbn [fst snd]. split; [done|]. split; [done|]. split; [done|].
    split; by intros [? ?].
Qed.

Lemma ctor_run (arg : TextureArg) (rect : option Rect) (rotated : bool)
    (offset : option Vec2) (originalSize : option Size) :
  ctor (Some arg) rect rotated offset originalSize
    = ((setTexture arg rect rotated offset originalSize (newFrame, [])).1, Normal tt).
Proof.
  unfold ctor. unfold mbind, M_bind. rewrite !setTexture_run. cbv zeta.
  destruct arg as [url|t|]; [destruct (String.eqb url "")| |]; try done.
Qed.

Lemma refreshed_fields (t : Ref) (s : St) :
  _texture (refreshed t s).1 = Some t ∧
  _textureFilename (refreshed t s).1 = _textureFilename s.1 ∧
  _capInsets (refreshed t s).1 = _capInsets s.1 ∧
  _name (refreshed t s).1 = _name s.1 ∧
  _atlasUuid (refreshed t s).1 = _atlasUuid s.1 ∧
  (vertices s.1 = None → vertices (refreshed t s).1 = None).
Proof.
  unfold refreshed. destruct (tex_loaded (textureOf t)); cbn [fst snd].
  - repeat split; try done. cbn. by intros ->.
  - done.
Qed.

(** X26. A frame that was constructed from a texture object has no
    file name of the texture, so that once [clearTexture] has dropped
    the texture [ensureLoadTexture] does nothing: the frame stays
    without a texture.  A frame constructed from a file name gets its
    texture back from [textureUtil.loadImage]. *)
Theorem cleared_texture_object_is_not_reloaded
    (t : Ref) (rect : option Rect) (rotated : bool) (offset : option Vec2)
    (originalSize : option Size) :
  (let s0 := (ctor (Some (TexObject t)) rect rotated offset originalSize).1 in
   _texture s0.1 = Some t ∧ _textureFilename s0.1 = "" ∧
   (clearTexture;; ensureLoadTexture) s0 = ((withTexture None s0.1, s0.2), Normal tt)) ∧
  (∀ url, url ≠ "" →
     let s1 := (ctor (Some (TexFile url)) rect rotated offset originalSize).1 in
     _textureFilename s1.1 = url ∧
     _texture ((clearTexture;; ensureLoadTexture) s1).1.1 = Some (loadImage url) ∧
     LoadImage url ∈ ((clearTexture;; ensureLoadTexture) s1).1.2).
Proof.
  split.
  - rewrite ctor_run, setTexture_run. cbv zeta.
    rewrite bool_decide_eq_false_2 by done. cbn [fst snd].
    set (s0 := refreshed t (assigned newFrame rect rotated offset originalSize, [])).
    destruct (refreshed_fields t (assigned newFrame rect rotated offset originalSize, []))
      as (Ht & Hf & _).
    fold s0 in Ht, Hf. cbn [fst snd] in Hf.
    split; [done|]. split; [done|].
    rewrite (bind_run clearTexture _ s0 (withTexture None s0.1, s0.2) tt) by done.
    unfold ensureLoadTexture.
    rewrite (bind_run this _ _ _ (withTexture None s0.1)) by done.
    cbn [_texture withTexture _textureFilename]. rewrite Hf. done.
  - intros url Hurl. rewrite ctor_run, setTexture_run. cbv zeta.
    assert (Hne : String.eqb url "" = false) by (by apply String.eqb_neq).
    rewrite Hne. cbn [fst snd].
    set (s1 := refreshed (loadImage url)
                 (withTextureFilename url (assigned newFrame rect rotated offset originalSize),
                  [] ++ [LoadImage url])).
    destruct (refreshed_fields (loadImage url)
                (withTextureFilename url (assigned newFrame rect rotated offset originalSize),
                 [] ++ [LoadImage url])) as (Ht & Hf & _).
    fold s1 in Ht, Hf. cbn [fst snd] in Hf.
    split; [done|].
    rewrite (bind_run clearTexture _ s1 (withTexture None s1.1, s1.2) tt) by done.
    unfold ensureLoadTexture.
    rewrite (bind_run this _ _ _ (withTexture None s1.1)) by done.
    cbn [_texture withTexture _textureFilename]. rewrite Hf.
    change (_textureFilename
              (withTextureFilename url (assigned newFrame rect rotated offset originalSize)))
      with url.
    rewrite Hne. cbn [negb when]. rewrite _loadTexture_run.
    cbn [fst snd _textureFilename withTexture]. rewrite Hf.
    change (_textureFilename
              (withTextureFilename url (assigned newFrame rect rotated offset originalSize)))
      with url.
    rewrite Hne. cbn [fst snd].
    destruct (refreshed_fields (loadImage url)
                (withTexture None s1.1, s1.2 ++ [LoadImage url])) as (Ht' & _).
    split; [done|].
    unfold refreshed. cbn [fst snd].
    destruct (tex_loaded (textureOf (loadImage url))); cbn [snd];
      rewrite !elem_of_app; left; right; apply list_elem_of_here.
Qed.

End SpriteLifeCycle.

Section SpriteCopies.

Import Sprite SpriteSpec.

Context `{V : Env}.

#[local] Arguments div : simpl never.
#[local] Arguments sub : simpl never.
#[local] Arguments add : simpl never.
#[local] Arguments gt : simpl never.
#[local] Arguments strictEq : simpl never.

Lemma _deserialize_run (data : Data) (g : SpriteFrame) (log : list Effect) :
  _deserialize data (g, log) =
    ((mkFrame (d_name data)
        (match d_rect data with
         | Some (x, y, w, h) => Some (mkRect x y w h)
         | None => _rect g
         end)
        (match d_offset data with
         | Some (x, y) => Some (mkVec2 x y)
         | None => _offset g
         end)
        (match d_originalSize data with
         | Some (w, h) => Some (mkSize w h)
         | None => _originalSize g
         end)
        (match d_rotated data with
         | Some r => strictEq r (ofZ 1 0)
         | None => false
         end)
        ((λ vd, mkVertices (vd_triangles vd) (vd_x vd) (vd_y vd) (vd_u vd) (vd_v vd) [] [])
           <$> d_vertices data)
        (match d_capInsets data with
         | Some capInsets =>
             <[INSET_BOTTOM := numAt capInsets INSET_BOTTOM]>
               (<[INSET_RIGHT := numAt capInsets INSET_RIGHT]>
                  (<[INSET_TOP := numAt capInsets INSET_TOP]>
                     (<[INSET_LEFT := numAt capInsets INSET_LEFT]> (_capInsets g))))
         | None => _capInsets g
         end)
        (uv g) (uvSliced g) (_texture g) (_textureFilename g)
        (if CC_EDITOR then d_atlas data else _atlasUuid g),
      log ++ match d_texture data with
             | Some textureUuid =>
                 if String.eqb textureUuid "" then []
                 else [PushResult "_textureSetter" textureUuid]
             | None => []
             end),
     Normal tt).
Proof.
  unfold _deserialize.
  destruct data as [name tex atlas rect offset size rotated caps verts].
  cbn [d_name d_texture d_atlas d_rect d_offset d_originalSize d_rotated d_capInsets d_vertices].
  assert (H1 : (match rect with
                | Some (x, y, w, h) => setRect (mkRect x y w h)
                | None => mret tt
                end) (g, log)
               = ((withRect (match rect with
                             | Some (x, y, w, h) => Some (mkRect x y w h)
                             | None => _rect g
                             end) g, log), Normal tt)).
  { destruct rect as [[[[x y] w] h]|]; [done|]. unfold mret, M_ret. by destruct g. }
  rewrite (bind_run _ _ _ _ _ H1). clear H1.
  set (g1 := withRect _ g).
  assert (H2 : (match offset with
                | Some (x, y) => setOffset (mkVec2 x y)
                | None => mret tt
                end) (g1, log)
               = ((withOffset (match offset with
                               | Some (x, y) => Some (mkVec2 x y)
                               | None => _offset g
                               end) g1, log), Normal tt)).
  { destruct offset as [[x y]|]; [done|]. unfold mret, M_ret. by destruct g. }
  rewrite (bind_run _ _ _ _ _ H2). clear H2.
  set (g2 := withOffset _ g1).
  assert (H3 : (match size with
                | Some (w, h) => setOriginalSize (mkSize w h)
                | None => mret tt
                end) (g2, log)
               = ((withOriginalSize (match size with
                                     | Some (w, h) => Some (mkSize w h)
                                     | None => _originalSize g
                                     end) g2, log), Normal tt)).
  { destruct size as [[w h]|]; [|unfold mret, M_ret; by destruct g].
    unfold setOriginalSize. rewrite (bind_run this _ _ _ g2) by done.
    by destruct (_originalSize g2). }
  rewrite (bind_run _ _ _ _ _ H3). clear H3.
  set (g3 := withOriginalSize _ g2).
  unfold mbind at 1 2, M_bind, modify. cbn [fst snd].
  set (g5 := withName name _).
  assert (H6 : (match caps with
                | Some capInsets =>
                    modify (λ f, withCapInsets
                                   (<[INSET_LEFT := numAt capInsets INSET_LEFT]> (_capInsets f)) f);;
                    modify (λ f, withCapInsets
                                   (<[INSET_TOP := numAt capInsets INSET_TOP]> (_capInsets f)) f);;
                    modify (λ f, withCapInsets
                                   (<[INSET_RIGHT := numAt capInsets INSET_RIGHT]> (_capInsets f)) f);;
                    modify (λ f, withCapInsets
                                   (<[INSET_BOTTOM := numAt capInsets INSET_BOTTOM]> (_capInsets f))
                                   f)
                | None => mret tt
                end) (g5, log)
               = ((withCapInsets
                     (match caps with
                      | Some capInsets =>
                          <[INSET_BOTTOM := numAt capInsets INSET_BOTTOM]>
                            (<[INSET_RIGHT := numAt capInsets INSET_RIGHT]>
                               (<[INSET_TOP := numAt capInsets INSET_TOP]>
                                  (<[INSET_LEFT := numAt capInsets INSET_LEFT]> (_capInsets g))))
                      | None => _capInsets g
                      end) g5, log), Normal tt)).
  { destruct caps as [c|]; [done|]. unfold mret, M_ret. by destruct g. }
  rewrite (bind_run _ _ _ _ _ H6). clear H6.
  set (g6 := withCapInsets _ g5).
  assert (H7 : when CC_EDITOR (modify (withAtlasUuid atlas)) (g6, log)
               = ((withAtlasUuid (if CC_EDITOR then atlas else _atlasUuid g) g6, log),
                  Normal tt)).
  { destruct CC_EDITOR; [done|]. unfold when, mret, M_ret. by destruct g. }
  rewrite (bind_run _ _ _ _ _ H7). clear H7.
  set (g7 := withAtlasUuid _ g6).
  unfold mbind at 1, M_bind, modify. cbn [fst snd].
  destruct tex as [u|].
  - destruct (String.eqb u ""); [by rewrite app_nil_r|done].
  - by rewrite app_nil_r.
Qed.

Lemma insert_all_four (a b c d a' b' c' d' : number) :
  <[INSET_BOTTOM := d']> (<[INSET_RIGHT := c']> (<[INSET_TOP := b']>
     (<[INSET_LEFT := a']> [a; b; c; d]))) = [a'; b'; c'; d'].
Proof. done. Qed.

(** X27. What [_serialize] writes, [_deserialize] reads back into a
    new frame: name, rectangle, offset, original size, rotation, the
    four insets and the polygon (its normalised coordinates empty) are
    those of the frame, the atlas too unless the frame was exported; the
    texture is not set but asked for through [_textureSetter].  On a
    frame that is not new, a rectangle, an offset or an original size
    that the data does not have is left as it is in the frame. *)
Theorem serialize_deserialize_round_trip (f : SpriteFrame) (exporting : bool) :
  CC_EDITOR = true → length (_capInsets f) = 4 →
  ∃ data,
    _serialize exporting f = Some data ∧
    (_deserialize data (newFrame, [])).2 = Normal tt ∧
    (_deserialize data (newFrame, [])).1.1
      = mkFrame (_name f) (_rect f) (_offset f) (_originalSize f) (_rotated f)
          ((λ vt, mkVertices (vt_triangles vt) (vt_x vt) (vt_y vt) (vt_u vt) (vt_v vt) [] [])
             <$> vertices f)
          (_capInsets f) [] [] None "" (if exporting then None else _atlasUuid f) ∧
    (_deserialize data (newFrame, [])).1.2
      = match d_texture data with
        | Some uuid => [PushResult "_textureSetter" uuid]
        | None => []
        end ∧
    ∀ g log,
      (_rect f = None → _rect (_deserialize data (g, log)).1.1 = _rect g) ∧
      (_offset f = None → _offset (_deserialize data (g, log)).1.1 = _offset g) ∧
      (_originalSize f = None →
         _originalSize (_deserialize data (g, log)).1.1 = _originalSize g).
Proof.
  intros HE Hcaps. unfold _serialize. rewrite HE. eexists. split; [reflexivity|].
  rewrite _deserialize_run. cbn [fst snd].
  destruct f as [name rect offset size rotated verts caps uv0 sliced tex file atlas].
  cbn [_name _rect _offset _originalSize _rotated vertices _capInsets uv uvSliced _texture
       _textureFilename _atlasUuid d_name d_texture d_atlas d_rect d_offset d_originalSize
       d_rotated d_capInsets d_vertices] in *.
  rewrite HE.
  destruct caps as [|a [|b [|c [|d [|? ?]]]]]; try done.
  split; [done|]. split; [|split].
  - unfold newFrame. cbn [_rect _offset _originalSize _capInsets _atlasUuid uv uvSliced
                          _texture _textureFilename].
    rewrite insert_all_four.
    f_equal.
    + by destruct rect as [[]|].
    + by destruct offset as [[]|].
    + by destruct size as [[]|].
    + by destruct rotated.
    + by destruct verts as [[]|].
  - unfold truthyString. cbn [d_texture snd fst app].
    match goal with |- context [String.eqb ?u ""] => destruct (String.eqb u "") eqn:Hu end.
    + done.
    + by rewrite Hu.
  - intros g log. rewrite !_deserialize_run. cbn [fst snd _rect _offset _originalSize].
    repeat split; by intros ->.
Qed.

Lemma refreshed_geometry (t : Ref) (s : St) :
  (is_Some (_rect s.1) → _rotated s.1 && RENDER_TYPE_CANVAS = false →
     _rect (refreshed t s).1 = _rect s.1 ∧ _rotated (refreshed t s).1 = _rotated s.1) ∧
  (is_Some (_offset s.1) → _offset (refreshed t s).1 = _offset s.1) ∧
  (is_Some (_originalSize s.1) → _originalSize (refreshed t s).1 = _originalSize s.1).
Proof.
  unfold refreshed. destruct (tex_loaded (textureOf t)); cbn [fst snd]; [|done].
  unfold loaded, computed, loadedRect.
  cbn [_rect _rotated _offset _originalSize withTexture].
  split; [|split].
  - intros [r Hr] Hturn. rewrite Hturn, Hr. done.
  - by intros [o ->].
  - by intros [o ->].
Qed.

(** X28. [clone] makes a new frame from the texture (or, without a
    texture, from its file name), the rectangle, the rotation, the
    offset and the original size, and from nothing else: it never throws,
    and the clone has the insets [0, 0, 0, 0], no polygon and no name,
    whatever the frame has.  The clone of a frame with a texture has no
    file name of the texture.  A rectangle, an offset and an original
    size that the frame has are those of the clone, unless a rotated
    frame is turned back for the canvas renderer. *)
Theorem clone_keeps_geometry_and_drops_insets (f : SpriteFrame) :
  (clone f).2 = Normal tt ∧
  _capInsets (clone f).1.1 = [zero; zero; zero; zero] ∧
  vertices (clone f).1.1 = None ∧
  _name (clone f).1.1 = "" ∧
  (∀ t, _texture f = Some t →
        _texture (clone f).1.1 = Some t ∧ _textureFilename (clone f).1.1 = "") ∧
  (is_Some (_rect f) → _rotated f && RENDER_TYPE_CANVAS = false →
     _rect (clone f).1.1 = _rect f ∧ _rotated (clone f).1.1 = _rotated f) ∧
  (is_Some (_offset f) → _offset (clone f).1.1 = _offset f) ∧
  (is_Some (_originalSize f) → _originalSize (clone f).1.1 = _originalSize f).
Proof.
  unfold clone. rewrite ctor_run, setTexture_run. cbv zeta.
  set (f0 := assigned newFrame (_rect f) (_rotated f) (_offset f) (_originalSize f)).
  assert (Hcase : ∀ t s, _capInsets s.1 = [zero; zero; zero; zero] → vertices s.1 = None →
            _name s.1 = "" → _rect s.1 = _rect f → _rotated s.1 = _rotated f →
            _offset s.1 = _offset f → _originalSize s.1 = _originalSize f →
            _capInsets (refreshed t s).1 = [zero; zero; zero; zero] ∧
            vertices (refreshed t s).1 = None ∧ _name (refreshed t s).1 = "" ∧
            _texture (refreshed t s).1 = Some t ∧
            _textureFilename (refreshed t s).1 = _textureFilename s.1 ∧
            (is_Some (_rect f) → _rotated f && RENDER_TYPE_CANVAS = false →
               _rect (refreshed t s).1 = _rect f ∧ _rotated (refreshed t s).1 = _rotated f) ∧
            (is_Some (_offset f) → _offset (refreshed t s).1 = _offset f) ∧
            (is_Some (_originalSize f) → _originalSize (refreshed t s).1 = _originalSize f)).
  { intros t s Hc Hv Hn Hr Hrot Ho Hs.
    destruct (refreshed_fields t s) as (Ht & Hf & Hc' & Hn' & _ & Hv').
    destruct (refreshed_geometry t s) as (Hg1 & Hg2 & Hg3).
    rewrite Hc', Hn', Hc, Hn. rewrite Hr, Hrot in Hg1. rewrite Ho in Hg2. rewrite Hs in Hg3.
    split; [done|]. split; [by apply Hv'|]. split; [done|]. split; [done|]. split; [done|].
    done. }
  destruct (_texture f) as [t|] eqn:Ht.
  - rewrite bool_decide_eq_false_2 by done. cbn [fst snd].
    destruct (Hcase t (f0, []) eq_refl eq_refl eq_refl eq_refl eq_refl eq_refl eq_refl)
      as (H1 & H2 & H3 & H4 & H5 & H6 & H7 & H8).
    split; [done|]. split; [done|]. split; [done|]. split; [done|].
    split; [|done]. intros t' [= <-]. done.
  - destruct (String.eqb (_textureFilename f) "") eqn:Hfile; cbn [fst snd].
    + repeat split; try done.
    + destruct (Hcase (loadImage (_textureFilename f))
                  (withTextureFilename (_textureFilename f) f0,
                   [] ++ [LoadImage (_textureFilename f)])
                  eq_refl eq_refl eq_refl eq_refl eq_refl eq_refl eq_refl)
        as (H1 & H2 & H3 & H4 & H5 & H6 & H7 & H8).
      split; [done|]. split; [done|]. split; [done|]. split; [done|].
      split; [|done]. done.
Qed.

End SpriteCopies.

(** ** The properties on the frames of the examples *)

Lemma setTexture_with_loaded_texture_completes_the_frame_witness :
  Sprite._texture (Sprite.newFrame (V := SpriteSpec.testEnv)) ≠ Some 1%positive ∧
  Sprite.tex_loaded (Sprite.textureOf (Env := SpriteSpec.testEnv) 1%positive) = true ∧
  (Sprite.setTexture (V := SpriteSpec.testEnv) (Sprite.TexObject 1%positive) None false None
     None (Sprite.newFrame (V := SpriteSpec.testEnv), [])).2 = Normal true.
Proof.
  split; [discriminate|]. split; [reflexivity|].
  apply (setTexture_with_loaded_texture_completes_the_frame (V := SpriteSpec.testEnv)
           (Sprite.newFrame (V := SpriteSpec.testEnv)) [] 1%positive None false None None);
    [discriminate|reflexivity].
Defined.

(** A frame that waits for the texture [2] and was given no
    rectangle: setting an inset throws. *)
Lemma inset_setter_stores_then_recomputes_witness :
  let f := (Sprite.setTexture (V := SpriteSpec.testEnv) (Sprite.TexObject 2%positive) None
              false None None (Sprite.newFrame (V := SpriteSpec.testEnv), [])).1.1 in
  Sprite.INSET_TOP < length (Sprite._capInsets f) ∧
  (Sprite.setInset (V := SpriteSpec.testEnv) Sprite.INSET_TOP five (f, [])).2
    = ThrowTypeError ∧
  Sprite.getInset Sprite.INSET_TOP
    (Sprite.setInset (V := SpriteSpec.testEnv) Sprite.INSET_TOP five (f, [])).1.1 = five.
Proof.
  intros f.
  assert (Hlt : Sprite.INSET_TOP < length (Sprite._capInsets f)) by (vm_compute; lia).
  destruct (inset_setter_stores_then_recomputes (V := SpriteSpec.testEnv) f []
              Sprite.INSET_TOP five Hlt) as (H1 & _ & _ & H4 & _).
  split; [exact Hlt|]. split; [|exact H1].
  apply H4; [by eexists|reflexivity].
Defined.

Lemma cleared_texture_object_is_not_reloaded_witness :
  "a.png" ≠ "" ∧
  Sprite._texture
    ((Sprite.clearTexture;; Sprite.ensureLoadTexture (V := SpriteSpec.testEnv))
       (Sprite.ctor (V := SpriteSpec.testEnv) (Some (Sprite.TexFile "a.png")) None false None
          None).1).1.1 = Some 2%positive.
Proof.
  split; [discriminate|].
  destruct (cleared_texture_object_is_not_reloaded (V := SpriteSpec.testEnv) 1%positive None
              false None None) as [_ H].
  destruct (H "a.png" ltac:(discriminate)) as (_ & H2 & _). exact H2.
Defined.

Lemma serialize_deserialize_round_trip_witness :
  Sprite.CC_EDITOR (Env := SpriteSpec.testEnv) = true ∧
  length (Sprite._capInsets (SpriteSpec.testFrame 1%positive)) = 4 ∧
  ∃ data,
    Sprite._serialize (V := SpriteSpec.testEnv) true (SpriteSpec.testFrame 1%positive)
      = Some data ∧
    (Sprite._deserialize (V := SpriteSpec.testEnv) data
       (Sprite.newFrame (V := SpriteSpec.testEnv), [])).2 = Normal tt.
Proof.
  split; [reflexivity|]. split; [reflexivity|].
  destruct (serialize_deserialize_round_trip (V := SpriteSpec.testEnv)
              (SpriteSpec.testFrame 1%positive) true eq_refl eq_refl)
    as (data & H1 & H2 & _).
  exists data. split; [exact H1|exact H2].
Defined.

Lemma clone_keeps_geometry_and_drops_insets_witness :
  is_Some (Sprite._rect (SpriteSpec.testFrame 1%positive)) ∧
  Sprite._rect (Sprite.clone (V := SpriteSpec.testEnv) (SpriteSpec.testFrame 1%positive)).1.1
    = Sprite._rect (SpriteSpec.testFrame 1%positive) ∧
  Sprite._capInsets
    (Sprite.clone (V := SpriteSpec.testEnv) (SpriteSpec.testFrame 1%positive)).1.1
    = [zero; zero; zero; zero].
Proof.
  destruct (clone_keeps_geometry_and_drops_insets (V := SpriteSpec.testEnv)
              (SpriteSpec.testFrame 1%positive)) as (_ & H2 & _ & _ & _ & H6 & _).
  split; [by eexists|]. split; [|exact H2].
  apply H6; [by eexists|reflexivity].
Defined.
